(** * Noise statistics of [noise_audit.py]

    A shallow embedding of [calculate_noise_stats]
    (src/.agent/skills/bias-audit/scripts/noise_audit.py) and the
    verification of its specification.

    Scores are Python [float]s, that is IEEE-754 binary64 numbers; they
    are modelled by Rocq's primitive floats, whose operations are the
    correctly rounded binary64 operations. The Python built-ins the
    function calls ([sum], [sorted], [round], [math.sqrt], [**], [len],
    list indexing) are modelled in module [Py], the function itself in
    module [NoiseAudit]; the facts about them follow in [PyFacts],
    [FloatFacts] and [NoiseAuditFacts].

    Two built-ins are not fixed by the language: [**] hands finite
    operands to the C library's [pow], which need not be correctly
    rounded, and the order in which [sorted] leaves a list that holds a
    NaN depends on the comparisons its merge sort happens to make. Both
    are fields of the class [Py.Runtime], and every theorem holds for
    every runtime; the worked examples at the end are evaluated with one
    of them. *)

From Stdlib Require Import ZArith List Floats Lia Permutation Sorted.
From stdpp Require Import base option list gmap strings.

Set Warnings "-inexact-float".


(** ** Classes of binary64 values used in the statements *)

Module FloatClass.

(** Not a NaN. *)
Definition nonnan (f : spec_float) : Prop :=
  match f with
  | S754_nan => False
  | _ => True
  end.

(** A zero or a finite non-zero number. *)
Definition finite (f : spec_float) : Prop :=
  match f with
  | S754_zero _ | S754_finite _ _ _ => True
  | _ => False
  end.

(** A finite number above zero. *)
Definition pos_finite (f : spec_float) : Prop :=
  match f with
  | S754_finite false _ _ => True
  | _ => False
  end.

(** A number that compares [>= 0]: a zero of either sign, a positive
    finite number or [+inf]. *)
Definition nonneg (f : spec_float) : Prop :=
  match f with
  | S754_zero _ => True
  | S754_infinity s | S754_finite s _ _ => s = false
  | S754_nan => False
  end.

Definition nonneg_or_nan (f : spec_float) : Prop :=
  match f with
  | S754_nan => True
  | _ => nonneg f
  end.

(** The sign of a value is [s], and the value is not a NaN. *)
Definition signed (s : bool) (f : spec_float) : Prop :=
  match f with
  | S754_zero s' | S754_infinity s' | S754_finite s' _ _ => s' = s
  | S754_nan => False
  end.

(** An infinity or a NaN. *)
Definition nonfinite (f : spec_float) : Prop :=
  match f with
  | S754_infinity _ | S754_nan => True
  | _ => False
  end.

(** The infinity of sign [s], or a NaN. *)
Definition inf_or_nan (s : bool) (f : spec_float) : Prop :=
  match f with
  | S754_nan => True
  | S754_infinity s' => s' = s
  | _ => False
  end.

(** What a sum that has met the non-finite term [x] can be: a NaN after
    a NaN, and the same infinity or a NaN after an infinity. *)
Definition follows (x f : spec_float) : Prop :=
  match x with
  | S754_nan => f = S754_nan
  | S754_infinity s => inf_or_nan s f
  | _ => True
  end.

(** A number that compares [<= 0]: a zero of either sign, a negative
    finite number or [-inf]. *)
Definition nonpos (f : spec_float) : Prop :=
  match f with
  | S754_zero _ => True
  | S754_infinity s | S754_finite s _ _ => s = true
  | S754_nan => False
  end.

(** A NaN, or a number with the sign bit clear: [+0.0], a positive finite
    number or [+inf]. *)
Definition plus_or_nan (f : spec_float) : Prop :=
  match f with
  | S754_nan => True
  | S754_zero s | S754_infinity s | S754_finite s _ _ => s = false
  end.

End FloatClass.
(** ** The Python run-time the function relies on *)

Module Py.

(** Exceptions the built-ins used by the function can raise. *)
Inductive exn : Type :=
  | OverflowError   (* float [**] whose result leaves the binary64 range *)
  | ValueError      (* [math.sqrt] of a negative number *)
  | IndexError.     (* list index out of range *)

(** The outcome of evaluating a Python expression: a value or a raised
    exception. *)
Inductive outcome (A : Type) : Type :=
  | Returned (a : A)
  | Raised (e : exn).
Arguments Returned {A} a.
Arguments Raised {A} e.

#[global] Instance outcome_ret : MRet outcome := fun A a => Returned a.
#[global] Instance outcome_bind : MBind outcome := fun A B f m =>
  match m with
  | Returned a => f a
  | Raised e => Raised e
  end.

(** [float(n)] for a list length [n]: lengths are below [2^63] in CPython
    ([PY_SSIZE_T_MAX]), where the conversion is the correctly rounded
    one of [of_uint63]. *)
Definition float_of_int (n : nat) : float :=
  of_uint63 (Uint63.of_Z (Z.of_nat n)).

(** [math.isfinite]. *)
Definition isfinite (x : float) : bool :=
  match Prim2SF x with
  | S754_zero _ | S754_finite _ _ _ => true
  | S754_infinity _ | S754_nan => false
  end.

(** [math.isnan]. *)
Definition isnan (x : float) : bool :=
  match Prim2SF x with
  | S754_nan => true
  | _ => false
  end.

(** [math.isinf]. *)
Definition isinf (x : float) : bool :=
  match Prim2SF x with
  | S754_infinity _ => true
  | _ => false
  end.

(** What the interpreter takes from its platform.

    [libm_pow2 x] is the C library's [pow(x, 2.0)], which float [**] calls
    on a finite operand above zero. It is not required to be correctly
    rounded (glibc's is not); what is used of it is that the square is
    neither a NaN nor negative, and that it is infinite exactly when the
    correctly rounded square is.

    [sort_with_nan l] is the list [sorted] returns for a list that holds a
    NaN: a permutation of it, and nothing more is known of it. *)
Class Runtime : Type := {
  libm_pow2 : float -> float;
  libm_pow2_signed :
    forall x : float, isfinite x = true -> (0 <? x)%float = true ->
      FloatClass.signed false (Prim2SF (libm_pow2 x));
  libm_pow2_isfinite :
    forall x : float, isfinite x = true -> (0 <? x)%float = true ->
      isfinite (libm_pow2 x) = isfinite (x * x)%float;
  sort_with_nan : list float -> list float;
  sort_with_nan_Permutation :
    forall l : list float, Permutation (sort_with_nan l) l
}.

(** [sum(xs)] over floats: the accumulator starts at the integer [0] and
    the items are added from left to right. *)
Definition py_sum (xs : list float) : float :=
  fold_left PrimFloat.add xs 0%float.

(** CPython 3.12 and later add floats with Neumaier's compensated
    summation instead: next to the running sum [f] they keep the rounding
    errors in [c], and add [c] at the end when it is finite and not zero.
    The statements below are about [py_sum]; the counterexamples are
    evaluated with both. *)
Definition add_compensated (st : float * float) (x : float) : float * float :=
  let '(f, c) := st in
  let t := (f + x)%float in
  (t, if (abs x <=? abs f)%float then (c + ((f - t) + x))%float
      else (c + ((x - t) + f))%float).

Definition py_sum_compensated (xs : list float) : float :=
  match xs with
  | [] => 0%float
  | x :: xs' =>
      let '(f, c) := fold_left add_compensated xs' ((0 + x)%float, 0%float) in
      if isfinite c && negb (c =? 0)%float then (f + c)%float else f
  end.

(** [x ** 2] on a float, as CPython's [float_pow] evaluates it. A NaN is
    returned as it is, an infinity gives [+inf] and a zero [0.0], all
    without the C library. A finite operand loses its sign (the exponent
    is even); [1.0] gives [1.0], and any other operand goes to the C
    library's [pow]. CPython raises [OverflowError] when [pow] returns an
    infinity; a result that underflows is returned. *)
Definition py_pow2 `{Runtime} (x : float) : outcome float :=
  if isnan x then Returned x
  else if isinf x then Returned (abs x)
  else if (x =? 0)%float then Returned 0%float
  else
    let iv := if (x <? 0)%float then (- x)%float else x in
    if (iv =? 1)%float then Returned 1%float
    else
      let ix := libm_pow2 iv in
      if isinf ix then Raised OverflowError else Returned ix.

(** The value of [x ** 2], taken as [+inf] where it raises. *)
Definition float_pow2 `{Runtime} (x : float) : float :=
  match py_pow2 x with
  | Returned y => y
  | Raised _ => infinity
  end.

(** [x ** 2] raises: [x] is finite and its correctly rounded square is
    not. *)
Definition pow2_overflows (x : float) : bool :=
  isfinite x && negb (isfinite (x * x)%float).

(** [math.sqrt]: raises [ValueError] below zero, and is the correctly
    rounded square root otherwise (a NaN stays a NaN). *)
Definition math_sqrt (x : float) : outcome float :=
  if (x <? 0)%float then Raised ValueError else Returned (sqrt x).

(** [l[i]] for a non-negative index. *)
Definition py_getitem {A : Type} (l : list A) (i : nat) : outcome A :=
  match l !! i with
  | Some a => Returned a
  | None => Raised IndexError
  end.

(** [max(xs)] and [min(xs)]: the first item no later item is above
    (below); an empty list raises [ValueError]. The function does not call
    them; the specification states the range of the mean with them. *)
Definition py_max (xs : list float) : outcome float :=
  match xs with
  | [] => Raised ValueError
  | x :: xs' => Returned (fold_left (fun m y => if (m <? y)%float then y else m) xs' x)
  end.

Definition py_min (xs : list float) : outcome float :=
  match xs with
  | [] => Raised ValueError
  | x :: xs' => Returned (fold_left (fun m y => if (y <? m)%float then y else m) xs' x)
  end.

(** *** [round(x, 2)]

    CPython prints the exact binary value of [x] with two digits after the
    point, ties going to the even neighbour, and reads the decimal string
    back as the nearest double. Infinities, NaNs and zeros are returned as
    they are, and a result of zero keeps the sign of [x]. *)

(** [num / den] rounded to the nearest integer, ties to even ([den > 0]). *)
Definition div_half_even (num den : Z) : Z :=
  let q := (num / den)%Z in
  let r := (num mod den)%Z in
  match (2 * r ?= den)%Z with
  | Lt => q
  | Gt => (q + 1)%Z
  | Eq => if Z.even q then q else (q + 1)%Z
  end.

(** The number of hundredths nearest to [m * 2^e]. *)
Definition hundredths (m : positive) (e : Z) : Z :=
  match e with
  | Zneg p => div_half_even (100 * Zpos m) (2 ^ Zpos p)
  | _ => (100 * Zpos m * 2 ^ e)%Z
  end.

Definition SFround2 (f : spec_float) : spec_float :=
  match f with
  | S754_finite s m e =>
      match hundredths m e with
      | Zpos k => SFdiv prec emax (S754_finite s k 0) (S754_finite false 100 0)
      | _ => S754_zero s
      end
  | _ => f
  end.

Definition py_round2 (x : float) : float := SF2Prim (SFround2 (Prim2SF x)).

(** *** [sorted]

    [sorted] returns a new list, compares items with [<] only and is
    stable. On lists without NaN, where [<] is a strict weak order, every
    stable sort returns the same list; it is written here as an insertion
    sort. With a NaN in the list [<] is no order, and the result is the
    permutation the runtime's merge sort happens to produce. *)
Section Sorted.
Context {A : Type} (lt : A -> A -> bool).

Fixpoint insert_sorted (x : A) (l : list A) : list A :=
  match l with
  | [] => [x]
  | y :: l' => if lt y x then y :: insert_sorted x l' else x :: y :: l'
  end.

Fixpoint sorted_by (l : list A) : list A :=
  match l with
  | [] => []
  | x :: l' => insert_sorted x (sorted_by l')
  end.

(** [a] may stand before [b] in ascending order: [b] is not below [a]. *)
Definition not_above (a b : A) : Prop := lt b a = false.

(** Two values of the class [P] none of which is below the other. *)
Definition tied (P : A -> Prop) (a b : A) : Prop :=
  P a /\ P b /\ lt a b = false /\ lt b a = false.
End Sorted.

Definition sorted `{Runtime} (l : list float) : list float :=
  if existsb isnan l then sort_with_nan l else sorted_by PrimFloat.ltb l.

(** *** Exact values

    Every finite double is a whole multiple of [2^-1074]; [scaled x] is
    that multiple, so that sums and comparisons of scaled values are those
    of exact arithmetic. *)
Definition SFscaled (f : spec_float) : Z :=
  match f with
  | S754_finite s m e => cond_Zopp s (Zpos m * 2 ^ (e + 1074))%Z
  | _ => 0%Z
  end.

Definition scaled (x : float) : Z := SFscaled (Prim2SF x).

End Py.

(** ** The function *)

Module NoiseAudit.
Import Py.

(** The values a result dictionary holds. *)
Inductive pyval : Type :=
  | PyFloat (x : float)
  | PyList (l : list float)
  | PyStr (s : string).

(** The squared deviations [(x - mean) ** 2 for x in scores], in the order
    [sum] consumes them; the first overflowing square raises. *)
Definition squared_deviations `{Runtime} (mean : float) (scores : list float)
  : outcome (list float) :=
  mapM (fun x => py_pow2 (x - mean)%float) scores.

(** [calculate_noise_stats(scores, target_value=None)] (lines 6-48); no
    target is [None]. *)
Definition calculate_noise_stats `{Runtime}
           (scores : list float) (target_value : option float)
  : outcome (gmap string pyval) :=
  match scores with
  | [] => Returned {[ "error" := PyStr "No scores provided" ]}
  | _ :: _ =>
      let n := length scores in
      let mean := (py_sum scores / float_of_int n)%float in
      sq ← squared_deviations mean scores;
      let variance := (py_sum sq / float_of_int n)%float in
      std_dev ← math_sqrt variance;
      median ← py_getitem (sorted scores) (n / 2);
      let result : gmap string pyval :=
        {[ "mean" := PyFloat (py_round2 mean);
           "median" := PyFloat median;
           "std_dev" := PyFloat (py_round2 std_dev);
           "variance" := PyFloat (py_round2 variance);
           "raw_scores" := PyList scores ]} in
      match target_value with
      | Some target =>
          let bias := (mean - target)%float in
          bias2 ← py_pow2 bias;
          let mse := (bias2 + variance)%float in
          Returned (<[ "bias_component" := PyFloat (py_round2 bias) ]>
                      (<[ "mse" := PyFloat (py_round2 mse) ]> result))
      | None => Returned result
      end
  end.

(** Names for the quantities the function computes on the way, as the
    statements below refer to them. *)

(** [mean = sum(scores) / n] (line 27). *)
Definition mean_of (scores : list float) : float :=
  (py_sum scores / float_of_int (length scores))%float.

(** [variance = sum(...) / n] (line 29), given the squared deviations. *)
Definition variance_of (sq : list float) : float :=
  (py_sum sq / float_of_int (length sq))%float.

(** [sum((x - mean) ** 2 for x in scores)] (line 29). *)
Definition sum_squared_deviations `{Runtime} (scores : list float) : outcome float :=
  sq ← squared_deviations (mean_of scores) scores; mret (py_sum sq).

(** No square taken by the function leaves the binary64 range: neither
    that of a deviation nor, with a target, that of the bias. *)
Definition no_overflow (scores : list float) (target_value : option float) : bool :=
  forallb (fun x => negb (pow2_overflows (x - mean_of scores)%float)) scores &&
  match target_value with
  | Some target => negb (pow2_overflows (mean_of scores - target)%float)
  | None => true
  end.

(** The record built at lines 32-38 from the unrounded statistics. *)
Definition statistics_record (mean median std_dev variance : float)
           (scores : list float) : gmap string pyval :=
  {[ "mean" := PyFloat (py_round2 mean);
     "median" := PyFloat median;
     "std_dev" := PyFloat (py_round2 std_dev);
     "variance" := PyFloat (py_round2 variance);
     "raw_scores" := PyList scores ]}.

(** The two entries added at lines 45-46 when a target is given. *)
Definition with_target (mse bias : float) (result : gmap string pyval)
  : gmap string pyval :=
  <[ "bias_component" := PyFloat (py_round2 bias) ]>
    (<[ "mse" := PyFloat (py_round2 mse) ]> result).

(** The keys of every result of a non-empty input. *)
Definition statistics_keys : gset string :=
  {[ "mean"; "median"; "std_dev"; "variance"; "raw_scores" ]}.

(** The keys added when a target is given. *)
Definition target_keys : gset string := {[ "mse"; "bias_component" ]}.

(** The entry of a key in the record a call returns, if it returns one. *)
Definition reported (key : string) (o : outcome (gmap string pyval)) : option pyval :=
  match o with
  | Returned r => r !! key
  | Raised _ => None
  end.

(** The floating-point sum of the scores is finite and is their exact
    sum: no addition was rounded. *)
Definition sum_is_exact (scores : list float) : bool :=
  isfinite (py_sum scores) &&
  (scaled (py_sum scores) =? fold_right Z.add 0 (map scaled scores))%Z.

(** [n * lo <= sum(scores)] and [sum(scores) <= n * hi], the products
    taken exactly. *)
Definition sum_not_below (scores : list float) (lo : float) : bool :=
  (Z.of_nat (length scores) * scaled lo <=? scaled (py_sum scores))%Z.

Definition sum_not_above (scores : list float) (hi : float) : bool :=
  (scaled (py_sum scores) <=? Z.of_nat (length scores) * scaled hi)%Z.

(** *** Worked scenarios *)

(** [scores = [10, 20, 30]], no target. *)
Definition result_10_20_30 : gmap string pyval :=
  {[ "mean" := PyFloat 20;
     "median" := PyFloat 20;
     "std_dev" := PyFloat 8.16;
     "variance" := PyFloat 66.67;
     "raw_scores" := PyList [10; 20; 30]%float ]}.

(** [scores = [5, 5, 5]], [target = 7]. *)
Definition result_5_5_5_target_7 : gmap string pyval :=
  {[ "mean" := PyFloat 5;
     "median" := PyFloat 5;
     "std_dev" := PyFloat 0;
     "variance" := PyFloat 0;
     "raw_scores" := PyList [5; 5; 5]%float;
     "mse" := PyFloat 4;
     "bias_component" := PyFloat (-2) ]}.

(** [scores = [1, 2, 3, 4]], no target. *)
Definition result_1_2_3_4 : gmap string pyval :=
  {[ "mean" := PyFloat 2.5;
     "median" := PyFloat 3;
     "std_dev" := PyFloat 1.12;
     "variance" := PyFloat 1.25;
     "raw_scores" := PyList [1; 2; 3; 4]%float ]}.

(** Two orders of the same five scores, [2^120], [2^60], [1], [-2^60] and
    [-2^120]: in the first the small items are absorbed by the large ones
    before these cancel. *)
Definition scores_absorbed : list float :=
  [0x1p+120; 0x1p+60; 1; -0x1p+60; -0x1p+120]%float.

Definition scores_cancelled : list float :=
  [0x1p+120; -0x1p+120; 0x1p+60; -0x1p+60; 1]%float.

(** The number of items of a list that pass a test. *)
Definition count_if {A : Type} (p : A -> bool) (l : list A) : nat :=
  length (List.filter p l).

End NoiseAudit.

(** ** Facts about the run-time model *)

Module PyFacts.
Import Py.

(** *** The error monad *)

Lemma bind_Returned {A B : Type} (m : outcome A) (f : A -> outcome B) (b : B) :
  m ≫= f = Returned b -> exists a, m = Returned a /\ f a = Returned b.
Proof. destruct m as [a|e]; simpl; [eauto | discriminate]. Qed.

Lemma bind_Raised {A B : Type} (m : outcome A) (f : A -> outcome B) (e : exn) :
  m ≫= f = Raised e ->
  m = Raised e \/ exists a, m = Returned a /\ f a = Raised e.
Proof. destruct m as [a|e']; simpl; intros H; [right; eauto | left; congruence]. Qed.

Lemma mapM_Returned_length {A B : Type} (f : A -> outcome B) (l : list A) (k : list B) :
  mapM f l = Returned k -> length k = length l.
Proof.
  revert k; induction l as [|x l IH]; intros k; simpl.
  - intros [= <-]; reflexivity.
  - intros H. apply bind_Returned in H as (y & _ & H).
    apply bind_Returned in H as (k' & Hk' & [= <-]).
    simpl; f_equal; auto.
Qed.

Lemma mapM_Returned_Forall2 {A B : Type} (f : A -> outcome B) (l : list A) (k : list B) :
  mapM f l = Returned k -> Forall2 (fun x y => f x = Returned y) l k.
Proof.
  revert k; induction l as [|x l IH]; intros k; simpl.
  - intros [= <-]; constructor.
  - intros H. apply bind_Returned in H as (y & Hy & H).
    apply bind_Returned in H as (k' & Hk' & [= <-]).
    constructor; auto.
Qed.

Lemma mapM_Raised {A B : Type} (f : A -> outcome B) (l : list A) (e : exn) :
  mapM f l = Raised e -> exists x, In x l /\ f x = Raised e.
Proof.
  induction l as [|x l IH]; simpl; [discriminate|].
  intros H. apply bind_Raised in H as [H | (y & Hy & H)].
  - exists x; auto.
  - apply bind_Raised in H as [H | (k & _ & H)]; [|discriminate].
    destruct (IH H) as (z & Hz & Hfz). exists z; auto.
Qed.

Lemma mapM_Returned_map {A B : Type} (f : A -> outcome B) (g : A -> B) (l : list A) :
  Forall (fun x => f x = Returned (g x)) l -> mapM f l = Returned (map g l).
Proof.
  induction 1 as [|x l Hx Hl IH]; simpl; [reflexivity|].
  rewrite Hx. cbn [mbind outcome_bind]. rewrite IH. reflexivity.
Qed.

Lemma mapM_Returned_In {A B : Type} (f : A -> outcome B) (l : list A) (k : list B)
      (x : A) :
  mapM f l = Returned k -> In x l -> exists y, f x = Returned y.
Proof.
  revert k; induction l as [|a l IH]; intros k H Hx; [contradiction|].
  simpl in H. apply bind_Returned in H as (y & Hy & H).
  apply bind_Returned in H as (k' & Hk' & _).
  destruct Hx as [<-|Hx]; eauto.
Qed.

(** *** Indexing *)

Lemma py_getitem_lt {A : Type} (l : list A) (i : nat) :
  i < length l -> exists a, py_getitem l i = Returned a /\ l !! i = Some a.
Proof.
  intros Hi. destruct (lookup_lt_is_Some_2 l i Hi) as [a Ha].
  exists a. unfold py_getitem. rewrite Ha. auto.
Qed.

Lemma py_getitem_Returned {A : Type} (l : list A) (i : nat) (a : A) :
  py_getitem l i = Returned a <-> l !! i = Some a.
Proof.
  unfold py_getitem. destruct (l !! i); split; congruence.
Qed.

Lemma half_lt (n : nat) : 0 < n -> n / 2 < n.
Proof. intros Hn. apply Nat.div_lt; lia. Qed.

(** *** Insertion sort over any comparison *)

Section SortedBy.
Context {A : Type} (lt : A -> A -> bool).

Lemma insert_sorted_Permutation (x : A) (l : list A) :
  Permutation (insert_sorted lt x l) (x :: l).
Proof.
  induction l as [|y l IH]; simpl; [reflexivity|].
  destruct (lt y x); [|reflexivity].
  rewrite IH. apply perm_swap.
Qed.

Lemma sorted_by_Permutation (l : list A) : Permutation (sorted_by lt l) l.
Proof.
  induction l as [|x l IH]; simpl; [reflexivity|].
  rewrite insert_sorted_Permutation. now constructor.
Qed.

Lemma sorted_by_length (l : list A) : length (sorted_by lt l) = length l.
Proof. apply Permutation_length, sorted_by_Permutation. Qed.

Abbreviation not_above := (not_above lt).

Hypothesis lt_asym : forall a b, lt a b = true -> lt b a = false.

Lemma insert_sorted_HdRel (a x : A) (l : list A) :
  not_above a x -> HdRel not_above a l -> HdRel not_above a (insert_sorted lt x l).
Proof.
  intros Hax Hl. destruct l as [|y l]; simpl; [now constructor|].
  inversion_clear Hl. destruct (lt y x); now constructor.
Qed.

Lemma insert_sorted_Sorted (x : A) (l : list A) :
  Sorted not_above l -> Sorted not_above (insert_sorted lt x l).
Proof.
  induction l as [|y l IH]; simpl; intros Hl.
  - repeat constructor.
  - inversion_clear Hl as [|? ? Hs Hh].
    destruct (lt y x) eqn:Hyx.
    + constructor; [auto|].
      apply insert_sorted_HdRel; [|assumption].
      apply lt_asym in Hyx. exact Hyx.
    + repeat constructor; assumption.
Qed.

Lemma sorted_by_Sorted (l : list A) : Sorted not_above (sorted_by lt l).
Proof.
  induction l as [|x l IH]; simpl; [constructor|].
  now apply insert_sorted_Sorted.
Qed.
End SortedBy.

(** The sorted copies of two permutations of a list agree position by
    position, up to ties, when [lt] is a strict weak order on the class [P]
    the items belong to. *)
Section SortedByPermutation.
Context {A : Type} (lt : A -> A -> bool) (P : A -> Prop).
Hypothesis lt_asym : forall a b, lt a b = true -> lt b a = false.
Hypothesis lt_negtrans : forall a b c, P a -> P b -> P c ->
  lt a b = false -> lt b c = false -> lt a c = false.

Abbreviation tied := (tied lt P).

Lemma lt_irrefl (a : A) : lt a a = false.
Proof. destruct (lt a a) eqn:E; [|reflexivity]. apply lt_asym in E as E'. congruence. Qed.

Lemma tied_refl (a : A) : P a -> tied a a.
Proof. intros Ha. repeat split; auto using lt_irrefl. Qed.

Lemma tied_sym (a b : A) : tied a b -> tied b a.
Proof. intros (Ha & Hb & H1 & H2). repeat split; assumption. Qed.

Lemma tied_trans (a b c : A) : tied a b -> tied b c -> tied a c.
Proof.
  intros (Ha & Hb & H1 & H2) (_ & Hc & H3 & H4).
  repeat split; eauto using lt_negtrans.
Qed.

Lemma tied_lt (a a' x : A) : tied a a' -> P x -> lt a x = lt a' x.
Proof.
  intros (Ha & Ha' & H1 & H2) Hx.
  destruct (lt a x) eqn:E1, (lt a' x) eqn:E2; try reflexivity.
  - rewrite (lt_negtrans a a' x) in E1; auto.
  - rewrite (lt_negtrans a' a x) in E2; auto.
Qed.

Lemma Forall2_tied_refl (l : list A) : Forall P l -> Forall2 tied l l.
Proof. induction 1; constructor; auto using tied_refl. Qed.

Lemma Forall2_tied_trans (l1 l2 l3 : list A) :
  Forall2 tied l1 l2 -> Forall2 tied l2 l3 -> Forall2 tied l1 l3.
Proof.
  intros H; revert l3; induction H as [|a b l1 l2 Hab H IH]; intros l3 H3;
    inversion_clear H3; constructor; eauto using tied_trans.
Qed.

Lemma insert_sorted_tied (x : A) (l l' : list A) :
  P x -> Forall2 tied l l' ->
  Forall2 tied (insert_sorted lt x l) (insert_sorted lt x l').
Proof.
  intros Hx H; induction H as [|a a' l l' Ha H IH]; simpl.
  - constructor; [apply tied_refl, Hx|constructor].
  - rewrite (tied_lt a a' x Ha Hx).
    destruct (lt a' x); constructor; auto using tied_refl.
Qed.

Lemma insert_sorted_Forall (x : A) (l : list A) :
  P x -> Forall P l -> Forall P (insert_sorted lt x l).
Proof.
  intros Hx Hl. eapply Permutation_Forall;
    [symmetry; apply insert_sorted_Permutation|]. constructor; assumption.
Qed.

Lemma insert_sorted_swap (x y : A) (l : list A) :
  P x -> P y -> Forall P l ->
  Forall2 tied (insert_sorted lt x (insert_sorted lt y l))
               (insert_sorted lt y (insert_sorted lt x l)).
Proof.
  intros Hx Hy Hl.
  induction Hl as [|z l Hz Hl IH]; simpl.
  - destruct (lt y x) eqn:E1.
    + rewrite (lt_asym _ _ E1). apply Forall2_tied_refl. repeat constructor; auto.
    + destruct (lt x y) eqn:E2.
      * apply Forall2_tied_refl. repeat constructor; auto.
      * repeat (constructor; [repeat split; assumption|]). constructor.
  - destruct (lt z y) eqn:Ezy, (lt z x) eqn:Ezx; simpl; rewrite ?Ezy, ?Ezx.
    + constructor; auto using tied_refl.
    + assert (Exy : lt x y = true).
      { destruct (lt x y) eqn:E; [reflexivity|].
        rewrite (lt_negtrans z x y) in Ezy; auto. }
      rewrite Exy. simpl. rewrite ?Ezy.
      apply Forall2_tied_refl. repeat constructor; auto using insert_sorted_Forall.
    + assert (Eyx : lt y x = true).
      { destruct (lt y x) eqn:E; [reflexivity|].
        rewrite (lt_negtrans z y x) in Ezx; auto. }
      rewrite Eyx. simpl. rewrite ?Ezx.
      apply Forall2_tied_refl. repeat constructor; auto using insert_sorted_Forall.
    + destruct (lt y x) eqn:E1.
      * rewrite (lt_asym _ _ E1). simpl. rewrite ?Ezx.
        apply Forall2_tied_refl. repeat constructor; auto.
      * destruct (lt x y) eqn:E2; simpl; rewrite ?Ezy.
        -- apply Forall2_tied_refl. repeat constructor; auto.
        -- repeat (constructor; [repeat split; assumption|]).
           apply Forall2_tied_refl. constructor; auto.
Qed.

Lemma sorted_by_Forall (l : list A) : Forall P l -> Forall P (sorted_by lt l).
Proof.
  intros H. eapply Permutation_Forall; [symmetry; apply sorted_by_Permutation|exact H].
Qed.

Lemma sorted_by_tied (l l' : list A) :
  Permutation l l' -> Forall P l ->
  Forall2 tied (sorted_by lt l) (sorted_by lt l').
Proof.
  induction 1 as [|x l l' Hp IH|x y l|l l' l'' Hp1 IH1 Hp2 IH2]; intros HP; simpl.
  - constructor.
  - inversion_clear HP. apply insert_sorted_tied; auto.
  - inversion_clear HP as [|? ? Hy HP']. inversion_clear HP' as [|? ? Hx HP''].
    apply insert_sorted_swap; auto using sorted_by_Forall.
  - eapply Forall2_tied_trans; [apply IH1; assumption|].
    apply IH2. eapply Permutation_Forall; eassumption.
Qed.
End SortedByPermutation.

(** *** Counting the items that pass a test *)

Lemma count_if_app {A : Type} (p : A -> bool) (l1 l2 : list A) :
  NoiseAudit.count_if p (l1 ++ l2) = NoiseAudit.count_if p l1 + NoiseAudit.count_if p l2.
Proof. unfold NoiseAudit.count_if. now rewrite List.filter_app, length_app. Qed.

Lemma count_if_cons {A : Type} (p : A -> bool) (x : A) (l : list A) :
  NoiseAudit.count_if p (x :: l) =
  (if p x then 1 else 0) + NoiseAudit.count_if p l.
Proof. unfold NoiseAudit.count_if. simpl. now destruct (p x). Qed.

Lemma count_if_Forall {A : Type} (p : A -> bool) (l : list A) :
  Forall (fun x => p x = true) l -> NoiseAudit.count_if p l = length l.
Proof.
  induction 1 as [|x l Hx _ IH]; [reflexivity|].
  rewrite count_if_cons, Hx, IH. reflexivity.
Qed.

Lemma count_if_Permutation {A : Type} (p : A -> bool) (l l' : list A) :
  Permutation l l' -> NoiseAudit.count_if p l = NoiseAudit.count_if p l'.
Proof.
  induction 1 as [|x l l' _ IH|x y l|l l' l'' _ IH1 _ IH2].
  - reflexivity.
  - rewrite !count_if_cons. lia.
  - rewrite !count_if_cons. lia.
  - congruence.
Qed.

(** In an ascending list, the items before an index are not above the
    item at the index, and those after it are not below. *)
Lemma StronglySorted_middle {A : Type} (R : A -> A -> Prop) (l : list A)
      (i : nat) (x : A) :
  StronglySorted R l -> l !! i = Some x ->
  Forall (fun y => R y x) (take i l) /\ Forall (R x) (drop (S i) l).
Proof.
  intros Hs. revert i. induction Hs as [|a l Hs IH Ha]; intros i Hi; [discriminate|].
  destruct i as [|j]; simpl in *.
  - injection Hi as <-. rewrite drop_0. split; [constructor|exact Ha].
  - destruct (IH j Hi) as [H1 H2]. split; [|exact H2].
    constructor; [|exact H1].
    rewrite Forall_forall in Ha. apply Ha. eapply list_elem_of_lookup_2, Hi.
Qed.

(** The item at an index of an ascending list has at least [i + 1] items
    not above it and at least [length l - i] items not below it. *)
Lemma StronglySorted_rank {A : Type} (le : A -> A -> bool) (l : list A)
      (i : nat) (x : A) :
  StronglySorted (fun a b => le a b = true) l -> l !! i = Some x -> le x x = true ->
  i + 1 <= NoiseAudit.count_if (fun y => le y x) l /\
  length l - i <= NoiseAudit.count_if (fun y => le x y) l.
Proof.
  intros Hs Hi Hx.
  destruct (StronglySorted_middle _ _ _ _ Hs Hi) as [H1 H2].
  pose proof (lookup_lt_Some _ _ _ Hi) as Hlt.
  rewrite <- (take_drop_middle l i x Hi) at 1 3.
  rewrite !count_if_app, !count_if_cons, Hx.
  rewrite (count_if_Forall (fun y => le y x) _ H1).
  rewrite (count_if_Forall (fun y => le x y) _ H2).
  rewrite length_take, length_drop. lia.
Qed.

End PyFacts.

(** ** Facts about binary64 arithmetic *)

Module FloatFacts.
Import Py FloatClass.

Local Open Scope Z_scope.

(** *** Rounding keeps the sign *)

Lemma shr_1_nonneg (mrs : shr_record) : 0 <= shr_m mrs -> 0 <= shr_m (shr_1 mrs).
Proof.
  destruct mrs as [m r s]; simpl.
  destruct m as [|p|p]; [simpl; lia| |lia].
  intros _. destruct p; simpl; lia.
Qed.

Lemma iter_pos_shr_1_nonneg (p : positive) (mrs : shr_record) :
  0 <= shr_m mrs -> 0 <= shr_m (SpecFloat.iter_pos shr_1 p mrs).
Proof.
  revert mrs; induction p as [p IH|p IH|]; intros mrs H; simpl.
  - apply IH, IH, shr_1_nonneg, H.
  - apply IH, IH, H.
  - apply shr_1_nonneg, H.
Qed.

Lemma shr_fexp_nonneg (m e : Z) (l : location) :
  0 <= m -> 0 <= shr_m (fst (shr_fexp prec emax m e l)).
Proof.
  intros Hm. unfold shr_fexp, shr.
  assert (H0 : 0 <= shr_m (shr_record_of_loc m l))
    by (destruct l as [|[]]; simpl; exact Hm).
  destruct (fexp prec emax (Zdigits2 m + e) - e); simpl; auto.
  apply iter_pos_shr_1_nonneg, H0.
Qed.

Lemma round_nearest_even_nonneg (m : Z) (l : location) :
  0 <= m -> 0 <= round_nearest_even m l.
Proof.
  intros Hm. destruct l as [|[]]; simpl; try lia.
  destruct (Z.even m); lia.
Qed.

Lemma binary_round_aux_signed (sx : bool) (mx ex : Z) (lx : location) :
  0 <= mx -> signed sx (binary_round_aux prec emax sx mx ex lx).
Proof.
  intros Hm. unfold binary_round_aux.
  pose proof (shr_fexp_nonneg mx ex lx Hm) as H1.
  destruct (shr_fexp prec emax mx ex lx) as [mrs' e']; simpl in H1.
  pose proof (shr_fexp_nonneg
                (round_nearest_even (shr_m mrs') (loc_of_shr_record mrs')) e' loc_Exact
                (round_nearest_even_nonneg _ _ H1)) as H2.
  destruct (shr_fexp prec emax _ e' loc_Exact) as [mrs'' e'']; simpl in H2.
  destruct (shr_m mrs'') as [|p|p]; simpl; [reflexivity| |lia].
  destruct (e'' <=? emax - prec); reflexivity.
Qed.

Lemma binary_round_signed (sx : bool) (mx : positive) (ex : Z) :
  signed sx (binary_round prec emax sx mx ex).
Proof.
  unfold binary_round.
  destruct (shl_align mx ex _) as [mz ez].
  apply binary_round_aux_signed. lia.
Qed.

Lemma binary_normalize_nonnan (m e : Z) (sz : bool) :
  nonnan (binary_normalize prec emax m e sz).
Proof.
  destruct m as [|p|p]; simpl; [exact I| |].
  - pose proof (binary_round_signed false p e) as H.
    destruct (binary_round prec emax false p e); simpl in *; auto.
  - pose proof (binary_round_signed true p e) as H.
    destruct (binary_round prec emax true p e); simpl in *; auto.
Qed.

Lemma binary_normalize_nonneg (m e : Z) (sz : bool) :
  0 <= m -> nonneg (binary_normalize prec emax m e sz).
Proof.
  destruct m as [|p|p]; simpl; [intros; exact I| |lia].
  intros _. pose proof (binary_round_signed false p e) as H.
  destruct (binary_round prec emax false p e); simpl in *; auto.
Qed.

Lemma signed_nonneg (f : spec_float) : signed false f -> nonneg f.
Proof. destruct f; simpl; auto. Qed.

Lemma signed_nonnan (s : bool) (f : spec_float) : signed s f -> nonnan f.
Proof. destruct f; simpl; auto. Qed.

Lemma nonneg_nonnan (f : spec_float) : nonneg f -> nonnan f.
Proof. destruct f; simpl; auto. Qed.

Lemma nonneg_nonneg_or_nan (f : spec_float) : nonneg f -> nonneg_or_nan f.
Proof. destruct f; simpl; auto. Qed.

Lemma nonneg_or_nan_nonnan (f : spec_float) :
  nonneg_or_nan f -> nonnan f -> nonneg f.
Proof. destruct f; simpl; auto. Qed.

(** *** The operations on classes of values *)

Lemma SFadd_nonnan (a b : spec_float) :
  nonnan a -> finite b -> nonnan (SFadd prec emax a b).
Proof.
  destruct a as [sa|sa| |sa ma ea], b as [sb|sb| |sb mb eb];
    simpl; try tauto; intros _ _.
  - destruct sa, sb; exact I.
  - apply binary_normalize_nonnan.
Qed.

Lemma SFadd_nonneg (a b : spec_float) :
  nonneg a -> nonneg b -> nonneg (SFadd prec emax a b).
Proof.
  destruct a as [sa|sa| |sa ma ea], b as [sb|sb| |sb mb eb];
    simpl; try tauto; intros Ha Hb; subst; simpl; auto.
  - destruct sa, sb; exact I.
  - apply signed_nonneg, binary_round_signed.
Qed.

Lemma SFadd_nonneg_or_nan (a b : spec_float) :
  nonneg_or_nan a -> nonneg_or_nan b -> nonneg_or_nan (SFadd prec emax a b).
Proof.
  intros Ha Hb.
  destruct a as [sa|sa| |sa ma ea]; [| |exact I|];
    (destruct b as [sb|sb| |sb mb eb]; [| |exact I|]);
    apply nonneg_nonneg_or_nan, SFadd_nonneg; assumption.
Qed.

Lemma SFsub_nonnan (a b : spec_float) :
  finite a -> nonnan b -> nonnan (SFsub prec emax a b).
Proof.
  destruct a as [sa|sa| |sa ma ea], b as [sb|sb| |sb mb eb];
    simpl; try tauto; intros _ _.
  - destruct sa, sb; exact I.
  - apply binary_normalize_nonnan.
Qed.

Lemma SFmul_self_nonneg_or_nan (a : spec_float) :
  nonneg_or_nan (SFmul prec emax a a).
Proof.
  destruct a as [sa|sa| |sa ma ea]; simpl; [exact I|destruct sa; reflexivity|exact I|].
  assert (H : signed false
                (binary_round_aux prec emax (xorb sa sa) (Zpos (ma * ma)) (ea + ea) loc_Exact)).
  { rewrite Bool.xorb_nilpotent. apply binary_round_aux_signed. lia. }
  destruct (binary_round_aux prec emax _ _ _ _); simpl in *; auto.
Qed.

Lemma SFmul_self_nonneg (a : spec_float) :
  nonnan a -> nonneg (SFmul prec emax a a).
Proof.
  intros Ha. apply nonneg_or_nan_nonnan; [apply SFmul_self_nonneg_or_nan|].
  destruct a as [sa|sa| |sa ma ea]; simpl in *; auto.
  eapply signed_nonnan, binary_round_aux_signed. lia.
Qed.

Lemma SFdiv_core_binary_nonneg (m1 m2 : positive) (e1 e2 : Z) :
  0 <= fst (fst (SFdiv_core_binary prec emax (Zpos m1) e1 (Zpos m2) e2)).
Proof.
  unfold SFdiv_core_binary.
  set (s := e1 - e2 - _). set (m' := match s with Zpos _ => _ | Z0 => _ | Zneg _ => _ end).
  assert (Hm' : 0 <= m').
  { subst m'. destruct s; try lia. apply Z.shiftl_nonneg. lia. }
  pose proof (Z_div_mod m' (Zpos m2) eq_refl) as H.
  destruct (Z.div_eucl m' (Zpos m2)) as [q r]; simpl.
  destruct H as [H1 H2]. nia.
Qed.

Lemma SFdiv_signed (sx sy : bool) (mx my : positive) (ex ey : Z) :
  signed (xorb sx sy)
         (SFdiv prec emax (S754_finite sx mx ex) (S754_finite sy my ey)).
Proof.
  simpl. pose proof (SFdiv_core_binary_nonneg mx my ex ey) as H.
  destruct (SFdiv_core_binary prec emax (Zpos mx) ex (Zpos my) ey) as [[mz ez] lz].
  apply binary_round_aux_signed, H.
Qed.

Lemma SFdiv_nonnan (a b : spec_float) :
  nonnan a -> pos_finite b -> nonnan (SFdiv prec emax a b).
Proof.
  destruct a as [sa|sa| |sa ma ea], b as [sb|sb| |[] mb eb];
    try (simpl; tauto); intros _ _; try exact I.
  eapply signed_nonnan, SFdiv_signed.
Qed.

Lemma SFdiv_nonneg (a b : spec_float) :
  nonneg a -> pos_finite b -> nonneg (SFdiv prec emax a b).
Proof.
  destruct a as [sa|sa| |sa ma ea], b as [sb|sb| |[] mb eb];
    try (simpl; tauto); intros Ha _; simpl in Ha; subst; try exact I; try reflexivity.
  apply signed_nonneg, (SFdiv_signed false false).
Qed.

Lemma SFdiv_nonneg_or_nan (a b : spec_float) :
  nonneg_or_nan a -> pos_finite b -> nonneg_or_nan (SFdiv prec emax a b).
Proof.
  intros Ha Hb. destruct a as [sa|sa| |sa ma ea]; [| |exact I|];
    apply nonneg_nonneg_or_nan, SFdiv_nonneg; assumption.
Qed.

Lemma SFsqrt_nonneg (a : spec_float) : nonneg a -> nonneg (SFsqrt prec emax a).
Proof.
  destruct a as [sa|sa| |sa ma ea]; simpl; try tauto; intros ->; [reflexivity|].
  unfold SFsqrt_core_binary.
  set (m' := match _ - _ with Zpos _ => _ | Z0 => _ | Zneg _ => _ end).
  pose proof (Z.sqrtrem_spec m') as H.
  destruct (Z.sqrtrem m') as [q r].
  assert (Hq : 0 <= q).
  { destruct (Z.le_gt_cases 0 m') as [Hm|Hm]; [specialize (H Hm); lia|].
    subst m'. destruct (_ - _) in Hm; try lia.
    pose proof (Z.shiftl_nonneg (Zpos ma) (Zpos p)); lia. }
  apply signed_nonneg, binary_round_aux_signed, Hq.
Qed.

Lemma SFround2_nonneg (a : spec_float) : nonneg a -> nonneg (SFround2 a).
Proof.
  destruct a as [sa|sa| |sa ma ea]; simpl; try tauto; intros ->.
  destruct (hundredths ma ea); try exact I.
  apply signed_nonneg, (SFdiv_signed false false).
Qed.

(** *** The order of binary64 values

    [SFcompare] orders values by sign, then exponent, then mantissa; the
    facts below hold for every triple, canonical or not. *)

Ltac order_cases :=
  change (Pos.compare_cont Eq) with Pos.compare;
  repeat match goal with
    | |- context [(?x ?= ?y)%Z] => destruct (Z.compare_spec x y)
    | |- context [(?x ?= ?y)%positive] => destruct (Pos.compare_spec x y)
    end;
  simpl; intros; try reflexivity; try discriminate; try lia.

Lemma SFltb_asym (a b : spec_float) : SFltb a b = true -> SFltb b a = false.
Proof.
  unfold SFltb.
  destruct a as [sa|sa| |sa ma ea], b as [sb|sb| |sb mb eb]; simpl;
    try reflexivity; try discriminate;
    try (destruct sa; simpl; congruence); try (destruct sb; simpl; congruence);
    destruct sa, sb; simpl; order_cases.
Qed.

Lemma SFltb_negtrans (a b c : spec_float) :
  nonnan a -> nonnan b -> nonnan c ->
  SFltb a b = false -> SFltb b c = false -> SFltb a c = false.
Proof.
  unfold SFltb.
  destruct a as [sa|sa| |sa ma ea], b as [sb|sb| |sb mb eb], c as [sc|sc| |sc mc ec];
    simpl; try tauto; intros _ _ _;
    try reflexivity; try discriminate;
    try (destruct sa; simpl; try reflexivity; try discriminate);
    try (destruct sb; simpl; try reflexivity; try discriminate);
    try (destruct sc; simpl; try reflexivity; try discriminate);
    order_cases.
Qed.

Lemma SFltb_false_SFleb (a b : spec_float) :
  nonnan a -> nonnan b -> SFltb b a = false -> SFleb a b = true.
Proof.
  unfold SFltb, SFleb.
  destruct a as [sa|sa| |sa ma ea], b as [sb|sb| |sb mb eb];
    simpl; try tauto; intros _ _;
    try reflexivity; try discriminate;
    try (destruct sa; simpl; try reflexivity; try discriminate);
    try (destruct sb; simpl; try reflexivity; try discriminate);
    order_cases.
Qed.

Lemma SFltb_false_SFeqb (a b : spec_float) :
  nonnan a -> nonnan b ->
  SFltb a b = false -> SFltb b a = false -> SFeqb a b = true.
Proof.
  unfold SFltb, SFeqb.
  destruct a as [sa|sa| |sa ma ea], b as [sb|sb| |sb mb eb];
    simpl; try tauto; intros _ _;
    try reflexivity; try discriminate;
    try (destruct sa; simpl; try reflexivity; try discriminate);
    try (destruct sb; simpl; try reflexivity; try discriminate);
    order_cases.
Qed.

Lemma SFleb_trans (a b c : spec_float) :
  SFleb a b = true -> SFleb b c = true -> SFleb a c = true.
Proof.
  unfold SFleb.
  destruct a as [sa|sa| |sa ma ea], b as [sb|sb| |sb mb eb], c as [sc|sc| |sc mc ec];
    simpl; try reflexivity; try discriminate;
    try (destruct sa; simpl; try reflexivity; try discriminate);
    try (destruct sb; simpl; try reflexivity; try discriminate);
    try (destruct sc; simpl; try reflexivity; try discriminate);
    order_cases.
Qed.

Lemma SFleb_SFltb_false (a b : spec_float) :
  SFleb a b = true -> SFltb b a = false.
Proof.
  unfold SFltb, SFleb.
  destruct a as [sa|sa| |sa ma ea], b as [sb|sb| |sb mb eb];
    simpl; try reflexivity; try discriminate;
    try (destruct sa; simpl; try reflexivity; try discriminate);
    try (destruct sb; simpl; try reflexivity; try discriminate);
    order_cases.
Qed.

Lemma SFleb_zero_nonneg (f : spec_float) :
  SFleb (S754_zero false) f = true <-> nonneg f.
Proof.
  destruct f as [s|[]| |[] m e]; simpl; unfold SFleb; simpl; split;
    intros; try reflexivity; try discriminate; try tauto.
Qed.

Lemma SFltb_zero_nonneg_or_nan (f : spec_float) :
  nonneg_or_nan f -> SFltb f (S754_zero false) = false.
Proof.
  destruct f as [s|[]| |[] m e]; simpl; unfold SFltb; simpl;
    intros; try reflexivity; try discriminate.
Qed.

(** *** Primitive floats *)

Local Open Scope float_scope.

Lemma isnan_false (x : float) : isnan x = false <-> nonnan (Prim2SF x).
Proof.
  unfold isnan. destruct (Prim2SF x); simpl; split; intros H;
    try reflexivity; try exact I; try discriminate; try contradiction.
Qed.

Lemma isfinite_true (x : float) : isfinite x = true <-> finite (Prim2SF x).
Proof.
  unfold isfinite. destruct (Prim2SF x); simpl; split; intros H;
    try reflexivity; try exact I; try discriminate; try contradiction.
Qed.

Lemma finite_nonnan (f : spec_float) : finite f -> nonnan f.
Proof. destruct f; simpl; auto. Qed.

Lemma isfinite_isnan (x : float) : isfinite x = true -> isnan x = false.
Proof. rewrite isfinite_true, isnan_false. apply finite_nonnan. Qed.

Lemma ltb_asym (x y : float) : (x <? y) = true -> (y <? x) = false.
Proof. rewrite !ltb_spec. apply SFltb_asym. Qed.

Lemma ltb_negtrans (x y z : float) :
  isnan x = false -> isnan y = false -> isnan z = false ->
  (x <? y) = false -> (y <? z) = false -> (x <? z) = false.
Proof. rewrite !ltb_spec, !isnan_false. apply SFltb_negtrans. Qed.

Lemma ltb_false_leb (x y : float) :
  isnan x = false -> isnan y = false -> (y <? x) = false -> (x <=? y) = true.
Proof. rewrite !ltb_spec, leb_spec, !isnan_false. apply SFltb_false_SFleb. Qed.

Lemma ltb_false_eqb (x y : float) :
  isnan x = false -> isnan y = false ->
  (x <? y) = false -> (y <? x) = false -> (x =? y) = true.
Proof. rewrite !ltb_spec, FloatAxioms.eqb_spec, !isnan_false. apply SFltb_false_SFeqb. Qed.

Lemma leb_trans (x y z : float) :
  (x <=? y) = true -> (y <=? z) = true -> (x <=? z) = true.
Proof. rewrite !leb_spec. apply SFleb_trans. Qed.

Lemma leb_ltb_false (x y : float) : (x <=? y) = true -> (y <? x) = false.
Proof. rewrite leb_spec, ltb_spec. apply SFleb_SFltb_false. Qed.

Lemma leb_zero_nonneg (x : float) : (0 <=? x) = true <-> nonneg (Prim2SF x).
Proof. rewrite leb_spec. apply SFleb_zero_nonneg. Qed.

Lemma ltb_zero_nonneg_or_nan (x : float) :
  nonneg_or_nan (Prim2SF x) -> (x <? 0) = false.
Proof. rewrite ltb_spec. apply SFltb_zero_nonneg_or_nan. Qed.

(** *** [sum] *)

Lemma fold_add_nonnan (l : list float) (acc : float) :
  nonnan (Prim2SF acc) -> Forall (fun x => isfinite x = true) l ->
  nonnan (Prim2SF (fold_left PrimFloat.add l acc)).
Proof.
  revert acc; induction l as [|x l IH]; intros acc Hacc Hl; simpl; [assumption|].
  inversion_clear Hl as [|? ? Hx Hl']. apply IH; [|assumption].
  rewrite add_spec. apply SFadd_nonnan; [assumption|]. now apply isfinite_true.
Qed.

Lemma py_sum_nonnan (l : list float) :
  Forall (fun x => isfinite x = true) l -> nonnan (Prim2SF (py_sum l)).
Proof. apply fold_add_nonnan. exact I. Qed.

Lemma fold_add_nonneg (l : list float) (acc : float) :
  nonneg (Prim2SF acc) -> Forall (fun x => nonneg (Prim2SF x)) l ->
  nonneg (Prim2SF (fold_left PrimFloat.add l acc)).
Proof.
  revert acc; induction l as [|x l IH]; intros acc Hacc Hl; simpl; [assumption|].
  inversion_clear Hl as [|? ? Hx Hl']. apply IH; [|assumption].
  rewrite add_spec. now apply SFadd_nonneg.
Qed.

Lemma py_sum_nonneg (l : list float) :
  Forall (fun x => nonneg (Prim2SF x)) l -> nonneg (Prim2SF (py_sum l)).
Proof. apply fold_add_nonneg. exact I. Qed.

Lemma fold_add_nonneg_or_nan (l : list float) (acc : float) :
  nonneg_or_nan (Prim2SF acc) -> Forall (fun x => nonneg_or_nan (Prim2SF x)) l ->
  nonneg_or_nan (Prim2SF (fold_left PrimFloat.add l acc)).
Proof.
  revert acc; induction l as [|x l IH]; intros acc Hacc Hl; simpl; [assumption|].
  inversion_clear Hl as [|? ? Hx Hl']. apply IH; [|assumption].
  rewrite add_spec. now apply SFadd_nonneg_or_nan.
Qed.

Lemma py_sum_nonneg_or_nan (l : list float) :
  Forall (fun x => nonneg_or_nan (Prim2SF x)) l -> nonneg_or_nan (Prim2SF (py_sum l)).
Proof. apply fold_add_nonneg_or_nan. exact I. Qed.

(** *** [x ** 2] and [math.sqrt] *)

Lemma square_nonneg (x : float) : isnan x = false -> nonneg (Prim2SF (x * x)).
Proof. rewrite mul_spec, isnan_false. apply SFmul_self_nonneg. Qed.

Lemma math_sqrt_nonneg_or_nan (x : float) :
  nonneg_or_nan (Prim2SF x) -> math_sqrt x = Returned (sqrt x).
Proof.
  intros H. unfold math_sqrt. now rewrite ltb_zero_nonneg_or_nan.
Qed.

Lemma sqrt_nonneg (x : float) : nonneg (Prim2SF x) -> nonneg (Prim2SF (sqrt x)).
Proof. rewrite sqrt_spec. apply SFsqrt_nonneg. Qed.

(** *** [float(n)] and division by the count *)

Local Open Scope Z_scope.

Lemma digits2_pos_size (p : positive) : digits2_pos p = Pos.size p.
Proof. induction p; simpl; congruence. Qed.

Lemma digits2_pos_iter_xO (p k : positive) :
  digits2_pos (Pos.iter xO p k) = (digits2_pos p + k)%positive.
Proof.
  induction k as [|k IH] using Pos.peano_ind.
  - simpl. lia.
  - rewrite Pos.iter_succ. simpl. rewrite IH. lia.
Qed.

Lemma shr_m_shr_1 (mrs : shr_record) :
  0 <= shr_m mrs -> shr_m (shr_1 mrs) = shr_m mrs / 2.
Proof.
  destruct mrs as [m r s]; simpl. destruct m as [|p|p]; [reflexivity| |lia].
  intros _. destruct p as [p|p|]; simpl shr_m.
  - rewrite Pos2Z.inj_xI. apply Z.div_unique with 1; lia.
  - rewrite Pos2Z.inj_xO. apply Z.div_unique with 0; lia.
  - reflexivity.
Qed.

Lemma shr_m_iter_pos (k : positive) (mrs : shr_record) :
  0 <= shr_m mrs ->
  shr_m (SpecFloat.iter_pos shr_1 k mrs) = shr_m mrs / 2 ^ Zpos k.
Proof.
  revert mrs; induction k as [k IH|k IH|]; intros mrs H; simpl SpecFloat.iter_pos.
  - rewrite IH by (apply iter_pos_shr_1_nonneg, shr_1_nonneg, H).
    rewrite IH by (apply shr_1_nonneg, H).
    rewrite shr_m_shr_1 by exact H.
    rewrite !Z.div_div by (try apply Z.pow_pos_nonneg; lia).
    f_equal. rewrite Pos2Z.inj_xI, <- !Z.pow_add_r, <- (Z.pow_1_r 2) at 1 by lia.
    rewrite <- !Z.pow_add_r by lia. f_equal. lia.
  - rewrite IH by (apply iter_pos_shr_1_nonneg, H).
    rewrite IH by exact H.
    rewrite !Z.div_div by (try apply Z.pow_pos_nonneg; lia).
    f_equal. rewrite Pos2Z.inj_xO, <- !Z.pow_add_r by lia. f_equal. lia.
  - rewrite shr_m_shr_1 by exact H. reflexivity.
Qed.

Lemma digits2_pos_lower (p : positive) : 2 ^ (Zpos (digits2_pos p) - 1) <= Zpos p.
Proof.
  rewrite digits2_pos_size.
  pose proof (Pos.size_le p) as Hle. apply Pos2Z.pos_le_pos in Hle.
  rewrite Pos2Z.inj_pow in Hle. change (Zpos p~0) with (2 * Zpos p) in Hle.
  replace (Zpos (Pos.size p)) with (Z.succ (Zpos (Pos.size p) - 1)) in Hle by lia.
  rewrite Z.pow_succ_r in Hle by lia. lia.
Qed.

Lemma digits2_pos_upper (p : positive) : Zpos p < 2 ^ Zpos (digits2_pos p).
Proof.
  rewrite digits2_pos_size.
  pose proof (Pos.size_gt p) as Hgt. apply Pos2Z.pos_lt_pos in Hgt.
  now rewrite Pos2Z.inj_pow in Hgt.
Qed.

Lemma digits2_pos_unique (p : positive) (d : Z) :
  2 ^ (d - 1) <= Zpos p < 2 ^ d -> Zpos (digits2_pos p) = d.
Proof.
  intros [Hlo Hhi].
  pose proof (digits2_pos_lower p) as H1. pose proof (digits2_pos_upper p) as H2.
  set (s := Zpos (digits2_pos p)) in *. assert (0 < s) by (subst s; lia).
  destruct (Z.lt_trichotomy s d) as [Hlt|[Heq|Hgt]]; [|assumption|].
  - assert (2 ^ s <= 2 ^ (d - 1)) by (apply Z.pow_le_mono_r; lia). lia.
  - assert (0 <= d).
    { destruct (Z.le_gt_cases 0 d); [assumption|].
      rewrite (Z.pow_neg_r 2 d) in Hhi by lia. lia. }
    assert (2 ^ d <= 2 ^ (s - 1)) by (apply Z.pow_le_mono_r; lia). lia.
Qed.

(** A mantissa of exactly [prec] digits with an exponent in range is
    left as it is. *)
Lemma binary_round_aux_canonical (s : bool) (m : positive) (e : Z) :
  Zpos (digits2_pos m) = 53 -> -1074 <= e <= 971 ->
  binary_round_aux prec emax s (Zpos m) e loc_Exact = S754_finite s m e.
Proof.
  intros Hd He.
  assert (Hshr : shr_fexp prec emax (Zpos m) e loc_Exact
                 = ({| shr_m := Zpos m; shr_r := false; shr_s := false |}, e)).
  { unfold shr_fexp, fexp, SpecFloat.emin, Zdigits2. rewrite Hd.
    replace (Z.max (53 + e - prec) (3 - emax - prec) - e) with 0
      by (unfold prec, emax; lia).
    reflexivity. }
  unfold binary_round_aux. rewrite Hshr. simpl. rewrite Hshr. simpl.
  replace (e <=? emax - prec) with true; [reflexivity|].
  symmetry. apply Z.leb_le. unfold prec, emax. lia.
Qed.

Lemma round_nearest_even_bounds (m : Z) (l : location) :
  m <= round_nearest_even m l <= m + 1.
Proof.
  destruct l as [|[]]; simpl; try lia. destruct (Z.even m); lia.
Qed.

Lemma binary_round_aux_wide (p k : positive) :
  Zpos (digits2_pos p) = 53 + Zpos k -> Zpos k <= 10 ->
  pos_finite (binary_round_aux prec emax false (Zpos p) 0 loc_Exact).
Proof.
  intros Hd Hk.
  pose proof (digits2_pos_lower p) as Hlo. pose proof (digits2_pos_upper p) as Hhi.
  rewrite Hd in Hlo, Hhi.
  replace (53 + Zpos k - 1) with (52 + Zpos k) in Hlo by lia.
  rewrite Z.pow_add_r in Hlo, Hhi by lia.
  assert (Hpk : 0 < 2 ^ Zpos k) by (apply Z.pow_pos_nonneg; lia).
  unfold binary_round_aux.
  assert (Hshr : shr_fexp prec emax (Zpos p) 0 loc_Exact
                 = (SpecFloat.iter_pos shr_1 k
                      {| shr_m := Zpos p; shr_r := false; shr_s := false |}, Zpos k)).
  { unfold shr_fexp, fexp, SpecFloat.emin, Zdigits2. rewrite Hd.
    replace (Z.max (53 + Zpos k + 0 - prec) (3 - emax - prec) - 0) with (Zpos k)
      by (unfold prec, emax; lia).
    reflexivity. }
  rewrite Hshr. clear Hshr.
  set (mrs := SpecFloat.iter_pos shr_1 k _).
  assert (Hm1 : shr_m mrs = Zpos p / 2 ^ Zpos k)
    by (apply shr_m_iter_pos; simpl; lia).
  assert (Hb1 : 2 ^ 52 <= shr_m mrs < 2 ^ 53).
  { rewrite Hm1. split.
    - apply Z.div_le_lower_bound; lia.
    - apply Z.div_lt_upper_bound; lia. }
  pose proof (round_nearest_even_bounds (shr_m mrs) (loc_of_shr_record mrs)) as Hb2.
  set (m2 := round_nearest_even (shr_m mrs) (loc_of_shr_record mrs)) in *.
  assert (H52 : 0 < 2 ^ 52) by reflexivity.
  destruct m2 as [|q|q] eqn:Em2; [lia| |lia].
  destruct (Z.eq_dec (Zpos q) (2 ^ 53)) as [Eq|Nq].
  - assert (Hdq : Zpos (digits2_pos q) = 54)
      by (apply digits2_pos_unique; rewrite Eq; split; [reflexivity|reflexivity]).
    assert (Hshr : shr_fexp prec emax (Zpos q) (Zpos k) loc_Exact
                   = (shr_1 {| shr_m := Zpos q; shr_r := false; shr_s := false |},
                      Zpos k + 1)).
    { unfold shr_fexp, fexp, SpecFloat.emin, Zdigits2. rewrite Hdq.
      replace (Z.max (54 + Zpos k - prec) (3 - emax - prec) - Zpos k) with 1
        by (unfold prec, emax; lia).
      reflexivity. }
    rewrite Hshr.
    assert (Hm3 : shr_m (shr_1 {| shr_m := Zpos q; shr_r := false; shr_s := false |})
                  = 2 ^ 52).
    { rewrite shr_m_shr_1 by (simpl; lia). simpl shr_m. rewrite Eq. reflexivity. }
    destruct (shr_m (shr_1 _)) as [|q'|q']; try discriminate.
    replace (Zpos k + 1 <=? emax - prec) with true; [exact I|].
    symmetry. apply Z.leb_le. unfold prec, emax. lia.
  - assert (Hdq : Zpos (digits2_pos q) = 53) by (apply digits2_pos_unique; lia).
    assert (Hshr : shr_fexp prec emax (Zpos q) (Zpos k) loc_Exact
                   = ({| shr_m := Zpos q; shr_r := false; shr_s := false |}, Zpos k)).
    { unfold shr_fexp, fexp, SpecFloat.emin, Zdigits2. rewrite Hdq.
      replace (Z.max (53 + Zpos k - prec) (3 - emax - prec) - Zpos k) with 0
        by (unfold prec, emax; lia).
      reflexivity. }
    rewrite Hshr. simpl.
    replace (Zpos k <=? emax - prec) with true; [exact I|].
    symmetry. apply Z.leb_le. unfold prec, emax. lia.
Qed.

(** An integer below [2^63] is rounded to a positive finite value. *)
Lemma binary_round_int (p : positive) :
  Zpos p < 2 ^ 63 -> pos_finite (binary_round prec emax false p 0).
Proof.
  intros Hp.
  pose proof (digits2_pos_lower p) as Hlo.
  assert (Hd : Zpos (digits2_pos p) <= 63).
  { destruct (Z.le_gt_cases (Zpos (digits2_pos p)) 63) as [|Hgt]; [assumption|].
    assert (2 ^ 63 <= 2 ^ (Zpos (digits2_pos p) - 1)) by (apply Z.pow_le_mono_r; lia).
    lia. }
  unfold binary_round, shl_align, fexp, SpecFloat.emin.
  replace (Z.max (Zpos (digits2_pos p) + 0 - prec) (3 - emax - prec) - 0)
    with (Zpos (digits2_pos p) - 53) by (unfold prec, emax; lia).
  destruct (Zpos (digits2_pos p) - 53) as [|k|k] eqn:Hk.
  - rewrite binary_round_aux_canonical; [exact I|lia|lia].
  - apply (binary_round_aux_wide p k); lia.
  - rewrite binary_round_aux_canonical; [exact I| |unfold prec, emax; lia].
    rewrite digits2_pos_iter_xO. lia.
Qed.

Lemma float_of_int_pos_finite (n : nat) :
  (0 < n)%nat -> Z.of_nat n < 2 ^ 63 -> pos_finite (Prim2SF (float_of_int n)).
Proof.
  intros Hn Hb. unfold float_of_int.
  rewrite of_uint63_spec, Uint63.of_Z_spec.
  rewrite Z.mod_small by (split; [lia|exact Hb]).
  destruct (Z.of_nat n) as [|p|p] eqn:Hp; [lia| |lia].
  simpl. apply binary_round_int. assumption.
Qed.

Local Open Scope float_scope.

Lemma sub_nonnan (x y : float) :
  isfinite x = true -> isnan y = false -> isnan (x - y) = false.
Proof. rewrite isfinite_true, !isnan_false, sub_spec. apply SFsub_nonnan. Qed.

Lemma div_nonnan (x y : float) :
  isnan x = false -> pos_finite (Prim2SF y) -> isnan (x / y) = false.
Proof. rewrite !isnan_false, div_spec. apply SFdiv_nonnan. Qed.

Lemma div_nonneg (x y : float) :
  nonneg (Prim2SF x) -> pos_finite (Prim2SF y) -> nonneg (Prim2SF (x / y)).
Proof. rewrite div_spec. apply SFdiv_nonneg. Qed.

Lemma div_nonneg_or_nan (x y : float) :
  nonneg_or_nan (Prim2SF x) -> pos_finite (Prim2SF y) ->
  nonneg_or_nan (Prim2SF (x / y)).
Proof. rewrite div_spec. apply SFdiv_nonneg_or_nan. Qed.

(** *** [round(x, 2)] *)

Lemma SF2Prim_nonneg (f : spec_float) : nonneg f -> nonneg (Prim2SF (SF2Prim f)).
Proof.
  destruct f as [[]|s| |s m e]; simpl; try tauto; intros Hs; try exact I.
  - subst s. reflexivity.
  - subst s. rewrite Z_ldexp_spec, of_uint63_spec.
    pose proof (Uint63.to_Z_bounded (Uint63.of_Z (Zpos m))) as Hb.
    pose proof (binary_normalize_nonneg
                  (Uint63.to_Z (Uint63.of_Z (Zpos m))) 0 false (proj1 Hb)) as Hn.
    destruct (binary_normalize prec emax _ 0 false) as [s'|s'| |s' m' e'];
      simpl in *; auto.
    subst s'. apply signed_nonneg, binary_round_signed.
Qed.

Lemma py_round2_nonneg (x : float) :
  nonneg (Prim2SF x) -> nonneg (Prim2SF (py_round2 x)).
Proof. intros H. apply SF2Prim_nonneg, SFround2_nonneg, H. Qed.

(** *** Exact values and the order

    On canonical finite values the order of [SFcompare] is the order of
    the exact values. *)

Local Open Scope Z_scope.

Lemma canonical_mantissa_bounds (m : positive) (e : Z) :
  canonical_mantissa prec emax m e = true ->
  -1074 <= e /\ Zpos m < 2 ^ 53 /\ (-1074 < e -> 2 ^ 52 <= Zpos m).
Proof.
  unfold canonical_mantissa, fexp, SpecFloat.emin. intros H. apply Z.eqb_eq in H.
  rewrite digits2_pos_size in H.
  pose proof (Pos.size_gt m) as Hgt. apply Pos2Z.pos_lt_pos in Hgt.
  pose proof (Pos.size_le m) as Hle. apply Pos2Z.pos_le_pos in Hle.
  rewrite Pos2Z.inj_pow in Hgt, Hle. change (Zpos m~0) with (2 * Zpos m) in Hle.
  set (d := Zpos (Pos.size m)) in *.
  unfold prec, emax in H.
  assert (Hd : d <= 53) by lia.
  split; [lia|]. split.
  - apply Z.lt_le_trans with (2 ^ d); [assumption|]. apply Z.pow_le_mono_r; lia.
  - intros He. assert (Ed : d = 53) by lia. rewrite Ed in Hle.
    change (2 ^ 53) with (2 * 2 ^ 52) in Hle. lia.
Qed.

Lemma valid_binary_bounds (s : bool) (m : positive) (e : Z) :
  valid_binary (S754_finite s m e) = true ->
  -1074 <= e /\ Zpos m < 2 ^ 53 /\ (-1074 < e -> 2 ^ 52 <= Zpos m).
Proof.
  simpl. unfold bounded. intros H. apply andb_true_iff in H as [H _].
  now apply canonical_mantissa_bounds.
Qed.

(** A canonical value with the smaller exponent is the smaller one. *)
Lemma magnitude_lt_of_exponent_lt (m1 m2 : positive) (e1 e2 : Z) :
  -1074 <= e1 -> Zpos m1 < 2 ^ 53 -> 2 ^ 52 <= Zpos m2 -> e1 < e2 ->
  Zpos m1 * 2 ^ (e1 + 1074) < Zpos m2 * 2 ^ (e2 + 1074).
Proof.
  intros He1 Hm1 Hm2 He.
  assert (Hp : 0 < 2 ^ (e1 + 1074)) by (apply Z.pow_pos_nonneg; lia).
  assert (Hq : 2 * 2 ^ (e1 + 1074) <= 2 ^ (e2 + 1074)).
  { rewrite <- Z.pow_succ_r by lia. apply Z.pow_le_mono_r; lia. }
  change (2 ^ 53) with (2 * 2 ^ 52) in Hm1.
  assert (H52 : 0 < 2 ^ 52) by reflexivity.
  nia.
Qed.

Lemma magnitude_pos (m : positive) (e : Z) :
  -1074 <= e -> 0 < Zpos m * 2 ^ (e + 1074).
Proof.
  intros He. apply Z.mul_pos_pos; [lia|]. apply Z.pow_pos_nonneg; lia.
Qed.

Lemma magnitude_compare (m1 m2 : positive) (e1 e2 : Z) :
  valid_binary (S754_finite false m1 e1) = true ->
  valid_binary (S754_finite false m2 e2) = true ->
  match e1 ?= e2 with
  | Eq => Pos.compare_cont Eq m1 m2
  | Lt => Lt
  | Gt => Gt
  end = (Zpos m1 * 2 ^ (e1 + 1074) ?= Zpos m2 * 2 ^ (e2 + 1074)).
Proof.
  intros H1 H2.
  apply valid_binary_bounds in H1 as (He1 & Hm1 & Hn1).
  apply valid_binary_bounds in H2 as (He2 & Hm2 & Hn2).
  destruct (Z.compare_spec e1 e2) as [->|Hlt|Hgt].
  - assert (Hp : 0 < 2 ^ (e2 + 1074)) by (apply Z.pow_pos_nonneg; lia).
    change (Pos.compare_cont Eq m1 m2) with (Pos.compare m1 m2).
    destruct (Pos.compare_spec m1 m2) as [->|Hm|Hm]; symmetry.
    + apply Z.compare_eq_iff. reflexivity.
    + apply Z.compare_lt_iff. nia.
    + apply Z.compare_gt_iff. nia.
  - symmetry. apply Z.compare_lt_iff.
    apply magnitude_lt_of_exponent_lt; auto. apply Hn2; lia.
  - symmetry. apply Z.compare_gt_iff.
    apply magnitude_lt_of_exponent_lt; auto. apply Hn1; lia.
Qed.

Lemma SFcompare_scaled (f1 f2 : spec_float) :
  finite f1 -> finite f2 ->
  valid_binary f1 = true -> valid_binary f2 = true ->
  SFcompare f1 f2 = Some (SFscaled f1 ?= SFscaled f2).
Proof.
  destruct f1 as [s1|s1| |s1 m1 e1], f2 as [s2|s2| |s2 m2 e2];
    try (simpl; tauto); intros _ _ H1 H2.
  - pose proof (magnitude_pos m2 e2 (proj1 (valid_binary_bounds _ _ _ H2))) as Hp.
    unfold SFcompare, SFscaled. f_equal. symmetry.
    destruct s2; cbv [cond_Zopp]; [apply Z.compare_gt_iff|apply Z.compare_lt_iff]; lia.
  - pose proof (magnitude_pos m1 e1 (proj1 (valid_binary_bounds _ _ _ H1))) as Hp.
    unfold SFcompare, SFscaled. f_equal. symmetry.
    destruct s1; cbv [cond_Zopp]; [apply Z.compare_lt_iff|apply Z.compare_gt_iff]; lia.
  - pose proof (magnitude_pos m1 e1 (proj1 (valid_binary_bounds _ _ _ H1))) as Hp1.
    pose proof (magnitude_pos m2 e2 (proj1 (valid_binary_bounds _ _ _ H2))) as Hp2.
    pose proof (magnitude_compare m1 m2 e1 e2 H1 H2) as Hc.
    unfold SFcompare, SFscaled. f_equal.
    destruct s1, s2; unfold cond_Zopp.
    + rewrite Z.compare_opp, (Z.compare_antisym (Zpos m1 * _)), <- Hc.
      destruct (e1 ?= e2); reflexivity.
    + symmetry. apply Z.compare_lt_iff. lia.
    + symmetry. apply Z.compare_gt_iff. lia.
    + exact Hc.
Qed.

Local Open Scope float_scope.

Lemma compare_scaled (x y : float) :
  isfinite x = true -> isfinite y = true ->
  SFcompare (Prim2SF x) (Prim2SF y) = Some (scaled x ?= scaled y)%Z.
Proof.
  intros Hx Hy. apply SFcompare_scaled;
    auto using Prim2SF_valid; now apply isfinite_true.
Qed.

Lemma leb_scaled (x y : float) :
  isfinite x = true -> isfinite y = true ->
  (x <=? y) = (scaled x <=? scaled y)%Z.
Proof.
  intros Hx Hy. rewrite leb_spec. unfold SFleb, Z.leb.
  rewrite (compare_scaled x y Hx Hy). destruct (_ ?= _)%Z; reflexivity.
Qed.

Lemma ltb_scaled (x y : float) :
  isfinite x = true -> isfinite y = true ->
  (x <? y) = (scaled x <? scaled y)%Z.
Proof.
  intros Hx Hy. rewrite ltb_spec. unfold SFltb, Z.ltb.
  rewrite (compare_scaled x y Hx Hy). destruct (_ ?= _)%Z; reflexivity.
Qed.

(** *** [max] and [min] of finite values *)

Lemma fold_max_spec (l : list float) (acc : float) :
  isfinite acc = true -> Forall (fun x => isfinite x = true) l ->
  let M := fold_left (fun m y => if m <? y then y else m) l acc in
  isfinite M = true /\ (scaled acc <= scaled M)%Z /\
  Forall (fun y => (scaled y <= scaled M)%Z) l.
Proof.
  revert acc; induction l as [|y l IH]; intros acc Hacc Hl; simpl.
  - split; [assumption|]. split; [lia|constructor].
  - inversion_clear Hl as [|? ? Hy Hl'].
    pose proof (ltb_scaled acc y Hacc Hy) as Hlt.
    destruct (acc <? y) eqn:E; symmetry in Hlt.
    + apply Z.ltb_lt in Hlt.
      destruct (IH y Hy Hl') as (HM & Hle & Hall).
      split; [assumption|]. split; [lia|]. constructor; assumption.
    + apply Z.ltb_ge in Hlt.
      destruct (IH acc Hacc Hl') as (HM & Hle & Hall).
      split; [assumption|]. split; [lia|]. constructor; [lia|assumption].
Qed.

Lemma fold_min_spec (l : list float) (acc : float) :
  isfinite acc = true -> Forall (fun x => isfinite x = true) l ->
  let M := fold_left (fun m y => if y <? m then y else m) l acc in
  isfinite M = true /\ (scaled M <= scaled acc)%Z /\
  Forall (fun y => (scaled M <= scaled y)%Z) l.
Proof.
  revert acc; induction l as [|y l IH]; intros acc Hacc Hl; simpl.
  - split; [assumption|]. split; [lia|constructor].
  - inversion_clear Hl as [|? ? Hy Hl'].
    pose proof (ltb_scaled y acc Hy Hacc) as Hlt.
    destruct (y <? acc) eqn:E; symmetry in Hlt.
    + apply Z.ltb_lt in Hlt.
      destruct (IH y Hy Hl') as (HM & Hle & Hall).
      split; [assumption|]. split; [lia|]. constructor; assumption.
    + apply Z.ltb_ge in Hlt.
      destruct (IH acc Hacc Hl') as (HM & Hle & Hall).
      split; [assumption|]. split; [lia|]. constructor; [lia|assumption].
Qed.

Lemma py_max_spec (l : list float) :
  l <> [] -> Forall (fun x => isfinite x = true) l ->
  exists hi, py_max l = Returned hi /\ isfinite hi = true /\
             Forall (fun y => (scaled y <= scaled hi)%Z) l.
Proof.
  intros Hne Hl. destruct l as [|x l]; [congruence|].
  inversion_clear Hl as [|? ? Hx Hl'].
  destruct (fold_max_spec l x Hx Hl') as (HM & Hle & Hall).
  eexists. split; [reflexivity|]. split; [assumption|]. constructor; assumption.
Qed.

Lemma py_min_spec (l : list float) :
  l <> [] -> Forall (fun x => isfinite x = true) l ->
  exists lo, py_min l = Returned lo /\ isfinite lo = true /\
             Forall (fun y => (scaled lo <= scaled y)%Z) l.
Proof.
  intros Hne Hl. destruct l as [|x l]; [congruence|].
  inversion_clear Hl as [|? ? Hx Hl'].
  destruct (fold_min_spec l x Hx Hl') as (HM & Hle & Hall).
  eexists. split; [reflexivity|]. split; [assumption|]. constructor; assumption.
Qed.

Lemma sum_scaled_le (l : list float) (b : Z) :
  Forall (fun y => (scaled y <= b)%Z) l ->
  (fold_right Z.add 0 (map scaled l) <= Z.of_nat (length l) * b)%Z.
Proof.
  induction 1 as [|y l Hy Hl IH]; simpl length; simpl fold_right; [lia|].
  rewrite Nat2Z.inj_succ. lia.
Qed.

Lemma sum_scaled_ge (l : list float) (b : Z) :
  Forall (fun y => (b <= scaled y)%Z) l ->
  (Z.of_nat (length l) * b <= fold_right Z.add 0 (map scaled l))%Z.
Proof.
  induction 1 as [|y l Hy Hl IH]; simpl length; simpl fold_right; [lia|].
  rewrite Nat2Z.inj_succ. lia.
Qed.

(** *** Reflexivity of the order, and subtraction of a finite number *)

Lemma SFleb_refl (f : spec_float) : nonnan f -> SFleb f f = true.
Proof.
  unfold SFleb, SFcompare. destruct f as [[]|[]| |[] m e]; simpl;
    intros H; try reflexivity; try contradiction;
    rewrite Z.compare_refl; change (Pos.compare_cont Eq) with Pos.compare;
    rewrite Pos.compare_refl; reflexivity.
Qed.

Lemma SFeqb_refl (f : spec_float) : nonnan f -> SFeqb f f = true.
Proof.
  unfold SFeqb, SFcompare. destruct f as [[]|[]| |[] m e]; simpl;
    intros H; try reflexivity; try contradiction;
    rewrite Z.compare_refl; change (Pos.compare_cont Eq) with Pos.compare;
    rewrite Pos.compare_refl; reflexivity.
Qed.

Lemma SFsub_nonnan_l (a b : spec_float) :
  nonnan a -> finite b -> nonnan (SFsub prec emax a b).
Proof.
  destruct a as [sa|sa| |sa ma ea], b as [sb|sb| |sb mb eb]; simpl;
    intros Ha Hb; try exact I; try contradiction.
  - destruct sa, sb; exact I.
  - apply binary_normalize_nonnan.
Qed.

Lemma leb_refl (x : float) : isnan x = false -> (x <=? x) = true.
Proof. intros H. rewrite leb_spec. now apply SFleb_refl, isnan_false. Qed.

Lemma eqb_refl (x : float) : isnan x = false -> (x =? x) = true.
Proof. intros H. rewrite FloatAxioms.eqb_spec. now apply SFeqb_refl, isnan_false. Qed.

Lemma sub_nonnan_l (x y : float) :
  isnan x = false -> isfinite y = true -> isnan (x - y) = false.
Proof.
  intros Hx Hy. apply isnan_false. rewrite sub_spec.
  apply SFsub_nonnan_l; [now apply isnan_false|now apply isfinite_true].
Qed.

Lemma add_nonneg (x y : float) :
  nonneg (Prim2SF x) -> nonneg (Prim2SF y) -> nonneg (Prim2SF (x + y)).
Proof. intros Hx Hy. rewrite add_spec. now apply SFadd_nonneg. Qed.

(** *** Infinities and NaNs in a computation *)

Lemma follows_nonfinite (x f : spec_float) :
  nonfinite x -> follows x f -> nonfinite f.
Proof. destruct x, f; simpl; intros; try exact I; try contradiction; discriminate. Qed.

Lemma SFadd_follows_r (a x : spec_float) :
  nonfinite x -> follows x (SFadd prec emax a x).
Proof.
  destruct x as [|s| |]; simpl; intros H; try contradiction.
  - destruct a as [|[]| |]; destruct s; simpl; auto.
  - destruct a; reflexivity.
Qed.

Lemma SFadd_follows_l (x a y : spec_float) :
  nonfinite x -> follows x a -> follows x (SFadd prec emax a y).
Proof.
  destruct x as [|s| |]; simpl; intros H Ha; try contradiction.
  - destruct a as [|s'| |]; simpl in Ha; try contradiction; [subst s'|exact I].
    destruct y as [|[]| |]; destruct s; simpl; auto.
  - subst a. reflexivity.
Qed.

Lemma SFdiv_follows (x a b : spec_float) :
  nonfinite x -> follows x a -> signed false b -> follows x (SFdiv prec emax a b).
Proof.
  destruct x as [|s| |]; simpl; intros H Ha Hb; try contradiction.
  - destruct a as [|s'| |]; simpl in Ha; try contradiction; [subst s'|exact I].
    destruct b as [sb|sb| |sb mb eb]; simpl in Hb; try contradiction; subst sb;
      destruct s; simpl; auto.
  - subst a. reflexivity.
Qed.

Lemma SFsub_follows_nan (x b : spec_float) :
  nonfinite x -> follows x b -> SFsub prec emax x b = S754_nan.
Proof.
  destruct x as [|s| |]; simpl; intros H Hb; try contradiction.
  - destruct b as [|s'| |]; simpl in Hb; try contradiction; [subst s'|reflexivity].
    destruct s; reflexivity.
  - reflexivity.
Qed.

Lemma SFsub_nonfinite_r (a b : spec_float) :
  nonfinite b -> nonfinite (SFsub prec emax a b).
Proof.
  destruct b as [|sb| |]; simpl; intros H; try contradiction.
  - destruct a as [|[]| |]; destruct sb; exact I.
  - destruct a; exact I.
Qed.

Lemma SFsub_nonfinite_l (a b : spec_float) :
  nonfinite a -> nonfinite (SFsub prec emax a b).
Proof.
  destruct a as [|sa| |]; simpl; intros H; try contradiction.
  - destruct b as [|[]| |]; destruct sa; exact I.
  - exact I.
Qed.

Lemma isfinite_false (x : float) : isfinite x = false <-> nonfinite (Prim2SF x).
Proof.
  unfold isfinite. destruct (Prim2SF x); simpl; split; intros H;
    try reflexivity; try exact I; try discriminate; try contradiction.
Qed.

Lemma Prim2SF_nan (x : float) : Prim2SF x = S754_nan -> x = nan.
Proof. intros H. rewrite <- (SF2Prim_Prim2SF x), H. reflexivity. Qed.

Lemma binary_normalize_signed (m e : Z) :
  0 <= m -> signed false (binary_normalize prec emax m e false).
Proof.
  intros Hm. unfold binary_normalize. destruct m as [|p|p]; [reflexivity| |lia].
  apply binary_round_signed.
Qed.

Lemma float_of_int_signed (n : nat) : signed false (Prim2SF (float_of_int n)).
Proof.
  unfold float_of_int. rewrite of_uint63_spec. apply binary_normalize_signed.
  apply Uint63.to_Z_bounded.
Qed.

(** A sum that meets an infinity or a NaN stays with it. *)
Lemma fold_add_follows_acc (X : spec_float) (l : list float) (acc : float) :
  nonfinite X -> follows X (Prim2SF acc) ->
  follows X (Prim2SF (fold_left PrimFloat.add l acc)).
Proof.
  intros HX. revert acc. induction l as [|y l IH]; intros acc Hacc; [exact Hacc|].
  simpl. apply IH. rewrite add_spec. now apply SFadd_follows_l.
Qed.

Lemma fold_add_follows (x : float) (l : list float) (acc : float) :
  In x l -> nonfinite (Prim2SF x) ->
  follows (Prim2SF x) (Prim2SF (fold_left PrimFloat.add l acc)).
Proof.
  intros Hin HX. revert acc. induction l as [|y l IH]; intros acc; [destruct Hin|].
  simpl. destruct Hin as [->|Hin]; [|now apply IH].
  apply fold_add_follows_acc; [exact HX|].
  rewrite add_spec. now apply SFadd_follows_r.
Qed.

Lemma py_sum_follows (x : float) (l : list float) :
  In x l -> nonfinite (Prim2SF x) -> follows (Prim2SF x) (Prim2SF (py_sum l)).
Proof. apply fold_add_follows. Qed.

Lemma py_sum_nan (l : list float) : In nan l -> py_sum l = nan.
Proof.
  intros H. apply Prim2SF_nan.
  exact (py_sum_follows nan l H I).
Qed.

Lemma sub_nan_l (y : float) : nan - y = nan.
Proof. apply Prim2SF_nan. rewrite sub_spec. reflexivity. Qed.

Lemma div_nan_l (y : float) : nan / y = nan.
Proof. apply Prim2SF_nan. rewrite div_spec. reflexivity. Qed.

Lemma add_nan_r (x : float) : x + nan = nan.
Proof.
  apply Prim2SF_nan. rewrite add_spec.
  change (Prim2SF nan) with S754_nan. destruct (Prim2SF x); reflexivity.
Qed.

Lemma math_sqrt_nan : math_sqrt nan = Returned nan.
Proof. reflexivity. Qed.

Lemma py_round2_nan : py_round2 nan = nan.
Proof. reflexivity. Qed.

Lemma py_round2_nonfinite (x : float) : isfinite x = false -> py_round2 x = x.
Proof.
  intros H. apply isfinite_false in H. unfold py_round2.
  rewrite <- (SF2Prim_Prim2SF x) at 2.
  destruct (Prim2SF x); simpl in H; try contradiction; reflexivity.
Qed.

(** *** Division by one, and a number minus itself *)

Lemma binary_round_aux_valid (s : bool) (m : positive) (e : Z) :
  valid_binary (S754_finite s m e) = true ->
  binary_round_aux prec emax s (Zpos m) e loc_Exact = S754_finite s m e.
Proof.
  simpl. unfold bounded. intros H. apply andb_true_iff in H as [Hc Hb].
  unfold canonical_mantissa in Hc. apply Z.eqb_eq in Hc.
  assert (Hshr : shr_fexp prec emax (Zpos m) e loc_Exact
                 = ({| shr_m := Zpos m; shr_r := false; shr_s := false |}, e)).
  { unfold shr_fexp, Zdigits2. rewrite Hc, Z.sub_diag. reflexivity. }
  unfold binary_round_aux. rewrite Hshr. simpl. rewrite Hshr. simpl.
  now rewrite Hb.
Qed.

(** A mantissa of 54 bits whose last bit is zero loses that bit. *)
Lemma binary_round_aux_double (s : bool) (m : positive) (e : Z) :
  (Zpos (digits2_pos m) = 53)%Z -> (-1074 <= e <= 971)%Z ->
  binary_round_aux prec emax s (Zpos m~0) (e - 1)%Z loc_Exact = S754_finite s m e.
Proof.
  intros Hd He.
  assert (Hshr : shr_fexp prec emax (Zpos m~0) (e - 1)%Z loc_Exact
                 = ({| shr_m := Zpos m; shr_r := false; shr_s := false |}, e)).
  { unfold shr_fexp, fexp, SpecFloat.emin, Zdigits2. simpl digits2_pos.
    rewrite Pos2Z.inj_succ, Hd.
    replace (Z.max (Z.succ 53 + (e - 1) - prec) (3 - emax - prec) - (e - 1))%Z with 1%Z
      by (unfold prec, emax; lia).
    simpl. f_equal. lia. }
  assert (Hshr' : shr_fexp prec emax (Zpos m) e loc_Exact
                  = ({| shr_m := Zpos m; shr_r := false; shr_s := false |}, e)).
  { unfold shr_fexp, fexp, SpecFloat.emin, Zdigits2. rewrite Hd.
    replace (Z.max (53 + e - prec) (3 - emax - prec) - e)%Z with 0%Z
      by (unfold prec, emax; lia).
    reflexivity. }
  unfold binary_round_aux. rewrite Hshr. simpl. rewrite Hshr'. simpl.
  replace (e <=? emax - prec)%Z with true; [reflexivity|].
  symmetry. apply Z.leb_le. unfold prec, emax. lia.
Qed.

Lemma div_eucl_exact (q k : positive) :
  Z.div_eucl (Zpos q * Zpos k)%Z (Zpos k) = (Zpos q, 0%Z).
Proof.
  pose proof (Z_div_mod (Zpos q * Zpos k) (Zpos k) eq_refl) as H.
  destruct (Z.div_eucl (Zpos q * Zpos k) (Zpos k)) as [a r].
  destruct H as [H1 H2]. assert (a = Zpos q) by nia. f_equal; nia.
Qed.

Lemma SFdiv_core_binary_one (m : positive) (e : Z) :
  canonical_mantissa prec emax m e = true ->
  SFdiv_core_binary prec emax (Zpos m) e (Zpos 4503599627370496) (-52) =
  if (e =? -1074)%Z then (Zpos m, e, loc_Exact) else (Zpos m~0, (e - 1)%Z, loc_Exact).
Proof.
  intros Hc. pose proof (canonical_mantissa_bounds m e Hc) as (Hlo & Hhi & Hn).
  unfold canonical_mantissa, fexp, SpecFloat.emin in Hc. apply Z.eqb_eq in Hc.
  unfold prec, emax in Hc.
  unfold SFdiv_core_binary, fexp, SpecFloat.emin, Zdigits2.
  change (digits2_pos 4503599627370496) with 53%positive.
  cbv zeta. set (d := Zpos (digits2_pos m)) in *.
  destruct (Z.eqb_spec e (-1074)) as [He|He].
  - replace (Z.min (Z.max (d + e - (53 + -52) - prec) (3 - emax - prec)) (e - -52))%Z
      with e by (unfold prec, emax; lia).
    replace (e - -52 - e)%Z with 52%Z by lia.
    rewrite Z.shiftl_mul_pow2 by lia.
    change (2 ^ 52)%Z with (Zpos 4503599627370496).
    rewrite div_eucl_exact. reflexivity.
  - replace (Z.min (Z.max (d + e - (53 + -52) - prec) (3 - emax - prec)) (e - -52))%Z
      with (e - 1)%Z by (unfold prec, emax; lia).
    replace (e - -52 - (e - 1))%Z with 53%Z by lia.
    rewrite Z.shiftl_mul_pow2 by lia.
    change (2 ^ 53)%Z with (2 * Zpos 4503599627370496)%Z.
    rewrite Z.mul_assoc.
    replace (Zpos m * 2)%Z with (Zpos m~0) by lia.
    rewrite div_eucl_exact. reflexivity.
Qed.

Lemma SFdiv_one (f : spec_float) :
  valid_binary f = true ->
  SFdiv prec emax f (S754_finite false 4503599627370496 (-52)) = f.
Proof.
  destruct f as [[]|[]| |s m e]; try reflexivity.
  intros Hv. pose proof (valid_binary_bounds s m e Hv) as (Hlo & Hhi & Hn).
  pose proof Hv as Hv'. simpl in Hv'. unfold bounded in Hv'.
  apply andb_true_iff in Hv' as [Hc Hb]. apply Z.leb_le in Hb.
  unfold prec, emax in Hb.
  cbv beta iota delta [SFdiv]. rewrite (SFdiv_core_binary_one m e Hc).
  replace (xorb s false) with s by (destruct s; reflexivity).
  destruct (Z.eqb_spec e (-1074)) as [He|He].
  - now apply binary_round_aux_valid.
  - apply binary_round_aux_double; [|lia].
    apply digits2_pos_unique. split; [apply Hn|exact Hhi]. lia.
Qed.

Lemma div_one (x : float) : x / 1 = x.
Proof.
  apply Prim2SF_inj. rewrite div_spec.
  change (Prim2SF 1) with (S754_finite false 4503599627370496 (-52)).
  apply SFdiv_one, Prim2SF_valid.
Qed.

Lemma SFsub_diag (f : spec_float) :
  finite f ->
  SFsub prec emax f f = S754_zero false.
Proof.
  destruct f as [[]|[]| |s m e]; simpl; intros H; try reflexivity; try contradiction.
  rewrite Z.min_id. unfold shl_align. rewrite Z.sub_diag. simpl.
  replace (cond_Zopp s (Zpos m) - cond_Zopp s (Zpos m))%Z with 0%Z
    by (destruct s; simpl; lia).
  reflexivity.
Qed.

(** [0 + x] is [x], except that it is [+0.0] for [x = -0.0]. *)
Lemma SFadd_zero_l (f : spec_float) :
  SFadd prec emax (S754_zero false) f =
  match f with
  | S754_zero _ => S754_zero false
  | _ => f
  end.
Proof. destruct f as [[]|[]| |s m e]; reflexivity. Qed.

Lemma add_zero_l_eqb (x : float) : isnan x = false -> (0 + x =? x) = true.
Proof.
  intros H. apply isnan_false in H. rewrite FloatAxioms.eqb_spec, add_spec.
  change (Prim2SF 0) with (S754_zero false). rewrite SFadd_zero_l.
  destruct (Prim2SF x) as [[]|[]| |s m e]; try reflexivity; try contradiction.
  now apply SFeqb_refl.
Qed.

(** *** The sign of a difference *)

Lemma signed_nonpos (f : spec_float) : signed true f -> nonpos f.
Proof. destruct f; simpl; auto. Qed.

Lemma SFopp_nonneg (f : spec_float) : nonneg f -> nonpos (SFopp f).
Proof. destruct f; simpl; auto; intros ->; reflexivity. Qed.

Lemma SFleb_zero_nonpos (f : spec_float) :
  SFleb f (S754_zero false) = true <-> nonpos f.
Proof.
  unfold SFleb. destruct f as [[]|[]| |[] m e]; simpl; split; intros H;
    try reflexivity; try exact I; try discriminate; try contradiction.
Qed.

Lemma leb_zero_nonpos (x : float) : (x <=? 0) = true <-> nonpos (Prim2SF x).
Proof. rewrite leb_spec. apply SFleb_zero_nonpos. Qed.

Lemma binary_normalize_nonpos (m e : Z) :
  (m <= 0)%Z -> nonpos (binary_normalize prec emax m e false).
Proof.
  intros Hm. unfold binary_normalize. destruct m as [|p|p]; [exact I|lia|].
  apply signed_nonpos, binary_round_signed.
Qed.

Lemma iter_xO_pow2 (m d : positive) :
  Zpos (Pos.iter xO m d) = (Zpos m * 2 ^ Zpos d)%Z.
Proof.
  induction d as [|d IH] using Pos.peano_ind.
  - simpl. lia.
  - rewrite Pos.iter_succ, Pos2Z.inj_xO, IH, Pos2Z.inj_succ, Z.pow_succ_r by lia. lia.
Qed.

Lemma shl_align_scaled (m : positive) (e ez : Z) :
  (-1074 <= ez <= e)%Z ->
  (Zpos (fst (shl_align m e ez)) * 2 ^ (ez + 1074) = Zpos m * 2 ^ (e + 1074))%Z.
Proof.
  intros H. unfold shl_align. destruct (ez - e)%Z as [|d|d] eqn:E; simpl fst.
  - replace ez with e by lia. reflexivity.
  - lia.
  - rewrite iter_xO_pow2.
    replace (e + 1074)%Z with (Zpos d + (ez + 1074))%Z by lia.
    rewrite (Z.pow_add_r 2 (Zpos d) (ez + 1074)) by lia. now rewrite Z.mul_assoc.
Qed.

(** The difference of two finite numbers has the sign of the difference
    of their exact values. *)
Lemma SFsub_scaled_sign (a b : spec_float) :
  finite a -> finite b -> valid_binary a = true -> valid_binary b = true ->
  ((SFscaled b <= SFscaled a)%Z -> nonneg (SFsub prec emax a b)) /\
  ((SFscaled a <= SFscaled b)%Z -> nonpos (SFsub prec emax a b)).
Proof.
  destruct a as [sa|sa| |sa ma ea], b as [sb|sb| |sb mb eb];
    try (simpl; tauto); intros _ _ Ha Hb.
  - simpl. destruct sa, sb; simpl; auto.
  - pose proof (magnitude_pos mb eb (proj1 (valid_binary_bounds _ _ _ Hb))) as Hp.
    simpl. destruct sb; simpl; split; intros H; try reflexivity; lia.
  - pose proof (magnitude_pos ma ea (proj1 (valid_binary_bounds _ _ _ Ha))) as Hp.
    simpl. destruct sa; simpl; split; intros H; try reflexivity; lia.
  - pose proof (proj1 (valid_binary_bounds _ _ _ Ha)) as Hea.
    pose proof (proj1 (valid_binary_bounds _ _ _ Hb)) as Heb.
    cbv beta iota delta [SFsub]. cbv zeta.
    set (ez := Z.min ea eb).
    pose proof (shl_align_scaled ma ea ez ltac:(lia)) as Ea.
    pose proof (shl_align_scaled mb eb ez ltac:(lia)) as Eb.
    set (A := Zpos (fst (shl_align ma ea ez))) in *.
    set (B := Zpos (fst (shl_align mb eb ez))) in *.
    assert (Hpw : (0 < 2 ^ (ez + 1074))%Z) by (apply Z.pow_pos_nonneg; lia).
    assert (Hd : ((cond_Zopp sa A - cond_Zopp sb B) * 2 ^ (ez + 1074)
                  = SFscaled (S754_finite sa ma ea) - SFscaled (S754_finite sb mb eb))%Z).
    { unfold SFscaled. destruct sa, sb; cbv [cond_Zopp]; lia. }
    split; intros H.
    + apply binary_normalize_nonneg. nia.
    + apply binary_normalize_nonpos. nia.
Qed.

Lemma sub_nonneg_of_leb (x y : float) :
  isfinite x = true -> isfinite y = true ->
  (y <=? x) = true -> nonneg (Prim2SF (x - y)).
Proof.
  intros Hx Hy H. rewrite (leb_scaled y x Hy Hx) in H. apply Z.leb_le in H.
  rewrite sub_spec.
  apply (SFsub_scaled_sign (Prim2SF x) (Prim2SF y));
    auto using Prim2SF_valid; now apply isfinite_true.
Qed.

Lemma sub_nonpos_of_leb (x y : float) :
  isfinite x = true -> isfinite y = true ->
  (x <=? y) = true -> nonpos (Prim2SF (x - y)).
Proof.
  intros Hx Hy H. rewrite (leb_scaled x y Hx Hy) in H. apply Z.leb_le in H.
  rewrite sub_spec.
  apply (SFsub_scaled_sign (Prim2SF x) (Prim2SF y));
    auto using Prim2SF_valid; now apply isfinite_true.
Qed.

Lemma SFround2_nonpos (a : spec_float) : nonpos a -> nonpos (SFround2 a).
Proof.
  destruct a as [sa|sa| |sa ma ea]; simpl; try tauto; intros ->.
  destruct (hundredths ma ea); try exact I.
  apply signed_nonpos, (SFdiv_signed true false).
Qed.

Lemma SF2Prim_nonpos (f : spec_float) : nonpos f -> nonpos (Prim2SF (SF2Prim f)).
Proof.
  destruct f as [[]|s| |s m e]; simpl; try tauto; intros Hs; try exact I.
  - subst s. reflexivity.
  - subst s. rewrite opp_spec. apply SFopp_nonneg.
    exact (SF2Prim_nonneg (S754_finite false m e) eq_refl).
Qed.

Lemma py_round2_nonpos (x : float) :
  nonpos (Prim2SF x) -> nonpos (Prim2SF (py_round2 x)).
Proof. intros H. apply SF2Prim_nonpos, SFround2_nonpos, H. Qed.

(** *** Sums of squares are never [-0.0] *)

Lemma signed_plus_or_nan (f : spec_float) : signed false f -> plus_or_nan f.
Proof. destruct f; simpl; auto. Qed.

Lemma SFadd_plus_or_nan (a b : spec_float) :
  plus_or_nan a -> plus_or_nan b -> plus_or_nan (SFadd prec emax a b).
Proof.
  destruct a as [sa|sa| |sa ma ea], b as [sb|sb| |sb mb eb]; simpl;
    intros Ha Hb; subst; try exact I; try reflexivity.
  apply signed_plus_or_nan. unfold binary_normalize. simpl.
  apply binary_round_signed.
Qed.

Lemma SFdiv_plus_or_nan (a b : spec_float) :
  plus_or_nan a -> pos_finite b -> plus_or_nan (SFdiv prec emax a b).
Proof.
  destruct a as [sa|sa| |sa ma ea], b as [sb|sb| |[] mb eb];
    try (simpl; tauto); intros Ha _; simpl in Ha; subst; try exact I; try reflexivity.
  apply signed_plus_or_nan, (SFdiv_signed false false).
Qed.

Lemma fold_add_plus_or_nan (l : list float) (acc : float) :
  plus_or_nan (Prim2SF acc) -> Forall (fun x => plus_or_nan (Prim2SF x)) l ->
  plus_or_nan (Prim2SF (fold_left PrimFloat.add l acc)).
Proof.
  revert acc. induction l as [|y l IH]; intros acc Hacc Hl; [exact Hacc|].
  inversion_clear Hl as [|? ? Hy Hl']. simpl. apply IH; [|exact Hl'].
  rewrite add_spec. now apply SFadd_plus_or_nan.
Qed.

Lemma py_sum_plus_or_nan (l : list float) :
  Forall (fun x => plus_or_nan (Prim2SF x)) l -> plus_or_nan (Prim2SF (py_sum l)).
Proof. apply fold_add_plus_or_nan. reflexivity. Qed.

Lemma div_plus_or_nan (x y : float) :
  plus_or_nan (Prim2SF x) -> pos_finite (Prim2SF y) -> plus_or_nan (Prim2SF (x / y)).
Proof. intros Hx Hy. rewrite div_spec. now apply SFdiv_plus_or_nan. Qed.

Lemma add_zero_l (x : float) : plus_or_nan (Prim2SF x) -> 0 + x = x.
Proof.
  intros H. apply Prim2SF_inj. rewrite add_spec.
  change (Prim2SF 0) with (S754_zero false). rewrite SFadd_zero_l.
  destruct (Prim2SF x) as [[]|[]| |s m e]; simpl in H; try reflexivity; discriminate.
Qed.

Lemma sub_diag (x : float) : isfinite x = true -> x - x = 0.
Proof.
  intros H. apply Prim2SF_inj. rewrite sub_spec.
  apply SFsub_diag. now apply isfinite_true.
Qed.

(** The deviation of a single finite score from its mean [0 + x] is a
    zero. *)
Lemma self_deviation_zero (x : float) :
  isfinite x = true -> exists s : bool, Prim2SF (x - (0 + x)) = S754_zero s.
Proof.
  intros H. apply isfinite_true in H. rewrite sub_spec, add_spec.
  change (Prim2SF 0) with (S754_zero false). rewrite SFadd_zero_l.
  destruct (Prim2SF x) as [[]|[]| |s m e] eqn:E; try contradiction;
    try (eexists; reflexivity).
  unfold SF64sub. rewrite (SFsub_diag (S754_finite s m e) I). eauto.
Qed.

(** *** The value a rounding returns

    [binary_round_aux] takes a mantissa [mx], an exponent [ex] and the
    place of the discarded part, and returns the nearest binary64 number.
    Below, [E] is the exponent it rounds at, [m'] the mantissa truncated
    there and [m1] the rounded one, either [m'] or [m' + 1]. *)

Section Division.
Local Open Scope Z_scope.

Lemma shr_m_record_of_loc (m : Z) (l : location) : shr_m (shr_record_of_loc m l) = m.
Proof. destruct l as [|[]]; reflexivity. Qed.

Lemma shr_fexp_shift (m e : Z) (l : location) :
  0 <= m -> e <= fexp prec emax (Zdigits2 m + e) ->
  shr_m (fst (shr_fexp prec emax m e l))
  = m / 2 ^ (fexp prec emax (Zdigits2 m + e) - e) /\
  snd (shr_fexp prec emax m e l) = fexp prec emax (Zdigits2 m + e).
Proof.
  intros Hm He. unfold shr_fexp, shr.
  destruct (fexp prec emax (Zdigits2 m + e) - e) as [|p|p] eqn:Ek; simpl fst; simpl snd.
  - rewrite shr_m_record_of_loc, Z.div_1_r. split; [reflexivity|lia].
  - rewrite shr_m_iter_pos by (rewrite shr_m_record_of_loc; exact Hm).
    rewrite shr_m_record_of_loc. split; [reflexivity|lia].
  - lia.
Qed.

(** Shifting out zeros only loses nothing. *)
Lemma shr_1_exact (mrs : shr_record) :
  0 <= shr_m mrs -> shr_r mrs = false -> shr_s mrs = false ->
  shr_m mrs mod 2 = 0 ->
  shr_r (shr_1 mrs) = false /\ shr_s (shr_1 mrs) = false.
Proof.
  destruct mrs as [m r s]; simpl. intros Hm -> -> Hmod.
  destruct m as [|[p|p|]|p]; simpl; try (split; reflexivity); try lia.
  - rewrite Pos2Z.inj_xI in Hmod.
    rewrite Z.add_comm, Z.mul_comm, Z.mod_add in Hmod by lia. discriminate.
  - discriminate.
Qed.

Lemma iter_pos_shr_1_exact (k : positive) (mrs : shr_record) :
  0 <= shr_m mrs -> shr_r mrs = false -> shr_s mrs = false ->
  shr_m mrs mod 2 ^ Zpos k = 0 ->
  shr_r (SpecFloat.iter_pos shr_1 k mrs) = false /\
  shr_s (SpecFloat.iter_pos shr_1 k mrs) = false.
Proof.
  revert mrs. induction k as [k IH|k IH|]; intros mrs Hm Hr Hs Hmod;
    simpl SpecFloat.iter_pos.
  - (* 2k + 1 steps *)
    assert (H2 : 2 ^ Zpos k~1 = 2 * (2 ^ Zpos k * 2 ^ Zpos k)).
    { replace (Zpos k~1) with (1 + (Zpos k + Zpos k)) by lia.
      rewrite !Z.pow_add_r by lia. reflexivity. }
    assert (Hp : 0 < 2 ^ Zpos k) by (apply Z.pow_pos_nonneg; lia).
    apply Z.mod_divide in Hmod; [|lia]. destruct Hmod as [c Hc]. rewrite H2 in Hc.
    destruct (shr_1_exact mrs Hm Hr Hs) as [Hr1 Hs1].
    { rewrite Hc. replace (c * (2 * (2 ^ Zpos k * 2 ^ Zpos k)))
        with ((c * (2 ^ Zpos k * 2 ^ Zpos k)) * 2) by lia.
      apply Z.mod_mul. lia. }
    pose proof (shr_1_nonneg mrs Hm) as Hm1.
    pose proof (shr_m_shr_1 mrs Hm) as Em1.
    assert (E1 : shr_m (shr_1 mrs) = c * (2 ^ Zpos k * 2 ^ Zpos k)).
    { rewrite Em1, Hc.
      replace (c * (2 * (2 ^ Zpos k * 2 ^ Zpos k)))
        with ((c * (2 ^ Zpos k * 2 ^ Zpos k)) * 2) by lia.
      apply Z.div_mul. lia. }
    destruct (IH (shr_1 mrs) Hm1 Hr1 Hs1) as [Hr2 Hs2].
    { rewrite E1. replace (c * (2 ^ Zpos k * 2 ^ Zpos k))
        with ((c * 2 ^ Zpos k) * 2 ^ Zpos k) by lia.
      apply Z.mod_mul. lia. }
    apply IH; try assumption.
    + now apply iter_pos_shr_1_nonneg.
    + rewrite shr_m_iter_pos by exact Hm1. rewrite E1.
      replace (c * (2 ^ Zpos k * 2 ^ Zpos k))
        with ((c * 2 ^ Zpos k) * 2 ^ Zpos k) by lia.
      rewrite Z.div_mul by lia. apply Z.mod_mul. lia.
  - (* 2k steps *)
    assert (H2 : 2 ^ Zpos k~0 = 2 ^ Zpos k * 2 ^ Zpos k).
    { replace (Zpos k~0) with (Zpos k + Zpos k) by lia.
      apply Z.pow_add_r; lia. }
    assert (Hp : 0 < 2 ^ Zpos k) by (apply Z.pow_pos_nonneg; lia).
    apply Z.mod_divide in Hmod; [|lia]. destruct Hmod as [c Hc]. rewrite H2 in Hc.
    destruct (IH mrs Hm Hr Hs) as [Hr2 Hs2].
    { rewrite Hc. replace (c * (2 ^ Zpos k * 2 ^ Zpos k))
        with ((c * 2 ^ Zpos k) * 2 ^ Zpos k) by lia.
      apply Z.mod_mul. lia. }
    apply IH; try assumption.
    + now apply iter_pos_shr_1_nonneg.
    + rewrite shr_m_iter_pos by exact Hm. rewrite Hc.
      replace (c * (2 ^ Zpos k * 2 ^ Zpos k))
        with ((c * 2 ^ Zpos k) * 2 ^ Zpos k) by lia.
      rewrite Z.div_mul by lia. apply Z.mod_mul. lia.
  - apply shr_1_exact; assumption.
Qed.

Lemma shr_fexp_exact (m e : Z) :
  0 <= m -> e <= fexp prec emax (Zdigits2 m + e) ->
  m mod 2 ^ (fexp prec emax (Zdigits2 m + e) - e) = 0 ->
  loc_of_shr_record (fst (shr_fexp prec emax m e loc_Exact)) = loc_Exact.
Proof.
  intros Hm He Hmod. unfold shr_fexp, shr.
  destruct (fexp prec emax (Zdigits2 m + e) - e) as [|p|p] eqn:Ek; simpl fst;
    try reflexivity.
  destruct (iter_pos_shr_1_exact p (shr_record_of_loc m loc_Exact))
    as [Hr Hs]; try reflexivity; try assumption.
  destruct (SpecFloat.iter_pos shr_1 p _) as [m' r s]. simpl in *. now subst.
Qed.

Lemma Zdigits2_bounds (m : Z) :
  0 < m -> 2 ^ (Zdigits2 m - 1) <= m < 2 ^ Zdigits2 m.
Proof.
  destruct m as [|p|p]; try lia. intros _. simpl.
  split; [apply digits2_pos_lower|apply digits2_pos_upper].
Qed.

Lemma Zdigits2_nonneg (m : Z) : 0 <= m -> 0 <= Zdigits2 m.
Proof. destruct m; simpl; lia. Qed.

Lemma Zdigits2_unique (m d : Z) :
  2 ^ (d - 1) <= m < 2 ^ d -> 0 < m -> Zdigits2 m = d.
Proof.
  destruct m as [|p|p]; try lia. intros H _. simpl. now apply digits2_pos_unique.
Qed.

Lemma Zdigits2_le (m d : Z) : 0 <= d -> 0 <= m < 2 ^ d -> Zdigits2 m <= d.
Proof.
  intros Hd [H0 H]. destruct (Z.eq_dec m 0) as [->|Hz]; [simpl; lia|].
  destruct (Zdigits2_bounds m ltac:(lia)) as [Hlo _].
  destruct (Z.le_gt_cases (Zdigits2 m) d) as [|Hgt]; [assumption|].
  assert (2 ^ d <= 2 ^ (Zdigits2 m - 1)) by (apply Z.pow_le_mono_r; lia). lia.
Qed.

(** The mantissa truncated at the rounding exponent is below [2^53], and
    at least [2^52] unless the exponent is the least one. *)
Lemma truncated_mantissa (mx ex : Z) :
  0 <= mx -> ex <= fexp prec emax (Zdigits2 mx + ex) ->
  let E := fexp prec emax (Zdigits2 mx + ex) in
  let m' := mx / 2 ^ (E - ex) in
  -1074 <= E /\ 0 <= m' < 2 ^ 53 /\ (E = -1074 \/ 2 ^ 52 <= m').
Proof.
  intros Hm He E m'. subst m'.
  assert (HE : E = Z.max (Zdigits2 mx + ex - 53) (-1074)) by reflexivity.
  assert (Hk : 0 <= E - ex) by (subst E; lia).
  assert (Hp : 0 < 2 ^ (E - ex)) by (apply Z.pow_pos_nonneg; lia).
  split; [lia|].
  destruct (Z.eq_dec mx 0) as [->|Hz].
  { rewrite Z.div_0_l by lia. split; [lia|]. left.
    simpl in HE. fold E in He. simpl in He. lia. }
  destruct (Zdigits2_bounds mx ltac:(lia)) as [Hlo Hhi].
  set (d := Zdigits2 mx) in *.
  assert (Hd : 0 < d).
  { destruct (Z.le_gt_cases d 0) as [Hd0|]; [|assumption].
    assert (2 ^ d <= 2 ^ 0) by (apply Z.pow_le_mono_r; lia). simpl in *. lia. }
  destruct (Z.le_gt_cases (-1074) (d + ex - 53)) as [Hn|Hs].
  - assert (Ek : E - ex = d - 53) by lia. rewrite Ek in *.
    assert (H52 : 2 ^ (d - 1) = 2 ^ 52 * 2 ^ (d - 53)).
    { rewrite <- Z.pow_add_r by lia. f_equal. lia. }
    assert (H53 : 2 ^ d = 2 ^ 53 * 2 ^ (d - 53)).
    { rewrite <- Z.pow_add_r by lia. f_equal. lia. }
    split; [split|right].
    + apply Z.div_pos; lia.
    + apply Z.div_lt_upper_bound; lia.
    + apply Z.div_le_lower_bound; lia.
  - assert (EE : E = -1074) by lia.
    split; [split|left; exact EE].
    + apply Z.div_pos; lia.
    + apply Z.div_lt_upper_bound; [lia|].
      assert (2 ^ d <= 2 ^ (53 + (E - ex))) by (apply Z.pow_le_mono_r; lia).
      rewrite Z.pow_add_r in H by lia. lia.
Qed.

(** The number a rounding returns has the value [m1 * 2^E] (scaled by
    [2^1074] below); it is an infinity when that value is [2^1024] or
    more. *)
Lemma binary_round_aux_spec (s : bool) (mx ex : Z) (lx : location) :
  0 <= mx -> ex <= fexp prec emax (Zdigits2 mx + ex) ->
  let E := fexp prec emax (Zdigits2 mx + ex) in
  let m' := mx / 2 ^ (E - ex) in
  exists m1 : Z,
    m' <= m1 <= m' + 1 /\
    (lx = loc_Exact -> mx mod 2 ^ (E - ex) = 0 -> m1 = m') /\
    match binary_round_aux prec emax s mx ex lx with
    | S754_zero s' => s' = s /\ m1 = 0
    | S754_finite s' m e => s' = s /\ Zpos m * 2 ^ (e + 1074) = m1 * 2 ^ (E + 1074)
    | S754_infinity s' => s' = s /\ 2 ^ 2098 <= m1 * 2 ^ (E + 1074)
    | S754_nan => False
    end.
Proof.
  intros Hm He E m'.
  destruct (truncated_mantissa mx ex Hm He) as (HE & Hm' & Hcan).
  fold E in HE, Hm', Hcan. fold m' in Hm', Hcan.
  destruct (shr_fexp_shift mx ex lx Hm He) as [Hs1 He1]. fold E in Hs1, He1.
  fold m' in Hs1.
  unfold binary_round_aux.
  destruct (shr_fexp prec emax mx ex lx) as [mrs' e'] eqn:Eq1.
  simpl in Hs1, He1. subst e'.
  set (m1 := round_nearest_even (shr_m mrs') (loc_of_shr_record mrs')).
  assert (Hb : m' <= m1 <= m' + 1).
  { subst m1. rewrite Hs1. apply round_nearest_even_bounds. }
  exists m1. split; [exact Hb|]. split.
  { intros -> Hmod. subst m1.
    pose proof (shr_fexp_exact mx ex Hm He Hmod) as Hx.
    rewrite Eq1 in Hx. simpl in Hx. rewrite Hx. simpl. exact Hs1. }
  (* the second shift: none, or by one bit after a carry *)
  assert (Hm1 : 0 <= m1) by lia.
  assert (H253 : 2 ^ 53 = 2 * 2 ^ 52) by reflexivity.
  set (E2 := fexp prec emax (Zdigits2 m1 + E)).
  assert (HE2 : E2 = Z.max (Zdigits2 m1 + E - 53) (-1074)) by reflexivity.
  assert (Hk2 : (E2 = E /\ m1 < 2 ^ 53) \/ (E2 = E + 1 /\ m1 = 2 ^ 53)).
  { destruct (Z.eq_dec m1 (2 ^ 53)) as [E53|N53].
    - right. split; [|exact E53].
      assert (Zdigits2 m1 = 54) by (rewrite E53; reflexivity). lia.
    - left. split; [|lia].
      destruct (Z.eq_dec m1 0) as [E0|N0].
      + rewrite HE2, E0. simpl. lia.
      + assert (Hd : Zdigits2 m1 <= 53) by (apply Zdigits2_le; lia).
        destruct Hcan as [Hmin|H52]; [lia|].
        assert (Zdigits2 m1 = 53) by (apply Zdigits2_unique; simpl; lia). lia. }
  assert (He2 : E <= E2) by lia.
  destruct (shr_fexp_shift m1 E loc_Exact Hm1 He2) as [Hs2 He2'].
  fold E2 in Hs2, He2'.
  destruct (shr_fexp prec emax m1 E loc_Exact) as [mrs'' e''] eqn:Eq2.
  simpl in Hs2, He2'. subst e''.
  assert (Hval : shr_m mrs'' * 2 ^ (E2 + 1074) = m1 * 2 ^ (E + 1074)).
  { rewrite Hs2. destruct Hk2 as [[-> _]|[-> ->]].
    - rewrite Z.sub_diag, Z.div_1_r. reflexivity.
    - replace (E + 1 - E) with 1 by lia. change (2 ^ 53 / 2 ^ 1) with (2 ^ 52).
      replace (E + 1 + 1074) with (1 + (E + 1074)) by lia.
      rewrite Z.pow_add_r by lia. rewrite H253. change (2 ^ 1) with 2. lia. }
  assert (Hbig : 971 < E2 -> 2 ^ 2098 <= m1 * 2 ^ (E + 1074)).
  { intros Hov. rewrite <- Hval.
    assert (H52 : 2 ^ 52 <= shr_m mrs'').
    { rewrite Hs2. destruct Hk2 as [[-> _]|[-> ->]].
      - rewrite Z.sub_diag, Z.div_1_r. lia.
      - replace (E + 1 - E) with 1 by lia. change (2 ^ 53 / 2 ^ 1) with (2 ^ 52). lia. }
    assert (Hpw : 2 ^ 2046 <= 2 ^ (E2 + 1074)) by (apply Z.pow_le_mono_r; lia).
    change (2 ^ 2098) with (2 ^ 52 * 2 ^ 2046).
    apply Z.mul_le_mono_nonneg; lia. }
  assert (Hnn : 0 <= shr_m mrs'').
  { rewrite Hs2. apply Z.div_pos; [lia|]. apply Z.pow_pos_nonneg; lia. }
  destruct (shr_m mrs'') as [|p|p] eqn:Ep; [| |lia].
  - split; [reflexivity|].
    assert (Hpw : 0 < 2 ^ (E + 1074)) by (apply Z.pow_pos_nonneg; lia).
    nia.
  - destruct (Z.leb_spec E2 (emax - prec)) as [Hle|Hgt].
    + split; [reflexivity|exact Hval].
    + split; [reflexivity|]. apply Hbig. unfold emax, prec in Hgt. lia.
Qed.

(** *** Representable bounds of a quotient

    [A / W] is the quotient in exact arithmetic, in units of [2^E]; [D]
    and [U] are binary64 numbers in units of [2^-1074]. A representable
    number that is not above the quotient is not above its truncation,
    and one that is above the truncation is at least the next multiple of
    [2^E]. *)

Lemma valid_binary_exponent (s : bool) (m : positive) (e : Z) :
  valid_binary (S754_finite s m e) = true -> e <= 971.
Proof.
  simpl. unfold bounded. intros H. apply andb_true_iff in H as [_ H].
  apply Z.leb_le in H. exact H.
Qed.

Lemma representable_lower (md : positive) (ed E A W : Z) :
  -1074 <= ed -> Zpos md < 2 ^ 53 ->
  -1074 <= E -> (E = -1074 \/ 2 ^ 52 <= A / W) -> 0 < W -> 0 <= A ->
  Zpos md * 2 ^ (ed + 1074) * W <= A * 2 ^ (E + 1074) ->
  Zpos md * 2 ^ (ed + 1074) <= A / W * 2 ^ (E + 1074).
Proof.
  intros Hed Hmd HE Hcan HW HA H.
  set (P := 2 ^ (E + 1074)) in *. set (m' := A / W) in *.
  assert (HP : 0 < P) by (apply Z.pow_pos_nonneg; lia).
  assert (Hpd : 0 < 2 ^ (ed + 1074)) by (apply Z.pow_pos_nonneg; lia).
  assert (Hlt : A < (m' + 1) * W).
  { pose proof (Z.div_mod A W ltac:(lia)) as Hdm.
    pose proof (Z.mod_pos_bound A W HW) as Hr. fold m' in Hdm. lia. }
  assert (HD : Zpos md * 2 ^ (ed + 1074) < (m' + 1) * P).
  { apply (Z.mul_lt_mono_pos_r W); [exact HW|].
    apply Z.le_lt_trans with (A * P); [exact H|].
    replace ((m' + 1) * P * W) with ((m' + 1) * W * P) by ring.
    apply Z.mul_lt_mono_pos_r; assumption. }
  destruct (Z.le_gt_cases E ed) as [Hge|Hlt'].
  - assert (Ep : 2 ^ (ed + 1074) = 2 ^ (ed - E) * P).
    { unfold P. rewrite <- Z.pow_add_r by lia. f_equal. lia. }
    rewrite Ep in *.
    assert (Hc : Zpos md * 2 ^ (ed - E) < m' + 1).
    { apply (Z.mul_lt_mono_pos_r P); [exact HP|]. lia. }
    replace (Zpos md * (2 ^ (ed - E) * P)) with (Zpos md * 2 ^ (ed - E) * P) by ring.
    apply Z.mul_le_mono_nonneg_r; lia.
  - destruct Hcan as [Hmin|H52]; [lia|].
    assert (Ep : P = 2 ^ (E - ed - 1) * (2 * 2 ^ (ed + 1074))).
    { unfold P. change 2 with (2 ^ 1) at 3. rewrite <- !Z.pow_add_r by lia.
      f_equal. lia. }
    assert (Hq : 0 < 2 ^ (E - ed - 1)) by (apply Z.pow_pos_nonneg; lia).
    assert (H2 : 2 * 2 ^ (ed + 1074) <= P) by (rewrite Ep; nia).
    apply Z.le_trans with (2 ^ 52 * P); [|apply Z.mul_le_mono_nonneg_r; lia].
    change (2 ^ 53) with (2 ^ 52 * 2) in Hmd.
    assert (H3 : Zpos md * 2 ^ (ed + 1074) <= 2 ^ 52 * 2 * 2 ^ (ed + 1074))
      by (apply Z.mul_le_mono_nonneg_r; lia).
    assert (H4 : 2 ^ 52 * (2 * 2 ^ (ed + 1074)) <= 2 ^ 52 * P)
      by (apply Z.mul_le_mono_nonneg_l; lia).
    lia.
Qed.

Lemma representable_upper (mu : positive) (eu E A W : Z) :
  -1074 <= eu -> Zpos mu < 2 ^ 53 ->
  -1074 <= E -> (E = -1074 \/ 2 ^ 52 <= A / W) -> 0 < W -> 0 <= A ->
  A * 2 ^ (E + 1074) <= Zpos mu * 2 ^ (eu + 1074) * W ->
  A / W * 2 ^ (E + 1074) <= Zpos mu * 2 ^ (eu + 1074) /\
  (A mod W <> 0 -> (A / W + 1) * 2 ^ (E + 1074) <= Zpos mu * 2 ^ (eu + 1074)).
Proof.
  intros Heu Hmu HE Hcan HW HA H.
  set (P := 2 ^ (E + 1074)) in *. set (m' := A / W) in *.
  set (U := Zpos mu * 2 ^ (eu + 1074)) in *.
  assert (HP : 0 < P) by (apply Z.pow_pos_nonneg; lia).
  assert (Hpu : 0 < 2 ^ (eu + 1074)) by (apply Z.pow_pos_nonneg; lia).
  pose proof (Z.div_mod A W ltac:(lia)) as Hdm. fold m' in Hdm.
  pose proof (Z.mod_pos_bound A W HW) as Hr.
  assert (Hm' : 0 <= m') by (apply Z.div_pos; lia).
  split.
  - apply (Z.mul_le_mono_pos_r _ _ W); [exact HW|].
    apply Z.le_trans with (A * P); [|exact H].
    replace (m' * P * W) with (m' * W * P) by ring.
    apply Z.mul_le_mono_nonneg_r; lia.
  - intros Hne.
    assert (Hgt : m' * P < U).
    { apply (Z.mul_lt_mono_pos_r W); [exact HW|].
      apply Z.lt_le_trans with (A * P); [|exact H].
      replace (m' * P * W) with (m' * W * P) by ring.
      apply Z.mul_lt_mono_pos_r; lia. }
    destruct (Z.le_gt_cases E eu) as [Hge|Hlt'].
    + assert (Ep : 2 ^ (eu + 1074) = 2 ^ (eu - E) * P).
      { unfold P. rewrite <- Z.pow_add_r by lia. f_equal. lia. }
      unfold U in *. rewrite Ep in *.
      replace (Zpos mu * (2 ^ (eu - E) * P)) with (Zpos mu * 2 ^ (eu - E) * P) in * by ring.
      assert (Hc : m' < Zpos mu * 2 ^ (eu - E)).
      { apply (Z.mul_lt_mono_pos_r P); [exact HP|]. lia. }
      apply Z.mul_le_mono_nonneg_r; lia.
    + exfalso. destruct Hcan as [Hmin|H52]; [lia|].
      assert (Ep : P = 2 ^ (E - eu - 1) * (2 * 2 ^ (eu + 1074))).
      { unfold P. change 2 with (2 ^ 1) at 3. rewrite <- !Z.pow_add_r by lia.
        f_equal. lia. }
      assert (Hq : 0 < 2 ^ (E - eu - 1)) by (apply Z.pow_pos_nonneg; lia).
      assert (H2 : 2 * 2 ^ (eu + 1074) <= P) by (rewrite Ep; nia).
      change (2 ^ 53) with (2 ^ 52 * 2) in Hmu.
      assert (H3 : U <= 2 ^ 52 * 2 * 2 ^ (eu + 1074))
        by (apply Z.mul_le_mono_nonneg_r; lia).
      assert (H4 : 2 ^ 52 * (2 * 2 ^ (eu + 1074)) <= 2 ^ 52 * P)
        by (apply Z.mul_le_mono_nonneg_l; lia).
      assert (H5 : 2 ^ 52 * P <= m' * P) by (apply Z.mul_le_mono_nonneg_r; lia).
      lia.
Qed.

(** *** The quotient of two finite numbers *)

(** What [SFdiv_core_binary] hands to the rounding: the integer quotient
    [q] of [mx * 2^s] by [my], at the exponent [e'], with enough bits for
    the rounding to shift to the right only. *)
Lemma SFdiv_core_binary_spec (mx my : positive) (ex ey : Z) :
  exists (q e' : Z) (l : location),
    SFdiv_core_binary prec emax (Zpos mx) ex (Zpos my) ey = (q, e', l) /\
    0 <= ex - ey - e' /\
    q = Zpos mx * 2 ^ (ex - ey - e') / Zpos my /\
    ((Zpos mx * 2 ^ (ex - ey - e')) mod Zpos my = 0 -> l = loc_Exact) /\
    0 <= q /\
    e' <= fexp prec emax (Zdigits2 q + e').
Proof.
  unfold SFdiv_core_binary.
  set (d1 := Zdigits2 (Zpos mx)). set (d2 := Zdigits2 (Zpos my)).
  set (e' := Z.min (fexp prec emax (d1 + ex - (d2 + ey))) (ex - ey)).
  set (s := ex - ey - e').
  assert (Hs : 0 <= s) by (subst s e'; lia).
  set (N := match s with Zpos _ => Z.shiftl (Zpos mx) s | 0 => Zpos mx | Zneg _ => 0 end).
  assert (EN : N = Zpos mx * 2 ^ s).
  { subst N. destruct s as [|p|p]; [simpl; lia| |lia].
    apply Z.shiftl_mul_pow2. lia. }
  assert (Hps : 0 < 2 ^ s) by (apply Z.pow_pos_nonneg; lia).
  assert (HN : 0 < N) by (rewrite EN; apply Z.mul_pos_pos; lia).
  pose proof (Z_div_mod N (Zpos my) eq_refl) as Hdm.
  destruct (Z.div_eucl N (Zpos my)) as [q r] eqn:Edm.
  destruct Hdm as [Hdm Hr].
  assert (Eq : q = N / Zpos my) by (apply (Z.div_unique N (Zpos my) q r); lia).
  assert (Er : r = N mod Zpos my) by (apply (Z.mod_unique N (Zpos my) q r); lia).
  assert (Hq : 0 <= q) by (rewrite Eq; apply Z.div_pos; lia).
  exists q, e', (new_location (Zpos my) r).
  split; [reflexivity|]. split; [exact Hs|]. fold s. rewrite <- EN.
  split; [exact Eq|]. split.
  { intros H0. assert (Hr0 : r = 0) by (rewrite Er; exact H0). rewrite Hr0.
    unfold new_location, new_location_even, new_location_odd.
    destruct (Z.even (Zpos my)); reflexivity. }
  split; [exact Hq|].
  (* enough bits *)
  assert (Hf : e' <= Z.max (d1 + ex - (d2 + ey) - 53) (-1074)) by (subst e'; apply Z.le_min_l).
  change (fexp prec emax (Zdigits2 q + e')) with (Z.max (Zdigits2 q + e' - 53) (-1074)).
  destruct (Z.le_gt_cases e' (-1074)) as [Hmin|Hbig]; [lia|].
  assert (He' : e' <= d1 + ex - (d2 + ey) - 53) by lia.
  destruct (Zdigits2_bounds (Zpos mx) ltac:(lia)) as [Hlo1 _]. fold d1 in Hlo1.
  destruct (Zdigits2_bounds (Zpos my) ltac:(lia)) as [_ Hhi2]. fold d2 in Hhi2.
  assert (Hd1 : 0 < d1) by (subst d1; simpl; lia).
  assert (Hd2 : 0 < d2) by (subst d2; simpl; lia).
  assert (Hsb : d2 - d1 + 53 <= s) by (subst s; lia).
  assert (HNb : 2 ^ (d2 + 52) <= N).
  { rewrite EN.
    apply Z.le_trans with (2 ^ (d1 - 1) * 2 ^ s);
      [|apply Z.mul_le_mono_nonneg_r; lia].
    rewrite <- Z.pow_add_r by lia. apply Z.pow_le_mono_r; lia. }
  assert (Hq52 : 2 ^ 52 <= q).
  { rewrite Eq. apply Z.div_le_lower_bound; [lia|].
    apply Z.le_trans with (2 ^ d2 * 2 ^ 52); [apply Z.mul_le_mono_nonneg_r; lia|].
    rewrite <- Z.pow_add_r by lia. exact HNb. }
  assert (Hdq : 53 <= Zdigits2 q).
  { destruct (Zdigits2_bounds q ltac:(lia)) as [_ Hhi].
    destruct (Z.le_gt_cases 53 (Zdigits2 q)) as [|Hlt]; [assumption|].
    assert (Hdn : 0 <= Zdigits2 q) by (apply Zdigits2_nonneg; lia).
    assert (2 ^ Zdigits2 q <= 2 ^ 52) by (apply Z.pow_le_mono_r; lia). lia. }
  lia.
Qed.

(** The quotient, its truncation and its rounding, for finite operands
    and a bound [B] in units of [2^-1074]: what the bound lemmas below
    share. *)
Lemma SFdiv_finite_spec (sx sy : bool) (mx my : positive) (ex ey : Z) :
  -1074 <= ex -> -1074 <= ey ->
  exists (E A W m1 : Z),
    -1074 <= E /\ 0 < W /\ 0 <= A /\
    (E = -1074 \/ 2 ^ 52 <= A / W) /\
    A / W <= m1 <= A / W + 1 /\
    (A mod W = 0 -> m1 = A / W) /\
    (forall B : Z,
        (B * (Zpos my * 2 ^ (ey + 1074)) <= Zpos mx * 2 ^ (ex + 1074) * 2 ^ 1074 <->
         B * W <= A * 2 ^ (E + 1074)) /\
        (Zpos mx * 2 ^ (ex + 1074) * 2 ^ 1074 <= B * (Zpos my * 2 ^ (ey + 1074)) <->
         A * 2 ^ (E + 1074) <= B * W)) /\
    match SFdiv prec emax (S754_finite sx mx ex) (S754_finite sy my ey) with
    | S754_zero s' => s' = xorb sx sy /\ m1 = 0
    | S754_finite s' m e =>
        s' = xorb sx sy /\ Zpos m * 2 ^ (e + 1074) = m1 * 2 ^ (E + 1074)
    | S754_infinity s' => s' = xorb sx sy /\ 2 ^ 2098 <= m1 * 2 ^ (E + 1074)
    | S754_nan => False
    end.
Proof.
  intros Hex Hey.
  destruct (SFdiv_core_binary_spec mx my ex ey)
    as (q & e' & l & Hcore & Hs & Eq & Hl & Hq & Hbits).
  cbv beta iota delta [SFdiv]. rewrite Hcore.
  destruct (binary_round_aux_spec (xorb sx sy) q e' l Hq Hbits)
    as (m1 & Hb & Hexact & Hres).
  destruct (truncated_mantissa q e' Hq Hbits) as (HE & _ & Hcan).
  set (E := fexp prec emax (Zdigits2 q + e')) in *.
  set (k := E - e') in *. set (s := ex - ey - e') in *.
  assert (Hk : 0 <= k) by (subst k; lia).
  assert (Hpk : 0 < 2 ^ k) by (apply Z.pow_pos_nonneg; lia).
  assert (Hps : 0 < 2 ^ s) by (apply Z.pow_pos_nonneg; lia).
  set (A := Zpos mx * 2 ^ s) in *. set (W := Zpos my * 2 ^ k).
  assert (HW : 0 < W) by (subst W; apply Z.mul_pos_pos; lia).
  assert (HA : 0 <= A) by (subst A; apply Z.mul_nonneg_nonneg; lia).
  assert (Em : q / 2 ^ k = A / W).
  { rewrite Eq. unfold W. apply Z.div_div; lia. }
  rewrite Em in *.
  exists E, A, W, m1.
  split; [exact HE|]. split; [exact HW|]. split; [exact HA|].
  split; [exact Hcan|]. split; [exact Hb|]. split.
  { intros Hmod. apply Z.mod_divide in Hmod; [|lia]. destruct Hmod as [c Hc].
    assert (Hmy : A mod Zpos my = 0).
    { rewrite Hc. unfold W. replace (c * (Zpos my * 2 ^ k)) with (c * 2 ^ k * Zpos my) by ring.
      apply Z.mod_mul. lia. }
    assert (Hqc : q = c * 2 ^ k).
    { rewrite Eq, Hc. unfold W.
      replace (c * (Zpos my * 2 ^ k)) with (c * 2 ^ k * Zpos my) by ring.
      apply Z.div_mul. lia. }
    apply Hexact; [now apply Hl|]. rewrite Hqc. apply Z.mod_mul. lia. }
  split; [|exact Hres].
  intros B.
  set (ay := 2 ^ (ey + 1074)). set (ax := 2 ^ (ex + 1074)). set (P := 2 ^ (E + 1074)).
  assert (Hay : 0 < ay) by (apply Z.pow_pos_nonneg; lia).
  assert (Hpow : 2 ^ s * P * ay = ax * 2 ^ 1074 * 2 ^ k).
  { unfold P, ay, ax. rewrite <- !Z.pow_add_r by lia. f_equal. subst s k. lia. }
  assert (EL : B * W * ay = B * (Zpos my * ay) * 2 ^ k) by (unfold W; ring).
  assert (ER : A * P * ay = Zpos mx * ax * 2 ^ 1074 * 2 ^ k).
  { unfold A. replace (Zpos mx * 2 ^ s * P * ay) with (Zpos mx * (2 ^ s * P * ay)) by ring.
    rewrite Hpow. ring. }
  split; split; intros H.
  - apply (Z.mul_le_mono_pos_r _ _ ay); [exact Hay|]. rewrite EL, ER.
    apply Z.mul_le_mono_nonneg_r; lia.
  - apply (Z.mul_le_mono_pos_r _ _ (2 ^ k)); [exact Hpk|]. rewrite <- EL, <- ER.
    apply Z.mul_le_mono_nonneg_r; lia.
  - apply (Z.mul_le_mono_pos_r _ _ ay); [exact Hay|]. rewrite EL, ER.
    apply Z.mul_le_mono_nonneg_r; lia.
  - apply (Z.mul_le_mono_pos_r _ _ (2 ^ k)); [exact Hpk|]. rewrite <- EL, <- ER.
    apply Z.mul_le_mono_nonneg_r; lia.
Qed.

Lemma SFdiv_mag_lower (sx sy : bool) (mx my md : positive) (ex ey ed : Z) :
  -1074 <= ex -> -1074 <= ey -> -1074 <= ed -> Zpos md < 2 ^ 53 ->
  Zpos md * 2 ^ (ed + 1074) * (Zpos my * 2 ^ (ey + 1074))
  <= Zpos mx * 2 ^ (ex + 1074) * 2 ^ 1074 ->
  match SFdiv prec emax (S754_finite sx mx ex) (S754_finite sy my ey) with
  | S754_zero _ => False
  | S754_finite s' m e =>
      s' = xorb sx sy /\ Zpos md * 2 ^ (ed + 1074) <= Zpos m * 2 ^ (e + 1074)
  | S754_infinity s' => s' = xorb sx sy
  | S754_nan => False
  end.
Proof.
  intros Hex Hey Hed Hmd H.
  destruct (SFdiv_finite_spec sx sy mx my ex ey Hex Hey)
    as (E & A & W & m1 & HE & HW & HA & Hcan & Hb & _ & Hiff & Hres).
  apply (proj1 (Hiff _)) in H.
  pose proof (representable_lower md ed E A W Hed Hmd HE Hcan HW HA H) as Hlo.
  assert (HP : 0 < 2 ^ (E + 1074)) by (apply Z.pow_pos_nonneg; lia).
  assert (HD : 0 < Zpos md * 2 ^ (ed + 1074)).
  { apply Z.mul_pos_pos; [lia|]. apply Z.pow_pos_nonneg; lia. }
  assert (Hm1 : Zpos md * 2 ^ (ed + 1074) <= m1 * 2 ^ (E + 1074)).
  { apply Z.le_trans with (A / W * 2 ^ (E + 1074)); [exact Hlo|].
    apply Z.mul_le_mono_nonneg_r; lia. }
  destruct (SFdiv prec emax _ _) as [s'|s'| |s' m e].
  - destruct Hres as [_ ->]. lia.
  - tauto.
  - exact Hres.
  - destruct Hres as [-> Hv]. split; [reflexivity|]. now rewrite Hv.
Qed.

Lemma SFdiv_mag_upper (sx sy : bool) (mx my mu : positive) (ex ey eu : Z) :
  -1074 <= ex -> -1074 <= ey -> -1074 <= eu <= 971 -> Zpos mu < 2 ^ 53 ->
  Zpos mx * 2 ^ (ex + 1074) * 2 ^ 1074
  <= Zpos mu * 2 ^ (eu + 1074) * (Zpos my * 2 ^ (ey + 1074)) ->
  match SFdiv prec emax (S754_finite sx mx ex) (S754_finite sy my ey) with
  | S754_zero s' => s' = xorb sx sy
  | S754_finite s' m e =>
      s' = xorb sx sy /\ Zpos m * 2 ^ (e + 1074) <= Zpos mu * 2 ^ (eu + 1074)
  | S754_infinity _ => False
  | S754_nan => False
  end.
Proof.
  intros Hex Hey Heu Hmu H.
  destruct (SFdiv_finite_spec sx sy mx my ex ey Hex Hey)
    as (E & A & W & m1 & HE & HW & HA & Hcan & Hb & Hexact & Hiff & Hres).
  apply (proj2 (Hiff _)) in H.
  destruct (representable_upper mu eu E A W (proj1 Heu) Hmu HE Hcan HW HA H)
    as [Hup Hup'].
  assert (HP : 0 < 2 ^ (E + 1074)) by (apply Z.pow_pos_nonneg; lia).
  assert (Hm1 : m1 * 2 ^ (E + 1074) <= Zpos mu * 2 ^ (eu + 1074)).
  { destruct (Z.eq_dec (A mod W) 0) as [H0|Hn].
    - now rewrite (Hexact H0).
    - apply Z.le_trans with ((A / W + 1) * 2 ^ (E + 1074)); [|exact (Hup' Hn)].
      apply Z.mul_le_mono_nonneg_r; lia. }
  assert (HU : Zpos mu * 2 ^ (eu + 1074) < 2 ^ 2098).
  { change (2 ^ 2098) with (2 ^ 53 * 2 ^ 2045).
    assert (Hpu : 0 < 2 ^ (eu + 1074)) by (apply Z.pow_pos_nonneg; lia).
    assert (2 ^ (eu + 1074) <= 2 ^ 2045) by (apply Z.pow_le_mono_r; lia).
    apply Z.lt_le_trans with (2 ^ 53 * 2 ^ (eu + 1074));
      [apply Z.mul_lt_mono_pos_r; lia|apply Z.mul_le_mono_nonneg_l; lia]. }
  destruct (SFdiv prec emax _ _) as [s'|s'| |s' m e].
  - tauto.
  - destruct Hres as [_ Hinf]. lia.
  - exact Hres.
  - destruct Hres as [-> Hv]. split; [reflexivity|]. now rewrite Hv.
Qed.

(** A finite number [lo] with [lo * y <= S] in exact arithmetic is not
    above the quotient [S / y] as binary64 computes it, and a finite
    number [hi] with [S <= hi * y] is not below it. *)
Lemma SFdiv_not_below (lo S y : spec_float) :
  finite lo -> finite S -> pos_finite y ->
  valid_binary lo = true -> valid_binary S = true -> valid_binary y = true ->
  valid_binary (SFdiv prec emax S y) = true ->
  SFscaled lo * SFscaled y <= SFscaled S * 2 ^ 1074 ->
  SFleb lo (SFdiv prec emax S y) = true.
Proof.
  intros Hlo HS Hy Vlo VS Vy VR H.
  destruct y as [| | |[] my ey]; try contradiction.
  pose proof (valid_binary_bounds _ _ _ Vy) as (Hey & _ & _).
  pose proof (magnitude_pos my ey Hey) as HY.
  destruct S as [sx| | |sx mx ex]; try contradiction.
  - (* a zero sum *)
    assert (Hl : SFscaled lo <= 0) by (simpl in H; nia).
    destruct lo as [sl| | |sl ml el]; try contradiction; [destruct sx; reflexivity|].
    pose proof (valid_binary_bounds _ _ _ Vlo) as (Hel & _ & _).
    pose proof (magnitude_pos ml el Hel) as HL.
    destruct sl; [destruct sx; reflexivity|]. simpl in Hl. lia.
  - pose proof (valid_binary_bounds _ _ _ VS) as (Hex & _ & _).
    pose proof (magnitude_pos mx ex Hex) as HX.
    assert (HX' : 0 < Zpos mx * 2 ^ (ex + 1074) * 2 ^ 1074) by lia.
    destruct lo as [sl| | |sl ml el]; try contradiction.
    + (* lo is a zero: the sum is positive *)
      destruct sx; [simpl in H; lia|].
      pose proof (SFdiv_signed false false mx my ex ey) as Hs.
      destruct (SFdiv prec emax _ _) as [s'|s'| |s' m e];
        simpl in Hs; try contradiction; subst; reflexivity.
    + pose proof (valid_binary_bounds _ _ _ Vlo) as (Hel & Hml & _).
      pose proof (magnitude_pos ml el Hel) as HL.
      destruct sl, sx.
      * (* both negative *)
        assert (Hup : Zpos mx * 2 ^ (ex + 1074) * 2 ^ 1074
                      <= Zpos ml * 2 ^ (el + 1074) * (Zpos my * 2 ^ (ey + 1074)))
          by (simpl in H; lia).
        pose proof (SFdiv_mag_upper true false mx my ml ex ey el Hex Hey
                      (conj Hel (valid_binary_exponent _ _ _ Vlo)) Hml Hup) as Hr.
        destruct (SFdiv prec emax _ _) as [s'|s'| |s' m e] eqn:ER; try contradiction.
        { subst. reflexivity. }
        destruct Hr as [-> Hr]. unfold SFleb.
        rewrite SFcompare_scaled by first [exact I|assumption]. simpl.
        destruct (Z.compare_spec (- (Zpos ml * 2 ^ (el + 1074)))
                                 (- (Zpos m * 2 ^ (e + 1074)))); try reflexivity; lia.
      * (* lo negative, the sum positive *)
        pose proof (SFdiv_signed false false mx my ex ey) as Hs.
        destruct (SFdiv prec emax _ _) as [s'|s'| |s' m e];
          simpl in Hs; try contradiction; subst; reflexivity.
      * (* lo positive, the sum negative *)
        simpl in H. nia.
      * (* both positive *)
        assert (Hlow : Zpos ml * 2 ^ (el + 1074) * (Zpos my * 2 ^ (ey + 1074))
                       <= Zpos mx * 2 ^ (ex + 1074) * 2 ^ 1074)
          by (simpl in H; lia).
        pose proof (SFdiv_mag_lower false false mx my ml ex ey el Hex Hey Hel Hml Hlow)
          as Hr.
        destruct (SFdiv prec emax _ _) as [s'|s'| |s' m e] eqn:ER; try contradiction.
        { subst. reflexivity. }
        destruct Hr as [-> Hr]. unfold SFleb.
        rewrite SFcompare_scaled by first [exact I|assumption]. simpl.
        destruct (Z.compare_spec (Zpos ml * 2 ^ (el + 1074))
                                 (Zpos m * 2 ^ (e + 1074))); try reflexivity; lia.
Qed.

Lemma SFdiv_not_above (hi S y : spec_float) :
  finite hi -> finite S -> pos_finite y ->
  valid_binary hi = true -> valid_binary S = true -> valid_binary y = true ->
  valid_binary (SFdiv prec emax S y) = true ->
  SFscaled S * 2 ^ 1074 <= SFscaled hi * SFscaled y ->
  SFleb (SFdiv prec emax S y) hi = true.
Proof.
  intros Hhi HS Hy Vhi VS Vy VR H.
  destruct y as [| | |[] my ey]; try contradiction.
  pose proof (valid_binary_bounds _ _ _ Vy) as (Hey & _ & _).
  pose proof (magnitude_pos my ey Hey) as HY.
  destruct S as [sx| | |sx mx ex]; try contradiction.
  - (* a zero sum *)
    assert (Hl : 0 <= SFscaled hi) by (simpl in H; nia).
    destruct hi as [sh| | |sh mh eh]; try contradiction; [destruct sx; reflexivity|].
    pose proof (valid_binary_bounds _ _ _ Vhi) as (Heh & _ & _).
    pose proof (magnitude_pos mh eh Heh) as HH.
    destruct sh; [simpl in Hl; lia|destruct sx; reflexivity].
  - pose proof (valid_binary_bounds _ _ _ VS) as (Hex & _ & _).
    pose proof (magnitude_pos mx ex Hex) as HX.
    assert (HX' : 0 < Zpos mx * 2 ^ (ex + 1074) * 2 ^ 1074) by lia.
    destruct hi as [sh| | |sh mh eh]; try contradiction.
    + (* hi is a zero: the sum is negative *)
      destruct sx; [|simpl in H; lia].
      pose proof (SFdiv_signed true false mx my ex ey) as Hs.
      destruct (SFdiv prec emax _ _) as [s'|s'| |s' m e];
        simpl in Hs; try contradiction; subst; reflexivity.
    + pose proof (valid_binary_bounds _ _ _ Vhi) as (Heh & Hmh & _).
      pose proof (magnitude_pos mh eh Heh) as HH.
      destruct sh, sx.
      * (* both negative *)
        assert (Hlow : Zpos mh * 2 ^ (eh + 1074) * (Zpos my * 2 ^ (ey + 1074))
                       <= Zpos mx * 2 ^ (ex + 1074) * 2 ^ 1074)
          by (simpl in H; lia).
        pose proof (SFdiv_mag_lower true false mx my mh ex ey eh Hex Hey Heh Hmh Hlow)
          as Hr.
        destruct (SFdiv prec emax _ _) as [s'|s'| |s' m e] eqn:ER; try contradiction.
        { subst. reflexivity. }
        destruct Hr as [-> Hr]. unfold SFleb.
        rewrite SFcompare_scaled by first [exact I|assumption]. simpl.
        destruct (Z.compare_spec (- (Zpos m * 2 ^ (e + 1074)))
                                 (- (Zpos mh * 2 ^ (eh + 1074)))); try reflexivity; lia.
      * (* hi negative, the sum positive *)
        simpl in H. nia.
      * (* hi positive, the sum negative *)
        pose proof (SFdiv_signed true false mx my ex ey) as Hs.
        destruct (SFdiv prec emax _ _) as [s'|s'| |s' m e];
          simpl in Hs; try contradiction; subst; reflexivity.
      * (* both positive *)
        assert (Hup : Zpos mx * 2 ^ (ex + 1074) * 2 ^ 1074
                      <= Zpos mh * 2 ^ (eh + 1074) * (Zpos my * 2 ^ (ey + 1074)))
          by (simpl in H; lia).
        pose proof (SFdiv_mag_upper false false mx my mh ex ey eh Hex Hey
                      (conj Heh (valid_binary_exponent _ _ _ Vhi)) Hmh Hup) as Hr.
        destruct (SFdiv prec emax _ _) as [s'|s'| |s' m e] eqn:ER; try contradiction.
        { subst. reflexivity. }
        destruct Hr as [-> Hr]. unfold SFleb.
        rewrite SFcompare_scaled by first [exact I|assumption]. simpl.
        destruct (Z.compare_spec (Zpos m * 2 ^ (e + 1074))
                                 (Zpos mh * 2 ^ (eh + 1074))); try reflexivity; lia.
Qed.

End Division.

(** *** [x ** 2] *)

Section Pow2.
Context {rt : Runtime}.

Lemma isinf_signed (x : float) (s : bool) :
  signed s (Prim2SF x) -> isinf x = negb (isfinite x).
Proof. unfold isinf, isfinite. destruct (Prim2SF x); simpl; tauto || reflexivity. Qed.

Lemma abs_mul_self (x : float) : abs x * abs x = x * x.
Proof.
  apply Prim2SF_inj. rewrite !mul_spec, abs_spec.
  destruct (Prim2SF x) as [[]|[]| |[] m e]; reflexivity.
Qed.

(** The operand [float_pow] hands to the C library is [abs x]. *)
Lemma float_pow_operand (x : float) :
  nonnan (Prim2SF x) ->
  ((if x <? 0 then - x else x) =? 1) = (abs x =? 1) /\
  (finite (Prim2SF x) -> (x =? 0) = false -> (if x <? 0 then - x else x) = abs x).
Proof.
  intros Hn.
  assert (H : (x =? 0) = false -> finite (Prim2SF x) ->
              (if x <? 0 then - x else x) = abs x).
  { intros Hz Hf. apply Prim2SF_inj.
    rewrite FloatAxioms.eqb_spec in Hz. rewrite ltb_spec, abs_spec.
    change (Prim2SF 0) with (S754_zero false) in *.
    destruct (Prim2SF x) as [s|s| |s m e] eqn:E; try contradiction; try discriminate.
    destruct s; simpl; [rewrite opp_spec, E|rewrite E]; reflexivity. }
  split; [|auto].
  rewrite !FloatAxioms.eqb_spec, ltb_spec, abs_spec.
  change (Prim2SF 0) with (S754_zero false).
  destruct (Prim2SF x) as [[]|[]| |[] m e] eqn:E; try contradiction; simpl;
    rewrite ?opp_spec, ?E; reflexivity.
Qed.

(** The branches of [float_pow], by the class of the operand. *)
Lemma py_pow2_nan (x : float) : Prim2SF x = S754_nan -> py_pow2 x = Returned nan.
Proof.
  intros H. unfold py_pow2, isnan. rewrite H. now rewrite (Prim2SF_nan x H).
Qed.

Lemma py_pow2_infinity (x : float) (s : bool) :
  Prim2SF x = S754_infinity s -> py_pow2 x = Returned infinity.
Proof.
  intros H. unfold py_pow2, isnan, isinf. rewrite H. f_equal.
  apply Prim2SF_inj. rewrite abs_spec, H. reflexivity.
Qed.

Lemma py_pow2_zero (x : float) (s : bool) :
  Prim2SF x = S754_zero s -> py_pow2 x = Returned 0.
Proof.
  intros H. unfold py_pow2, isnan, isinf. rewrite H.
  rewrite FloatAxioms.eqb_spec, H. reflexivity.
Qed.

Lemma py_pow2_finite (x : float) (s : bool) (m : positive) (e : Z) :
  Prim2SF x = S754_finite s m e ->
  py_pow2 x =
  if abs x =? 1 then Returned 1
  else if isinf (libm_pow2 (abs x)) then Raised OverflowError
       else Returned (libm_pow2 (abs x)).
Proof.
  intros H.
  assert (Hn : nonnan (Prim2SF x)) by (rewrite H; exact I).
  assert (Hf : finite (Prim2SF x)) by (rewrite H; exact I).
  assert (Hz : (x =? 0) = false).
  { rewrite FloatAxioms.eqb_spec, H. destruct s; reflexivity. }
  destruct (float_pow_operand x Hn) as [H1 H2].
  unfold py_pow2, isnan, isinf. rewrite H, Hz. cbv zeta.
  rewrite H1. destruct (abs x =? 1); [reflexivity|].
  now rewrite (H2 Hf Hz).
Qed.

Lemma abs_finite (x : float) (s : bool) (m : positive) (e : Z) :
  Prim2SF x = S754_finite s m e ->
  Prim2SF (abs x) = S754_finite false m e /\
  isfinite (abs x) = true /\ (0 <? abs x) = true.
Proof.
  intros H.
  assert (E : Prim2SF (abs x) = S754_finite false m e) by (rewrite abs_spec, H; reflexivity).
  split; [exact E|]. split.
  - unfold isfinite. now rewrite E.
  - rewrite ltb_spec, E. reflexivity.
Qed.

(** A finite number of magnitude one has a finite square. *)
Lemma square_of_one (x : float) (s : bool) (m : positive) (e : Z) :
  Prim2SF x = S754_finite s m e -> (abs x =? 1) = true -> isfinite (x * x) = true.
Proof.
  intros H H1. rewrite FloatAxioms.eqb_spec, abs_spec, H in H1.
  change (Prim2SF 1) with (S754_finite false 4503599627370496 (-52)) in H1.
  unfold SFeqb, SFabs, SFcompare in H1.
  destruct (Z.compare_spec e (-52)) as [He|He|He]; try discriminate.
  change (Pos.compare_cont Eq) with Pos.compare in H1.
  destruct (Pos.compare_spec m 4503599627370496) as [Hm|Hm|Hm]; try discriminate.
  unfold isfinite. rewrite mul_spec, H, He, Hm.
  destruct s; reflexivity.
Qed.

(** [**] raises exactly when the correctly rounded square overflows, and
    then it is [OverflowError]. *)
Lemma py_pow2_overflows (x : float) :
  py_pow2 x =
  if pow2_overflows x then Raised OverflowError else Returned (float_pow2 x).
Proof.
  assert (Hret : forall y, py_pow2 x = Returned y -> pow2_overflows x = false ->
                           py_pow2 x = if pow2_overflows x then Raised OverflowError
                                       else Returned (float_pow2 x)).
  { intros y Hy Ho. rewrite Ho. unfold float_pow2. now rewrite Hy. }
  destruct (Prim2SF x) as [s|s| |s m e] eqn:E.
  - apply (Hret 0); [now apply (py_pow2_zero x s)|].
    unfold pow2_overflows, isfinite. rewrite mul_spec, E. reflexivity.
  - apply (Hret infinity); [now apply (py_pow2_infinity x s)|].
    unfold pow2_overflows, isfinite. now rewrite E.
  - apply (Hret nan); [now apply py_pow2_nan|].
    unfold pow2_overflows, isfinite. now rewrite E.
  - destruct (abs_finite x s m e E) as (Ea & Hfa & Hpa).
    pose proof (libm_pow2_signed (abs x) Hfa Hpa) as Hs.
    pose proof (libm_pow2_isfinite (abs x) Hfa Hpa) as Hi.
    rewrite abs_mul_self in Hi.
    assert (Ho : pow2_overflows x = negb (isfinite (x * x))).
    { unfold pow2_overflows. unfold isfinite at 1. now rewrite E. }
    destruct (abs x =? 1) eqn:H1.
    + apply (Hret 1); [now rewrite (py_pow2_finite x s m e E), H1|].
      now rewrite Ho, (square_of_one x s m e E H1).
    + destruct (isfinite (x * x)) eqn:Hxx.
      * apply (Hret (libm_pow2 (abs x))); [|now rewrite Ho].
        now rewrite (py_pow2_finite x s m e E), H1, (isinf_signed _ _ Hs), Hi.
      * rewrite Ho. simpl.
        now rewrite (py_pow2_finite x s m e E), H1, (isinf_signed _ _ Hs), Hi.
Qed.

Lemma py_pow2_Returned (x y : float) : py_pow2 x = Returned y -> y = float_pow2 x.
Proof. intros H. unfold float_pow2. now rewrite H. Qed.

Lemma py_pow2_Raised (x : float) (e : exn) : py_pow2 x = Raised e -> e = OverflowError.
Proof. rewrite py_pow2_overflows. destruct (pow2_overflows x); congruence. Qed.

Lemma py_pow2_nonfinite (x : float) :
  isfinite x = false -> py_pow2 x = Returned (float_pow2 x).
Proof.
  intros H. rewrite py_pow2_overflows. unfold pow2_overflows. now rewrite H.
Qed.

(** The square is never negative and never [-0.0]; it is a NaN only for a
    NaN. *)
Lemma float_pow2_plus_or_nan (x : float) : plus_or_nan (Prim2SF (float_pow2 x)).
Proof.
  unfold float_pow2.
  destruct (Prim2SF x) as [s|s| |s m e] eqn:E.
  - rewrite (py_pow2_zero x s E). reflexivity.
  - rewrite (py_pow2_infinity x s E). reflexivity.
  - rewrite (py_pow2_nan x E). exact I.
  - destruct (abs_finite x s m e E) as (Ea & Hfa & Hpa).
    pose proof (libm_pow2_signed (abs x) Hfa Hpa) as Hs.
    rewrite (py_pow2_finite x s m e E).
    destruct (abs x =? 1); [reflexivity|].
    destruct (isinf (libm_pow2 (abs x))); [reflexivity|].
    now apply signed_plus_or_nan.
Qed.

Lemma plus_or_nan_nonneg_or_nan (f : spec_float) : plus_or_nan f -> nonneg_or_nan f.
Proof. destruct f; simpl; auto. Qed.

Lemma float_pow2_nonneg_or_nan (x : float) : nonneg_or_nan (Prim2SF (float_pow2 x)).
Proof. apply plus_or_nan_nonneg_or_nan, float_pow2_plus_or_nan. Qed.

Lemma float_pow2_nonnan (x : float) :
  isnan x = false -> nonnan (Prim2SF (float_pow2 x)).
Proof.
  intros Hx. apply isnan_false in Hx. unfold float_pow2.
  destruct (Prim2SF x) as [s|s| |s m e] eqn:E; try contradiction.
  - rewrite (py_pow2_zero x s E). exact I.
  - rewrite (py_pow2_infinity x s E). exact I.
  - destruct (abs_finite x s m e E) as (Ea & Hfa & Hpa).
    pose proof (libm_pow2_signed (abs x) Hfa Hpa) as Hs.
    rewrite (py_pow2_finite x s m e E).
    destruct (abs x =? 1); [exact I|].
    destruct (isinf (libm_pow2 (abs x))); [exact I|].
    exact (signed_nonnan _ _ Hs).
Qed.

Lemma float_pow2_nonneg (x : float) :
  isnan x = false -> nonneg (Prim2SF (float_pow2 x)).
Proof.
  intros Hx. apply nonneg_or_nan_nonnan;
    [apply float_pow2_nonneg_or_nan|now apply float_pow2_nonnan].
Qed.

Lemma add_zero_r (x : float) : plus_or_nan (Prim2SF x) -> x + 0 = x.
Proof.
  intros H. apply Prim2SF_inj. rewrite add_spec.
  change (Prim2SF 0) with (S754_zero false).
  destruct (Prim2SF x) as [[]|[]| |[] m e]; simpl in H; try reflexivity; discriminate.
Qed.

Lemma float_pow2_add_zero (b : float) : float_pow2 b + 0 = float_pow2 b.
Proof. apply add_zero_r, float_pow2_plus_or_nan. Qed.

End Pow2.

(** *** The count as a float, and the quotient against exact bounds *)

Lemma binary_round_small (p : positive) :
  (Zpos p < 2 ^ 53)%Z ->
  exists (m : positive) (e : Z),
    binary_round prec emax false p 0 = S754_finite false m e /\
    (Zpos m * 2 ^ (e + 1074) = Zpos p * 2 ^ 1074)%Z.
Proof.
  intros Hp.
  pose proof (digits2_pos_lower p) as Hlo.
  assert (Hd : (Zpos (digits2_pos p) <= 53)%Z).
  { destruct (Z.le_gt_cases (Zpos (digits2_pos p)) 53) as [|Hgt]; [assumption|].
    assert (2 ^ 53 <= 2 ^ (Zpos (digits2_pos p) - 1))%Z by (apply Z.pow_le_mono_r; lia).
    lia. }
  unfold binary_round, shl_align, fexp, SpecFloat.emin.
  replace (Z.max (Zpos (digits2_pos p) + 0 - prec) (3 - emax - prec) - 0)%Z
    with (Zpos (digits2_pos p) - 53)%Z by (unfold prec, emax; lia).
  destruct (Zpos (digits2_pos p) - 53)%Z as [|k|k] eqn:Hk.
  - rewrite binary_round_aux_canonical; [|lia|lia]. eexists _, _.
    split; [reflexivity|]. reflexivity.
  - lia.
  - rewrite binary_round_aux_canonical;
      [|rewrite digits2_pos_iter_xO; lia|unfold prec, emax; lia].
    eexists _, _. split; [reflexivity|].
    rewrite iter_xO_pow2.
    replace (Z.max (Zpos (digits2_pos p) + 0 - prec) (3 - emax - prec) + 1074)%Z
      with (1074 - Zpos k)%Z by (unfold prec, emax; lia).
    rewrite <- Z.mul_assoc, <- Z.pow_add_r by lia. do 2 f_equal. lia.
Qed.

(** Up to [2^53] the count is converted exactly. *)
Lemma float_of_int_exact (n : nat) :
  (0 < n)%nat -> (Z.of_nat n < 2 ^ 53)%Z ->
  pos_finite (Prim2SF (float_of_int n)) /\
  scaled (float_of_int n) = (Z.of_nat n * 2 ^ 1074)%Z.
Proof.
  intros Hn Hb. unfold scaled, float_of_int.
  rewrite of_uint63_spec, Uint63.of_Z_spec.
  rewrite Z.mod_small by (split; [lia|]; apply Z.lt_trans with (2 ^ 53)%Z;
                          [exact Hb|reflexivity]).
  destruct (Z.of_nat n) as [|p|p] eqn:Hp; [lia| |lia].
  simpl binary_normalize.
  destruct (binary_round_small p Hb) as (m & e & -> & Hv).
  split; [exact I|exact Hv].
Qed.

Lemma div_not_below (lo S y : float) :
  isfinite lo = true -> isfinite S = true -> pos_finite (Prim2SF y) ->
  (scaled lo * scaled y <= scaled S * 2 ^ 1074)%Z ->
  (lo <=? S / y) = true.
Proof.
  intros Hlo HS Hy H. rewrite leb_spec, div_spec.
  apply SFdiv_not_below; auto using Prim2SF_valid;
    try (now apply isfinite_true).
  rewrite <- div_spec. apply Prim2SF_valid.
Qed.

Lemma div_not_above (hi S y : float) :
  isfinite hi = true -> isfinite S = true -> pos_finite (Prim2SF y) ->
  (scaled S * 2 ^ 1074 <= scaled hi * scaled y)%Z ->
  (S / y <=? hi) = true.
Proof.
  intros Hhi HS Hy H. rewrite leb_spec, div_spec.
  apply SFdiv_not_above; auto using Prim2SF_valid;
    try (now apply isfinite_true).
  rewrite <- div_spec. apply Prim2SF_valid.
Qed.

End FloatFacts.

(** ** The statistics function *)

Module NoiseAuditFacts.
Import Py NoiseAudit FloatClass PyFacts FloatFacts.

Local Open Scope float_scope.

Section WithRuntime.
Context {rt : Runtime}.

(** *** What a returned record is made of *)

Lemma squared_deviations_length (mean : float) (scores sq : list float) :
  squared_deviations mean scores = Returned sq -> length sq = length scores.
Proof. apply mapM_Returned_length. Qed.

Lemma squared_deviations_map (mean : float) (scores sq : list float) :
  squared_deviations mean scores = Returned sq ->
  sq = map (fun x => float_pow2 (x - mean)) scores.
Proof.
  intros H. apply mapM_Returned_Forall2 in H.
  induction H as [|x y l k Hxy H IH]; simpl; [reflexivity|].
  apply py_pow2_Returned in Hxy. congruence.
Qed.

Lemma variance_of_length (scores sq : list float) :
  length sq = length scores ->
  py_sum sq / float_of_int (length scores) = variance_of sq.
Proof. intros H. unfold variance_of. now rewrite H. Qed.

Lemma sorted_Permutation (scores : list float) : Permutation (sorted scores) scores.
Proof.
  unfold sorted. destruct (existsb isnan scores);
    [apply sort_with_nan_Permutation|apply sorted_by_Permutation].
Qed.

Lemma sorted_length (scores : list float) : length (sorted scores) = length scores.
Proof. apply Permutation_length, sorted_Permutation. Qed.

(** The function, run forward once the fallible steps are known. *)
Lemma calculate_noise_stats_eval (scores : list float) (target_value : option float)
      (sq : list float) (std_dev median : float) :
  scores <> [] ->
  squared_deviations (mean_of scores) scores = Returned sq ->
  math_sqrt (variance_of sq) = Returned std_dev ->
  py_getitem (sorted scores) (length scores / 2) = Returned median ->
  calculate_noise_stats scores target_value =
    let result :=
      statistics_record (mean_of scores) median std_dev (variance_of sq) scores in
    match target_value with
    | None => Returned result
    | Some target =>
        bias2 ← py_pow2 (mean_of scores - target);
        Returned (with_target (bias2 + variance_of sq) (mean_of scores - target) result)
    end.
Proof.
  intros Hne Hsq Hstd Hmed. destruct scores as [|x0 l]; [congruence|].
  set (scores := x0 :: l) in *.
  unfold calculate_noise_stats. fold scores.
  change (py_sum scores / float_of_int (length scores)) with (mean_of scores).
  rewrite Hsq. cbn [mbind outcome_bind].
  rewrite (variance_of_length scores sq (squared_deviations_length _ _ _ Hsq)).
  rewrite Hstd. cbn [mbind outcome_bind].
  rewrite Hmed. cbn [mbind outcome_bind].
  destruct target_value; reflexivity.
Qed.

(** A returned record, taken apart. *)
Lemma calculate_noise_stats_Returned (scores : list float) (target_value : option float)
      (r : gmap string pyval) :
  scores <> [] ->
  calculate_noise_stats scores target_value = Returned r ->
  exists (sq : list float) (std_dev median : float),
    squared_deviations (mean_of scores) scores = Returned sq /\
    math_sqrt (variance_of sq) = Returned std_dev /\
    py_getitem (sorted scores) (length scores / 2) = Returned median /\
    let result :=
      statistics_record (mean_of scores) median std_dev (variance_of sq) scores in
    match target_value with
    | None => r = result
    | Some target =>
        exists bias2, py_pow2 (mean_of scores - target) = Returned bias2 /\
          r = with_target (bias2 + variance_of sq) (mean_of scores - target) result
    end.
Proof.
  intros Hne H. destruct scores as [|x0 l]; [congruence|].
  set (scores := x0 :: l) in *.
  unfold calculate_noise_stats in H. fold scores in H.
  change (py_sum scores / float_of_int (length scores)) with (mean_of scores) in H.
  apply bind_Returned in H as (sq & Hsq & H).
  rewrite (variance_of_length scores sq (squared_deviations_length _ _ _ Hsq)) in H.
  apply bind_Returned in H as (std_dev & Hstd & H).
  apply bind_Returned in H as (median & Hmed & H).
  exists sq, std_dev, median. repeat (split; [assumption|]).
  destruct target_value as [target|]; cbv zeta.
  - apply bind_Returned in H as (bias2 & Hb & H).
    exists bias2. split; [assumption|]. unfold with_target, statistics_record. congruence.
  - unfold statistics_record. congruence.
Qed.

(** The only exception the function can raise is the [OverflowError] of
    [**], unless [math.sqrt] meets a negative variance. *)
Lemma calculate_noise_stats_Raised (scores : list float) (target_value : option float)
      (e : exn) :
  calculate_noise_stats scores target_value = Raised e ->
  e = OverflowError \/
  (e = ValueError /\ exists sq,
      squared_deviations (mean_of scores) scores = Returned sq /\
      math_sqrt (variance_of sq) = Raised ValueError).
Proof.
  intros H. destruct scores as [|x0 l]; [discriminate|].
  set (scores := x0 :: l) in *.
  unfold calculate_noise_stats in H. fold scores in H.
  change (py_sum scores / float_of_int (length scores)) with (mean_of scores) in H.
  apply bind_Raised in H as [H | (sq & Hsq & H)].
  { apply mapM_Raised in H as (x & _ & H). left. now apply py_pow2_Raised in H. }
  rewrite (variance_of_length scores sq (squared_deviations_length _ _ _ Hsq)) in H.
  apply bind_Raised in H as [H | (std_dev & _ & H)].
  { right. assert (e = ValueError) as ->
      by (unfold math_sqrt in H; destruct (_ <? 0); congruence). eauto. }
  destruct (py_getitem_lt (sorted scores) (length scores / 2)) as (m & Hget & _).
  { rewrite sorted_length. apply half_lt. simpl. lia. }
  rewrite Hget in H. cbn [mbind outcome_bind] in H.
  destruct target_value as [target|]; [|discriminate].
  apply bind_Raised in H as [H | (b2 & _ & H)]; [|discriminate].
  left. now apply py_pow2_Raised in H.
Qed.

Lemma math_sqrt_Returned (x y : float) : math_sqrt x = Returned y -> y = sqrt x.
Proof. unfold math_sqrt. destruct (x <? 0); congruence. Qed.

(** Without a NaN the sorted copy is the stable insertion sort. *)
Lemma sorted_nan_free (scores : list float) :
  Forall (fun x => isnan x = false) scores ->
  sorted scores = sorted_by PrimFloat.ltb scores.
Proof.
  intros H. unfold sorted.
  replace (existsb isnan scores) with false; [reflexivity|].
  symmetry. apply not_true_iff_false. intros He.
  apply existsb_exists in He as (x & Hx & Hn).
  rewrite Forall_forall in H. apply list_elem_of_In, H in Hx. congruence.
Qed.

Lemma sorted_Sorted (scores : list float) :
  Forall (fun x => isnan x = false) scores ->
  Sorted (fun a b => (b <? a) = false) (sorted scores).
Proof.
  intros H. rewrite (sorted_nan_free _ H).
  apply (sorted_by_Sorted PrimFloat.ltb ltb_asym).
Qed.

Lemma sorted_isnan (scores : list float) :
  Forall (fun x => isnan x = false) scores ->
  Forall (fun x => isnan x = false) (sorted scores).
Proof.
  intros H. eapply Permutation_Forall; [symmetry; apply sorted_Permutation|exact H].
Qed.

Lemma Sorted_leb (l : list float) :
  Forall (fun x => isnan x = false) l ->
  Sorted (fun a b => (b <? a) = false) l ->
  Sorted (fun a b => (a <=? b) = true) l.
Proof.
  intros Hn Hs. induction Hs as [|a l Hs IH Hh]; [constructor|].
  inversion_clear Hn as [|? ? Ha Hl]. constructor; [auto|].
  destruct Hh as [|b l Hab]; constructor.
  inversion_clear Hl. now apply ltb_false_leb.
Qed.

Lemma sorted_ascending (scores : list float) :
  Forall (fun x => isnan x = false) scores ->
  StronglySorted (fun a b => (a <=? b) = true) (sorted scores).
Proof.
  intros Hn. apply Sorted_StronglySorted.
  - intros a b c. apply leb_trans.
  - apply Sorted_leb; [apply sorted_isnan, Hn|apply sorted_Sorted, Hn].
Qed.

(** A list that is already ascending is its own sorted copy. *)
Lemma sorted_of_ascending (l : list float) :
  Forall (fun x => isnan x = false) l ->
  Sorted (fun a b => (a <=? b) = true) l -> sorted l = l.
Proof.
  intros Hn Hs. rewrite (sorted_nan_free _ Hn). clear Hn.
  induction Hs as [|a l Hs IH Hh]; simpl; [reflexivity|].
  rewrite IH. destruct Hh as [|b l Hab]; simpl; [reflexivity|].
  now rewrite (leb_ltb_false _ _ Hab).
Qed.

(** Every entry of a returned record, in terms of the unrounded
    quantities. *)
Lemma reported_fields (scores : list float) (target_value : option float)
      (r : gmap string pyval) :
  scores <> [] ->
  calculate_noise_stats scores target_value = Returned r ->
  exists (sq : list float) (median : float),
    squared_deviations (mean_of scores) scores = Returned sq /\
    math_sqrt (variance_of sq) = Returned (sqrt (variance_of sq)) /\
    sorted scores !! (length scores / 2)%nat = Some median /\
    r !! "mean" = Some (PyFloat (py_round2 (mean_of scores))) /\
    r !! "median" = Some (PyFloat median) /\
    r !! "std_dev" = Some (PyFloat (py_round2 (sqrt (variance_of sq)))) /\
    r !! "variance" = Some (PyFloat (py_round2 (variance_of sq))) /\
    r !! "raw_scores" = Some (PyList scores) /\
    r !! "mse" =
      (target ← target_value;
       Some (PyFloat (py_round2 (float_pow2 (mean_of scores - target)
                                 + variance_of sq)))) /\
    r !! "bias_component" =
      (target ← target_value; Some (PyFloat (py_round2 (mean_of scores - target)))) /\
    dom r = statistics_keys ∪ match target_value with
                              | Some _ => target_keys
                              | None => ∅
                              end.
Proof.
  intros Hne H.
  destruct (calculate_noise_stats_Returned _ _ _ Hne H)
    as (sq & std_dev & median & Hsq & Hstd & Hmed & Hr).
  cbv zeta in Hr.
  pose proof (math_sqrt_Returned _ _ Hstd) as ->.
  apply py_getitem_Returned in Hmed.
  exists sq, median. do 3 (split; [assumption|]).
  destruct target_value as [target|].
  - destruct Hr as (bias2 & Hb & ->).
    apply py_pow2_Returned in Hb as ->.
    repeat split; reflexivity.
  - subst r. repeat split; reflexivity.
Qed.

(** *** Signs along the computation *)

Lemma float_of_len_pos_finite (scores : list float) :
  scores <> [] -> (Z.of_nat (length scores) < 2 ^ 63)%Z ->
  pos_finite (Prim2SF (float_of_int (length scores))).
Proof.
  intros Hne Hb. apply float_of_int_pos_finite; [|exact Hb].
  destruct scores; [congruence|simpl; lia].
Qed.

Lemma mean_of_nonnan (scores : list float) :
  scores <> [] -> (Z.of_nat (length scores) < 2 ^ 63)%Z ->
  Forall (fun x => isfinite x = true) scores ->
  isnan (mean_of scores) = false.
Proof.
  intros Hne Hb Hfin. unfold mean_of. apply div_nonnan.
  - apply isnan_false, py_sum_nonnan, Hfin.
  - now apply float_of_len_pos_finite.
Qed.

Lemma squared_deviations_nonneg_or_nan (mean : float) (scores sq : list float) :
  squared_deviations mean scores = Returned sq ->
  Forall (fun y => nonneg_or_nan (Prim2SF y)) sq.
Proof.
  intros H. rewrite (squared_deviations_map _ _ _ H).
  apply Forall_map, Forall_forall. intros x _. apply float_pow2_nonneg_or_nan.
Qed.

Lemma squared_deviations_nonneg (mean : float) (scores sq : list float) :
  isnan mean = false -> Forall (fun x => isfinite x = true) scores ->
  squared_deviations mean scores = Returned sq ->
  Forall (fun y => nonneg (Prim2SF y)) sq.
Proof.
  intros Hm Hfin H. rewrite (squared_deviations_map _ _ _ H).
  apply Forall_map. eapply Forall_impl; [exact Hfin|].
  intros x Hx. simpl. apply float_pow2_nonneg, sub_nonnan; assumption.
Qed.

Lemma variance_of_nonneg_or_nan (scores sq : list float) :
  scores <> [] -> (Z.of_nat (length scores) < 2 ^ 63)%Z ->
  squared_deviations (mean_of scores) scores = Returned sq ->
  nonneg_or_nan (Prim2SF (variance_of sq)).
Proof.
  intros Hne Hb H. unfold variance_of.
  rewrite (squared_deviations_length _ _ _ H).
  apply div_nonneg_or_nan; [|now apply float_of_len_pos_finite].
  eapply py_sum_nonneg_or_nan, squared_deviations_nonneg_or_nan, H.
Qed.

Lemma variance_of_nonneg (scores sq : list float) :
  scores <> [] -> (Z.of_nat (length scores) < 2 ^ 63)%Z ->
  Forall (fun x => isfinite x = true) scores ->
  squared_deviations (mean_of scores) scores = Returned sq ->
  nonneg (Prim2SF (variance_of sq)).
Proof.
  intros Hne Hb Hfin H. unfold variance_of.
  rewrite (squared_deviations_length _ _ _ H).
  apply div_nonneg; [|now apply float_of_len_pos_finite].
  eapply py_sum_nonneg, squared_deviations_nonneg; [|exact Hfin|exact H].
  now apply mean_of_nonnan.
Qed.

(** *** When the function returns *)

(** For a non-empty list the function returns a record when no square
    overflows, and raises [OverflowError] otherwise. *)
Lemma calculate_noise_stats_total (scores : list float) (target_value : option float) :
  scores <> [] -> (Z.of_nat (length scores) < 2 ^ 63)%Z ->
  if no_overflow scores target_value
  then exists r, calculate_noise_stats scores target_value = Returned r
  else calculate_noise_stats scores target_value = Raised OverflowError.
Proof.
  intros Hne Hb.
  destruct (no_overflow scores target_value) eqn:Hno.
  - unfold no_overflow in Hno. apply andb_true_iff in Hno as [Hsq Hbias].
    rewrite forallb_forall in Hsq.
    assert (Hmap : squared_deviations (mean_of scores) scores
                   = Returned (map (fun x => float_pow2 (x - mean_of scores)) scores)).
    { apply mapM_Returned_map, Forall_forall. intros x Hx.
      apply list_elem_of_In, Hsq in Hx. rewrite py_pow2_overflows.
      now destruct (pow2_overflows _). }
    pose proof (math_sqrt_nonneg_or_nan _
                  (variance_of_nonneg_or_nan _ _ Hne Hb Hmap)) as Hstd.
    destruct (py_getitem_lt (sorted scores) (length scores / 2)) as (m & Hget & _).
    { rewrite sorted_length. apply half_lt.
      destruct scores; [congruence|simpl; lia]. }
    rewrite (calculate_noise_stats_eval _ _ _ _ _ Hne Hmap Hstd Hget). cbv zeta.
    destruct target_value as [target|]; [|eauto].
    rewrite py_pow2_overflows. destruct (pow2_overflows _); [discriminate|].
    cbn [mbind outcome_bind]. eauto.
  - destruct (calculate_noise_stats scores target_value) as [r|e] eqn:H.
    + exfalso. apply (calculate_noise_stats_Returned _ _ _ Hne) in H
        as (sq & std_dev & median & Hsq & _ & _ & Hr). cbv zeta in Hr.
      unfold no_overflow in Hno. apply andb_false_iff in Hno as [Hno|Hno].
      * apply not_true_iff_false in Hno. apply Hno, forallb_forall. intros x Hx.
        destruct (mapM_Returned_In _ _ _ x Hsq Hx) as (y & Hy).
        rewrite py_pow2_overflows in Hy. now destruct (pow2_overflows _).
      * destruct target_value as [target|]; [|discriminate].
        destruct Hr as (bias2 & Hb2 & _).
        rewrite py_pow2_overflows in Hb2. now destruct (pow2_overflows _).
    + apply calculate_noise_stats_Raised in H as [->|(_ & sq & Hsq & Hs)];
        [reflexivity|].
      rewrite math_sqrt_nonneg_or_nan in Hs; [discriminate|].
      now apply (variance_of_nonneg_or_nan scores).
Qed.

(** *** Reordering the scores *)

(** The sorted copies of two orders of a NaN-free list hold, position by
    position, items that compare equal. *)
Lemma sorted_Permutation_eqb (scores scores' : list float) (i : nat) (m m' : float) :
  Permutation scores scores' ->
  Forall (fun x => isnan x = false) scores ->
  sorted scores !! i = Some m -> sorted scores' !! i = Some m' ->
  (m =? m') = true.
Proof.
  intros Hp Hn Hm Hm'.
  assert (Hn' : Forall (fun x => isnan x = false) scores')
    by (eapply Permutation_Forall; [exact Hp|exact Hn]).
  rewrite (sorted_nan_free _ Hn) in Hm. rewrite (sorted_nan_free _ Hn') in Hm'.
  pose proof (sorted_by_tied PrimFloat.ltb (fun x => isnan x = false)
                ltb_asym ltb_negtrans scores scores' Hp Hn) as H2.
  destruct (Forall2_lookup_lr _ _ _ _ _ _ H2 Hm Hm') as (Ha & Hb & H1 & H3).
  now apply ltb_false_eqb.
Qed.

(** Every ascending permutation of a NaN-free list has, at each position,
    an item that compares equal to the one of the sorted copy. *)
Lemma ascending_Permutation_eqb (scores s : list float) (i : nat) (m m' : float) :
  Permutation s scores ->
  Forall (fun x => isnan x = false) scores ->
  Sorted (fun a b => (a <=? b) = true) s ->
  sorted scores !! i = Some m -> s !! i = Some m' ->
  (m =? m') = true.
Proof.
  intros Hp Hn Hs Hm Hm'.
  assert (Hns : Forall (fun x => isnan x = false) s)
    by (eapply Permutation_Forall; [symmetry; exact Hp|exact Hn]).
  rewrite <- (sorted_of_ascending s Hns Hs) in Hm'.
  exact (sorted_Permutation_eqb _ _ _ _ _ (Permutation_sym Hp) Hn Hm Hm').
Qed.

Lemma mean_of_Permutation (scores scores' : list float) :
  Permutation scores scores' -> py_sum scores' = py_sum scores ->
  mean_of scores' = mean_of scores.
Proof.
  intros Hp Hs. unfold mean_of. now rewrite Hs, (Permutation_length Hp).
Qed.

Lemma sum_squared_deviations_Returned (scores : list float) (s : float) :
  sum_squared_deviations scores = Returned s <->
  exists sq, squared_deviations (mean_of scores) scores = Returned sq /\ py_sum sq = s.
Proof.
  unfold sum_squared_deviations. split.
  - intros H. apply bind_Returned in H as (sq & Hsq & H).
    exists sq. split; [assumption|]. now injection H.
  - intros (sq & -> & <-). reflexivity.
Qed.

(** The reported mean of a call that overflows nowhere. *)
Lemma reported_mean_of (scores : list float) (target_value : option float) :
  scores <> [] -> (Z.of_nat (length scores) < 2 ^ 63)%Z ->
  no_overflow scores target_value = true ->
  reported "mean" (calculate_noise_stats scores target_value)
  = Some (PyFloat (py_round2 (mean_of scores))).
Proof.
  intros Hne Hb Hno.
  pose proof (calculate_noise_stats_total scores target_value Hne Hb) as H.
  rewrite Hno in H. destruct H as (r & Hr). rewrite Hr. simpl.
  destruct (reported_fields _ _ _ Hne Hr) as (sq & m & _ & _ & _ & Hmean & _).
  exact Hmean.
Qed.
(** *** The shape of the result *)

(** C4: an empty list of scores is answered by the error record
    [{"error": "No scores provided"}], with or without a target; nothing is
    raised, and the record has none of the statistics keys. *)
Theorem empty_scores_error (target_value : option float) :
  exists r : gmap string pyval,
    calculate_noise_stats [] target_value = Returned r /\
    r = {[ "error" := PyStr "No scores provided" ]} /\
    dom r = {[ "error" ]} /\
    dom r ∩ (statistics_keys ∪ target_keys) = ∅.
Proof.
  eexists. split; [reflexivity|]. repeat split; reflexivity.
Qed.

(** C3: the record returned for a non-empty list has the keys [mean],
    [median], [std_dev], [variance] and [raw_scores], and has [mse] and
    [bias_component] exactly when a target was given. *)
Theorem result_keys (scores : list float) (target_value : option float)
        (r : gmap string pyval) :
  scores <> [] ->
  calculate_noise_stats scores target_value = Returned r ->
  statistics_keys ⊆ dom r /\
  ("mse" ∈ dom r <-> is_Some target_value) /\
  ("bias_component" ∈ dom r <-> is_Some target_value) /\
  dom r = statistics_keys ∪ match target_value with
                            | Some _ => target_keys
                            | None => ∅
                            end.
Proof.
  intros Hne H.
  destruct (reported_fields _ _ _ Hne H)
    as (sq & median & _ & _ & _ & _ & _ & _ & _ & _ & Hmse & Hbias & Hdom).
  split; [rewrite Hdom; apply union_subseteq_l|].
  rewrite !elem_of_dom, Hmse, Hbias.
  split; [|split; [|exact Hdom]];
    destruct target_value; simpl; split; intros [? [=]]; eauto.
Qed.

(** C6: [raw_scores] holds the input list itself: the same items in the
    same order, not rounded. *)
Theorem raw_scores_verbatim (scores : list float) (target_value : option float)
        (r : gmap string pyval) :
  scores <> [] ->
  calculate_noise_stats scores target_value = Returned r ->
  r !! "raw_scores" = Some (PyList scores).
Proof.
  intros Hne H.
  destruct (reported_fields _ _ _ Hne H)
    as (sq & median & _ & _ & _ & _ & _ & _ & _ & Hraw & _).
  exact Hraw.
Qed.

(** *** The median *)

(** C1: the reported median is the item at index [n // 2] of the sorted
    copy of the scores, [n] being their number, whatever the scores are.
    The sorted copy is a permutation of the scores. When no score is a NaN
    it is ascending, and every ascending permutation of the scores has an
    equal item at that index, so the median does not depend on how
    [sorted] sorts; with a NaN among the scores the order of the sorted
    copy is the runtime's. *)
Theorem median_is_middle_of_sorted (scores : list float) (target_value : option float)
        (r : gmap string pyval) :
  scores <> [] ->
  calculate_noise_stats scores target_value = Returned r ->
  exists m : float,
    r !! "median" = Some (PyFloat m) /\
    sorted scores !! (length scores / 2)%nat = Some m /\
    Permutation (sorted scores) scores /\
    (Forall (fun x => isnan x = false) scores ->
     Sorted (fun a b => (b <? a) = false) (sorted scores) /\
     StronglySorted (fun a b => (a <=? b) = true) (sorted scores) /\
     forall s : list float,
       Permutation s scores -> Sorted (fun a b => (a <=? b) = true) s ->
       exists m' : float,
         s !! (length scores / 2)%nat = Some m' /\ (m =? m') = true).
Proof.
  intros Hne H.
  destruct (reported_fields _ _ _ Hne H)
    as (sq & median & _ & _ & Hmed & _ & Hr & _).
  exists median. do 2 (split; [assumption|]).
  split; [apply sorted_Permutation|].
  intros Hn. split; [now apply sorted_Sorted|].
  split; [now apply sorted_ascending|].
  intros s Hp Hs.
  destruct (lookup_lt_is_Some_2 s (length scores / 2)) as [m' Hm'].
  { rewrite (Permutation_length Hp). apply half_lt.
    destruct scores; [congruence|simpl; lia]. }
  exists m'. split; [exact Hm'|].
  exact (ascending_Permutation_eqb _ _ _ _ _ Hp Hn Hs Hmed Hm').
Qed.

(** C10: for a non-empty list the index [n // 2] is below [n], so the
    lookup in the sorted copy succeeds and never raises [IndexError]; the
    median it yields is one of the scores. *)
Theorem median_lookup_safe (scores : list float) :
  scores <> [] ->
  (length scores / 2 < length scores)%nat /\
  (exists m : float,
      py_getitem (sorted scores) (length scores / 2) = Returned m /\
      In m scores /\
      forall (target_value : option float) (r : gmap string pyval),
        calculate_noise_stats scores target_value = Returned r ->
        r !! "median" = Some (PyFloat m)) /\
  (forall target_value : option float,
      calculate_noise_stats scores target_value <> Raised IndexError).
Proof.
  intros Hne.
  assert (Hlt : (length scores / 2 < length scores)%nat).
  { apply half_lt. destruct scores; [congruence|simpl; lia]. }
  split; [exact Hlt|].
  destruct (py_getitem_lt (sorted scores) (length scores / 2)) as (m & Hget & Hm).
  { now rewrite sorted_length. }
  split.
  - exists m. split; [exact Hget|]. split.
    + apply (Permutation_in _ (sorted_Permutation scores)).
      eapply list_elem_of_In, list_elem_of_lookup_2, Hm.
    + intros target_value r H.
      destruct (reported_fields _ _ _ Hne H)
        as (sq & median & _ & _ & Hmed & _ & Hr & _).
      congruence.
  - intros target_value H.
    apply calculate_noise_stats_Raised in H as [H | [H _]]; discriminate.
Qed.

(** *** Mean, variance and standard deviation *)



(** *** Safety of the square root *)

(** C9: the variance is a sum of squares divided by the positive count,
    so [math.sqrt] is never given a negative argument and never raises
    [ValueError]; for finite scores the variance is not below zero, and
    neither are the reported [variance] and [std_dev]. The count is below
    [2^63], the limit of a CPython list. *)
Theorem variance_nonneg_sqrt_safe (scores : list float) :
  scores <> [] ->
  (Z.of_nat (length scores) < 2 ^ 63)%Z ->
  (forall sq : list float,
      squared_deviations (mean_of scores) scores = Returned sq ->
      (variance_of sq <? 0) = false /\
      math_sqrt (variance_of sq) = Returned (sqrt (variance_of sq))) /\
  (forall target_value : option float,
      calculate_noise_stats scores target_value <> Raised ValueError) /\
  (Forall (fun x => isfinite x = true) scores ->
   (forall sq : list float,
       squared_deviations (mean_of scores) scores = Returned sq ->
       (0 <=? variance_of sq) = true /\ (0 <=? sqrt (variance_of sq)) = true) /\
   (forall (target_value : option float) (r : gmap string pyval),
       calculate_noise_stats scores target_value = Returned r ->
       exists v s : float,
         r !! "variance" = Some (PyFloat v) /\
         r !! "std_dev" = Some (PyFloat s) /\
         (0 <=? v) = true /\ (0 <=? s) = true)).
Proof.
  intros Hne Hb.
  split; [|split].
  - intros sq H.
    pose proof (variance_of_nonneg_or_nan scores sq Hne Hb H) as Hv.
    split; [now apply ltb_zero_nonneg_or_nan|now apply math_sqrt_nonneg_or_nan].
  - intros target_value H.
    apply calculate_noise_stats_Raised in H as [H | (_ & sq & H1 & H2)]; [discriminate|].
    rewrite math_sqrt_nonneg_or_nan in H2; [discriminate|].
    now apply (variance_of_nonneg_or_nan scores).
  - intros Hfin.
    assert (Hsq : forall sq, squared_deviations (mean_of scores) scores = Returned sq ->
                             nonneg (Prim2SF (variance_of sq)))
      by (intros sq; now apply variance_of_nonneg).
    split.
    + intros sq H. specialize (Hsq sq H).
      split; [now apply leb_zero_nonneg|now apply leb_zero_nonneg, sqrt_nonneg].
    + intros target_value r H.
      destruct (reported_fields _ _ _ Hne H)
        as (sq & median & H1 & _ & _ & _ & _ & Hstd & Hvar & _).
      specialize (Hsq sq H1).
      eexists _, _. split; [exact Hvar|]. split; [exact Hstd|].
      split; apply leb_zero_nonneg, py_round2_nonneg; [|apply sqrt_nonneg]; exact Hsq.
Qed.

(** *** The order of the scores *)

(** C7, amended: when a list is reordered, the two records have the same
    keys and each its own input as [raw_scores]; without NaN among the
    scores their medians compare equal; and [mean], [std_dev], [variance],
    [mse] and [bias_component] are the same whenever the reordering leaves
    the floating-point sum of the scores and that of the squared
    deviations unchanged. *)
Theorem permutation_invariance (scores scores' : list float)
        (target_value : option float) (r : gmap string pyval) :
  scores <> [] ->
  Permutation scores scores' ->
  calculate_noise_stats scores target_value = Returned r ->
  (forall r' : gmap string pyval,
      calculate_noise_stats scores' target_value = Returned r' ->
      dom r' = dom r /\
      r !! "raw_scores" = Some (PyList scores) /\
      r' !! "raw_scores" = Some (PyList scores') /\
      (Forall (fun x => isnan x = false) scores ->
       exists m m' : float,
         r !! "median" = Some (PyFloat m) /\
         r' !! "median" = Some (PyFloat m') /\
         (m =? m') = true)) /\
  (py_sum scores' = py_sum scores ->
   sum_squared_deviations scores' = sum_squared_deviations scores ->
   exists r' : gmap string pyval,
     calculate_noise_stats scores' target_value = Returned r' /\
     r' !! "mean" = r !! "mean" /\
     r' !! "std_dev" = r !! "std_dev" /\
     r' !! "variance" = r !! "variance" /\
     r' !! "mse" = r !! "mse" /\
     r' !! "bias_component" = r !! "bias_component").
Proof.
  intros Hne Hp H.
  assert (Hne' : scores' <> []).
  { intros ->. apply Permutation_sym, Permutation_nil in Hp. congruence. }
  pose proof (Permutation_length Hp) as Hlen.
  split.
  - intros r' H'.
    destruct (reported_fields _ _ _ Hne H)
      as (sq & m & _ & _ & Hm & _ & Hmed & _ & _ & Hraw & _ & _ & Hdom).
    destruct (reported_fields _ _ _ Hne' H')
      as (sq' & m' & _ & _ & Hm' & _ & Hmed' & _ & _ & Hraw' & _ & _ & Hdom').
    split; [congruence|]. do 2 (split; [assumption|]).
    intros Hn. exists m, m'. do 2 (split; [assumption|]).
    rewrite <- Hlen in Hm'. exact (sorted_Permutation_eqb _ _ _ _ _ Hp Hn Hm Hm').
  - intros Hsum Hss.
    destruct (calculate_noise_stats_Returned _ _ _ Hne H)
      as (sq & std_dev & m & Hsq & Hstd & _ & Hr).
    cbv zeta in Hr.
    pose proof (mean_of_Permutation _ _ Hp Hsum) as Hmean.
    assert (Hs : sum_squared_deviations scores = Returned (py_sum sq))
      by (apply sum_squared_deviations_Returned; eauto).
    rewrite <- Hss in Hs.
    apply sum_squared_deviations_Returned in Hs as (sq' & Hsq' & Hsum').
    assert (Hvar : variance_of sq' = variance_of sq).
    { unfold variance_of. rewrite Hsum'.
      rewrite (squared_deviations_length _ _ _ Hsq), (squared_deviations_length _ _ _ Hsq').
      now rewrite Hlen. }
    destruct (py_getitem_lt (sorted scores') (length scores' / 2)) as (m' & Hget' & _).
    { rewrite sorted_length. apply half_lt. destruct scores'; [congruence|simpl; lia]. }
    rewrite <- Hvar in Hstd.
    rewrite (calculate_noise_stats_eval scores' target_value sq' std_dev m'
               Hne' Hsq' Hstd Hget').
    cbv zeta. rewrite Hmean, Hvar.
    destruct target_value as [target|].
    + destruct Hr as (bias2 & Hb & ->). rewrite Hb. cbn [mbind outcome_bind].
      eexists. split; [reflexivity|]. repeat split; reflexivity.
    + subst r. eexists. split; [reflexivity|]. repeat split; reflexivity.
Qed.

(** *** The range of the mean *)

(** C8, amended: for fewer than [2^53] finite scores with a finite
    floating-point sum [S], the computed mean [S / n] is not below
    [min(scores)] when [n * min(scores) <= S], and not above
    [max(scores)] when [S <= n * max(scores)], the products taken
    exactly: the division is rounded, yet it cannot pass a score. In
    particular the mean lies within [min(scores), max(scores)] whenever
    the sum is exact. Only a sum rounded out of [n * min, n * max] can
    take the mean out of the range. *)
Theorem mean_within_range_of_sum (scores : list float) :
  scores <> [] ->
  (Z.of_nat (length scores) < 2 ^ 53)%Z ->
  Forall (fun x => isfinite x = true) scores ->
  isfinite (py_sum scores) = true ->
  exists lo hi : float,
    py_min scores = Returned lo /\ py_max scores = Returned hi /\
    (sum_not_below scores lo = true -> (lo <=? mean_of scores) = true) /\
    (sum_not_above scores hi = true -> (mean_of scores <=? hi) = true) /\
    (sum_is_exact scores = true ->
     (lo <=? mean_of scores) = true /\ (mean_of scores <=? hi) = true).
Proof.
  intros Hne Hb Hfin HS.
  destruct (py_min_spec scores Hne Hfin) as (lo & Hlo & Hflo & Hall_lo).
  destruct (py_max_spec scores Hne Hfin) as (hi & Hhi & Hfhi & Hall_hi).
  assert (Hn : (0 < length scores)%nat) by (destruct scores; [congruence|simpl; lia]).
  destruct (float_of_int_exact (length scores) Hn Hb) as [Hy Ey].
  assert (Hp : (0 < 2 ^ 1074)%Z) by (apply Z.pow_pos_nonneg; lia).
  assert (Hbelow : (Z.of_nat (length scores) * scaled lo <= scaled (py_sum scores))%Z ->
                   (lo <=? mean_of scores) = true).
  { intros H. unfold mean_of. apply div_not_below; try assumption.
    rewrite Ey.
    replace (scaled lo * (Z.of_nat (length scores) * 2 ^ 1074))%Z
      with (Z.of_nat (length scores) * scaled lo * 2 ^ 1074)%Z by ring.
    apply Z.mul_le_mono_nonneg_r; lia. }
  assert (Habove : (scaled (py_sum scores) <= Z.of_nat (length scores) * scaled hi)%Z ->
                   (mean_of scores <=? hi) = true).
  { intros H. unfold mean_of. apply div_not_above; try assumption.
    rewrite Ey.
    replace (scaled hi * (Z.of_nat (length scores) * 2 ^ 1074))%Z
      with (Z.of_nat (length scores) * scaled hi * 2 ^ 1074)%Z by ring.
    apply Z.mul_le_mono_nonneg_r; lia. }
  exists lo, hi. do 2 (split; [assumption|]).
  split; [intros H; apply Hbelow, Z.leb_le, H|].
  split; [intros H; apply Habove, Z.leb_le, H|].
  intros Hex. unfold sum_is_exact in Hex. apply andb_true_iff in Hex as [_ Hex].
  apply Z.eqb_eq in Hex.
  pose proof (sum_scaled_ge scores _ Hall_lo) as Hge.
  pose proof (sum_scaled_le scores _ Hall_hi) as Hle.
  rewrite <- Hex in Hge, Hle. auto.
Qed.

(** ** Further properties of [calculate_noise_stats] *)

(** *** Returning and raising *)

(** X1: a call on a non-empty list returns a record when no square leaves the
    binary64 range and raises [OverflowError] otherwise; it raises nothing
    else. *)
Theorem returns_unless_overflow (scores : list float) (target_value : option float) :
  scores <> [] ->
  (Z.of_nat (length scores) < 2 ^ 63)%Z ->
  (no_overflow scores target_value = true <->
   exists r, calculate_noise_stats scores target_value = Returned r) /\
  (no_overflow scores target_value = false <->
   calculate_noise_stats scores target_value = Raised OverflowError) /\
  (forall e, calculate_noise_stats scores target_value = Raised e -> e = OverflowError).
Proof.
  intros Hne Hb.
  pose proof (calculate_noise_stats_total scores target_value Hne Hb) as H.
  destruct (no_overflow scores target_value).
  - destruct H as (r & Hr). rewrite Hr.
    split; [split; eauto|]. split; [split; discriminate|discriminate].
  - rewrite H. split; [split; [discriminate|intros (r & [=])]|].
    split; [split; reflexivity|]. congruence.
Qed.

(** X2: a returned record has the key [error] exactly when the list of scores
    was empty, so a caller can tell the two kinds of record apart by that
    key alone. *)
Theorem error_key_iff_empty (scores : list float) (target_value : option float)
        (r : gmap string pyval) :
  calculate_noise_stats scores target_value = Returned r ->
  ("error" ∈ dom r <-> scores = []) /\
  (scores = [] -> r !! "error" = Some (PyStr "No scores provided")) /\
  (scores <> [] -> r !! "error" = None).
Proof.
  intros H. destruct scores as [|x l].
  - injection H as <-. split; [|split]; [|reflexivity|congruence].
    split; [reflexivity|]. intros _. apply elem_of_dom. eexists. reflexivity.
  - assert (Hne : x :: l <> []) by discriminate.
    destruct (reported_fields _ _ _ Hne H)
      as (sq & median & _ & _ & _ & _ & _ & _ & _ & _ & _ & _ & Hdom).
    assert (Hnone : r !! "error" = None).
    { apply not_elem_of_dom. rewrite Hdom.
      destruct target_value; intros Hin; vm_compute in Hin; discriminate. }
    split; [|split]; [|congruence|auto].
    split; [|discriminate]. intros Hin. apply elem_of_dom in Hin as [v Hv]. congruence.
Qed.

(** *** The target *)

(** X3: a target changes nothing but the two entries it adds: when the call
    with a target returns, the call without one returns as well, and the
    record with the target is that one with [mse] and [bias_component]
    put in, two keys it did not have. *)
Theorem target_only_adds_entries (scores : list float) (target : float)
        (r' : gmap string pyval) :
  scores <> [] ->
  calculate_noise_stats scores (Some target) = Returned r' ->
  exists (r : gmap string pyval) (mse bias : float),
    calculate_noise_stats scores None = Returned r /\
    r' = <[ "bias_component" := PyFloat bias ]> (<[ "mse" := PyFloat mse ]> r) /\
    r !! "mse" = None /\ r !! "bias_component" = None /\
    delete "mse" (delete "bias_component" r') = r /\
    (forall key, key <> "mse" -> key <> "bias_component" -> r' !! key = r !! key).
Proof.
  intros Hne H.
  destruct (calculate_noise_stats_Returned _ _ _ Hne H)
    as (sq & std_dev & median & Hsq & Hstd & Hmed & bias2 & Hb & Hr).
  pose proof (calculate_noise_stats_eval scores None sq std_dev median Hne Hsq Hstd Hmed)
    as Hnone.
  cbv zeta in Hnone.
  set (r := statistics_record (mean_of scores) median std_dev (variance_of sq) scores) in *.
  assert (Hm : r !! "mse" = None) by reflexivity.
  assert (Hbc : r !! "bias_component" = None) by reflexivity.
  exists r, (py_round2 (bias2 + variance_of sq)), (py_round2 (mean_of scores - target)).
  split; [exact Hnone|]. split; [exact Hr|]. split; [exact Hm|]. split; [exact Hbc|].
  clearbody r. subst r'. unfold with_target. split.
  - apply map_eq. intros key.
    destruct (decide (key = "mse")) as [->|H1].
    { now rewrite lookup_delete_eq. }
    rewrite lookup_delete_ne by congruence.
    destruct (decide (key = "bias_component")) as [->|H2].
    { now rewrite lookup_delete_eq. }
    rewrite lookup_delete_ne by congruence.
    rewrite lookup_insert_ne by congruence.
    rewrite lookup_insert_ne by congruence. reflexivity.
  - intros key H1 H2.
    rewrite lookup_insert_ne by congruence.
    rewrite lookup_insert_ne by congruence. reflexivity.
Qed.

(** X4: with finite scores and a finite target, the mean squared error is
    not below zero, before and after rounding; this holds of the square
    the C library returns as of the correctly rounded one. *)
Theorem mse_nonneg (scores : list float) (target : float) (r : gmap string pyval) :
  scores <> [] ->
  (Z.of_nat (length scores) < 2 ^ 63)%Z ->
  Forall (fun x => isfinite x = true) scores ->
  isfinite target = true ->
  calculate_noise_stats scores (Some target) = Returned r ->
  exists (sq : list float) (mse : float),
    squared_deviations (mean_of scores) scores = Returned sq /\
    r !! "mse" = Some (PyFloat mse) /\
    (0 <=? (mean_of scores - target) * (mean_of scores - target) + variance_of sq) = true /\
    (0 <=? float_pow2 (mean_of scores - target) + variance_of sq) = true /\
    (0 <=? mse) = true.
Proof.
  intros Hne Hb Hfin Ht H.
  destruct (reported_fields _ _ _ Hne H)
    as (sq & median & Hsq & _ & _ & _ & _ & _ & _ & _ & Hmse & _).
  simpl in Hmse.
  assert (Hbias : isnan (mean_of scores - target) = false).
  { apply sub_nonnan_l; [|exact Ht]. now apply mean_of_nonnan. }
  assert (Hvar : nonneg (Prim2SF (variance_of sq)))
    by now apply (variance_of_nonneg scores).
  assert (Hnn : nonneg (Prim2SF (float_pow2 (mean_of scores - target) + variance_of sq))).
  { apply add_nonneg; [now apply float_pow2_nonneg|exact Hvar]. }
  exists sq. eexists. split; [exact Hsq|]. split; [exact Hmse|].
  split; [|split]; apply leb_zero_nonneg; [|exact Hnn|apply py_round2_nonneg, Hnn].
  apply add_nonneg; [now apply square_nonneg|exact Hvar].
Qed.

(** *** The median and the mean among the scores *)

(** X5: with finite scores the reported median lies between the smallest and
    the largest score. *)
Theorem median_within_range (scores : list float) (target_value : option float)
        (r : gmap string pyval) :
  scores <> [] ->
  Forall (fun x => isfinite x = true) scores ->
  calculate_noise_stats scores target_value = Returned r ->
  exists m lo hi : float,
    r !! "median" = Some (PyFloat m) /\
    py_min scores = Returned lo /\ py_max scores = Returned hi /\
    (lo <=? m) = true /\ (m <=? hi) = true.
Proof.
  intros Hne Hfin H.
  destruct (reported_fields _ _ _ Hne H)
    as (sq & m & _ & _ & Hmed & _ & Hr & _).
  destruct (py_min_spec scores Hne Hfin) as (lo & Hlo & Flo & Hmin).
  destruct (py_max_spec scores Hne Hfin) as (hi & Hhi & Fhi & Hmax).
  assert (Hin : m ∈ scores).
  { rewrite <- (sorted_Permutation scores). eapply list_elem_of_lookup_2, Hmed. }
  assert (Fm : isfinite m = true) by (rewrite Forall_forall in Hfin; auto).
  rewrite Forall_forall in Hmin, Hmax.
  exists m, lo, hi. do 3 (split; [assumption|]).
  rewrite !leb_scaled by assumption.
  split; apply Z.leb_le; auto.
Qed.

(** X6: when no score is below zero (and none is a NaN), neither the mean nor
    the reported mean is: rounding errors of the sum cannot make it
    negative. *)
Theorem mean_nonneg (scores : list float) (target_value : option float)
        (r : gmap string pyval) :
  scores <> [] ->
  (Z.of_nat (length scores) < 2 ^ 63)%Z ->
  Forall (fun x => (0 <=? x) = true) scores ->
  calculate_noise_stats scores target_value = Returned r ->
  (0 <=? mean_of scores) = true /\
  exists mean : float, r !! "mean" = Some (PyFloat mean) /\ (0 <=? mean) = true.
Proof.
  intros Hne Hb Hpos H.
  destruct (reported_fields _ _ _ Hne H)
    as (sq & m & _ & _ & _ & Hmean & _).
  assert (Hnn : nonneg (Prim2SF (mean_of scores))).
  { unfold mean_of. apply div_nonneg; [|now apply float_of_len_pos_finite].
    apply py_sum_nonneg. eapply Forall_impl; [exact Hpos|].
    intros x Hx. now apply leb_zero_nonneg. }
  split; [now apply leb_zero_nonneg|].
  eexists. split; [exact Hmean|]. now apply leb_zero_nonneg, py_round2_nonneg.
Qed.

(** X7: the reported median is a median of the scores: with no NaN among
    them, more than half of the scores are not above it and at least half
    are not below it. With an even count it is the upper of the two middle
    scores. *)
Theorem median_splits_scores (scores : list float) (target_value : option float)
        (r : gmap string pyval) :
  scores <> [] ->
  Forall (fun x => isnan x = false) scores ->
  calculate_noise_stats scores target_value = Returned r ->
  exists m : float,
    r !! "median" = Some (PyFloat m) /\
    (length scores < 2 * count_if (fun x => (x <=? m)%float) scores)%nat /\
    (length scores <= 2 * count_if (fun x => (m <=? x)%float) scores)%nat.
Proof.
  intros Hne Hnan H.
  destruct (reported_fields _ _ _ Hne H)
    as (sq & m & _ & _ & Hmed & _ & Hr & _).
  exists m. split; [exact Hr|].
  assert (Hm : isnan m = false).
  { pose proof (sorted_isnan scores Hnan) as Hs. rewrite Forall_forall in Hs.
    apply Hs. eapply list_elem_of_lookup_2, Hmed. }
  destruct (StronglySorted_rank PrimFloat.leb (sorted scores) _ m
              (sorted_ascending scores Hnan) Hmed (leb_refl m Hm)) as [H1 H2].
  rewrite (count_if_Permutation _ _ _ (sorted_Permutation scores)) in H1.
  rewrite (count_if_Permutation _ _ _ (sorted_Permutation scores)) in H2.
  rewrite sorted_length in H2.
  pose proof (Nat.div_mod_eq (length scores) 2) as Hdiv.
  pose proof (Nat.mod_upper_bound (length scores) 2 ltac:(lia)) as Hmod.
  split; lia.
Qed.

(** *** Scores that are not finite *)

(** X8: an infinite or NaN score raises nothing: the call returns a record
    whose [variance] and [std_dev], and [mse] when a target is given, are
    NaN, and whose [mean] and [bias_component] are not finite. A caller
    who wants numbers has to reject such scores before the call. *)
Theorem nonfinite_score_gives_nan (scores : list float) (target_value : option float)
        (x : float) :
  In x scores -> isfinite x = false ->
  exists (r : gmap string pyval) (mean : float),
    calculate_noise_stats scores target_value = Returned r /\
    r !! "variance" = Some (PyFloat nan) /\
    r !! "std_dev" = Some (PyFloat nan) /\
    r !! "mean" = Some (PyFloat mean) /\ isfinite mean = false /\
    match target_value with
    | Some _ =>
        r !! "mse" = Some (PyFloat nan) /\
        exists bias : float,
          r !! "bias_component" = Some (PyFloat bias) /\ isfinite bias = false
    | None => True
    end.
Proof.
  intros Hin Hx.
  assert (Hne : scores <> []) by (intros ->; destruct Hin).
  apply isfinite_false in Hx.
  assert (Hmean : follows (Prim2SF x) (Prim2SF (mean_of scores))).
  { unfold mean_of. rewrite div_spec.
    apply SFdiv_follows; [exact Hx|now apply py_sum_follows|apply float_of_int_signed]. }
  assert (Hmf : isfinite (mean_of scores) = false).
  { apply isfinite_false. exact (follows_nonfinite _ _ Hx Hmean). }
  set (g := fun y => float_pow2 (y - mean_of scores)).
  assert (Hsq : squared_deviations (mean_of scores) scores = Returned (map g scores)).
  { apply mapM_Returned_map, Forall_forall. intros y _.
    apply py_pow2_nonfinite, isfinite_false. rewrite sub_spec.
    apply SFsub_nonfinite_r, isfinite_false, Hmf. }
  assert (Hnan : In nan (map g scores)).
  { apply in_map_iff. exists x. split; [|exact Hin].
    assert (Hd : x - mean_of scores = nan).
    { apply Prim2SF_nan. rewrite sub_spec. now apply SFsub_follows_nan. }
    unfold g. rewrite Hd. reflexivity. }
  assert (Hvar : variance_of (map g scores) = nan).
  { unfold variance_of. rewrite (py_sum_nan _ Hnan). apply div_nan_l. }
  destruct (py_getitem_lt (sorted scores) (length scores / 2)) as (median & Hmed & _).
  { rewrite sorted_length. apply half_lt. destruct scores; [congruence|simpl; lia]. }
  assert (Hstd : math_sqrt (variance_of (map g scores)) = Returned nan)
    by (rewrite Hvar; reflexivity).
  rewrite (calculate_noise_stats_eval scores target_value _ _ _ Hne Hsq Hstd Hmed).
  cbv zeta. rewrite Hvar.
  destruct target_value as [target|].
  - assert (Hb : isfinite (mean_of scores - target) = false).
    { apply isfinite_false. rewrite sub_spec.
      apply SFsub_nonfinite_l, isfinite_false, Hmf. }
    rewrite (py_pow2_nonfinite _ Hb). cbn [mbind outcome_bind].
    rewrite add_nan_r.
    eexists _, (py_round2 (mean_of scores)). split; [reflexivity|].
    split; [reflexivity|]. split; [reflexivity|]. split; [reflexivity|].
    split; [now rewrite py_round2_nonfinite|]. split; [reflexivity|].
    exists (py_round2 (mean_of scores - target)).
    split; [reflexivity|now rewrite py_round2_nonfinite].
  - eexists _, (py_round2 (mean_of scores)). split; [reflexivity|].
    split; [reflexivity|]. split; [reflexivity|]. split; [reflexivity|].
    split; [now rewrite py_round2_nonfinite|exact I].
Qed.

(** *** A single score *)

(** X9: one finite score is its own mean and median and has no noise: the
    call returns, [variance] and [std_dev] are zero, the mean is the score
    ([0 + x], which is [+0.0] for [-0.0]), and with a target the mean
    squared error is the squared bias alone, [bias ** 2] as the C library
    computes it. Only the square of the bias can overflow. *)
Theorem single_score (x : float) (target_value : option float) :
  isfinite x = true ->
  (0 + x =? x) = true /\
  let result : gmap string pyval :=
    {[ "mean" := PyFloat (py_round2 (0 + x)); "median" := PyFloat x;
       "std_dev" := PyFloat 0; "variance" := PyFloat 0;
       "raw_scores" := PyList [x] ]} in
  calculate_noise_stats [x] target_value =
  match target_value with
  | None => Returned result
  | Some target =>
      let bias := 0 + x - target in
      if pow2_overflows bias then Raised OverflowError
      else Returned (<[ "bias_component" := PyFloat (py_round2 bias) ]>
                       (<[ "mse" := PyFloat (py_round2 (float_pow2 bias)) ]> result))
  end.
Proof.
  intros Hx. split; [now apply add_zero_l_eqb, isfinite_isnan|].
  assert (Hmean : mean_of [x] = 0 + x).
  { unfold mean_of, py_sum. simpl.
    change (float_of_int 1) with 1. apply div_one. }
  assert (Hsq : squared_deviations (mean_of [x]) [x] = Returned [0]).
  { rewrite Hmean. unfold squared_deviations. simpl.
    destruct (self_deviation_zero x Hx) as [s Hs].
    rewrite (py_pow2_zero _ s Hs). reflexivity. }
  assert (Hsorted : sorted [x] = [x]).
  { apply Permutation_length_1_inv, Permutation_sym, sorted_Permutation. }
  assert (Hmed : py_getitem (sorted [x]) (length [x] / 2) = Returned x)
    by (rewrite Hsorted; reflexivity).
  rewrite (calculate_noise_stats_eval [x] target_value [0] 0 x
             ltac:(discriminate) Hsq eq_refl Hmed).
  rewrite Hmean. cbv zeta. destruct target_value as [target|]; [|reflexivity].
  rewrite py_pow2_overflows. destruct (pow2_overflows (0 + x - target)); [reflexivity|].
  cbn [mbind outcome_bind].
  change (variance_of [0]) with 0. rewrite float_pow2_add_zero. reflexivity.
Qed.

(** *** The sign of the bias, and a target at the mean *)

(** X10: with a finite mean and a finite target, the reported bias is not
    below zero when the mean is not below the target, and not above zero
    when the mean is not above it: rounding never flips its sign. *)
Theorem bias_sign (scores : list float) (target : float) (r : gmap string pyval) :
  scores <> [] ->
  isfinite (mean_of scores) = true ->
  isfinite target = true ->
  calculate_noise_stats scores (Some target) = Returned r ->
  exists bias : float,
    r !! "bias_component" = Some (PyFloat bias) /\
    ((target <=? mean_of scores) = true -> (0 <=? bias) = true) /\
    ((mean_of scores <=? target) = true -> (bias <=? 0) = true).
Proof.
  intros Hne Hm Ht H.
  destruct (reported_fields _ _ _ Hne H)
    as (sq & median & _ & _ & _ & _ & _ & _ & _ & _ & _ & Hbias & _).
  simpl in Hbias. eexists. split; [exact Hbias|]. split; intros Hle.
  - apply leb_zero_nonneg, py_round2_nonneg. now apply sub_nonneg_of_leb.
  - apply leb_zero_nonpos, py_round2_nonpos. now apply sub_nonpos_of_leb.
Qed.

(** X11: a target equal to the computed mean has no bias: the call returns
    whenever the call without a target does, [bias_component] is zero and
    [mse] is the reported [variance]. *)
Theorem target_at_mean (scores : list float) (r : gmap string pyval) :
  scores <> [] ->
  (Z.of_nat (length scores) < 2 ^ 63)%Z ->
  isfinite (mean_of scores) = true ->
  calculate_noise_stats scores None = Returned r ->
  exists v : float,
    r !! "variance" = Some (PyFloat v) /\
    calculate_noise_stats scores (Some (mean_of scores)) =
    Returned (<[ "bias_component" := PyFloat 0 ]> (<[ "mse" := PyFloat v ]> r)).
Proof.
  intros Hne Hb Hm H.
  destruct (calculate_noise_stats_Returned _ _ _ Hne H)
    as (sq & std_dev & median & Hsq & Hstd & Hmed & Hr).
  cbv zeta in Hr.
  assert (Hv : plus_or_nan (Prim2SF (variance_of sq))).
  { unfold variance_of. rewrite (squared_deviations_length _ _ _ Hsq).
    apply div_plus_or_nan; [|now apply float_of_len_pos_finite].
    apply py_sum_plus_or_nan. rewrite (squared_deviations_map _ _ _ Hsq).
    apply Forall_map, Forall_forall. intros x _. apply float_pow2_plus_or_nan. }
  exists (py_round2 (variance_of sq)). split; [subst r; reflexivity|].
  rewrite (calculate_noise_stats_eval scores _ sq std_dev median Hne Hsq Hstd Hmed).
  cbv zeta. rewrite (sub_diag _ Hm).
  change (py_pow2 0) with (Returned (A := float) 0). cbn [mbind outcome_bind].
  rewrite (add_zero_l _ Hv). subst r. reflexivity.
Qed.


End WithRuntime.

(** *** Counterexamples

    They hold with every runtime: the mean does not depend on [pow] or on
    [sorted], and no square taken in them overflows. *)

(** C7 does not hold as stated: floating-point addition is not
    associative, so the sum of the scores depends on their order. The two
    orders of [2^120, 2^60, 1, -2^60, -2^120] below are reported with the
    means [0.0] and [0.2]. *)
Lemma permutation_changes_mean :
  Permutation scores_absorbed scores_cancelled /\
  (forall rt : Runtime,
      reported "mean" (@calculate_noise_stats rt scores_absorbed None)
      = Some (PyFloat 0)) /\
  (forall rt : Runtime,
      reported "mean" (@calculate_noise_stats rt scores_cancelled None)
      = Some (PyFloat 0.2)).
Proof.
  split.
  - unfold scores_absorbed, scores_cancelled.
    apply perm_skip.
    apply (Permutation_cons_app [_] [_; _]).
    apply (Permutation_cons_app [_; _] []).
    apply perm_swap.
  - split; intros rt; rewrite reported_mean_of;
      try discriminate; vm_compute; reflexivity.
Qed.

(** The compensated summation of CPython 3.12 and later reports the same
    two means. *)
Lemma permutation_changes_mean_compensated :
  py_round2 (py_sum_compensated scores_absorbed / float_of_int 5) = 0 /\
  py_round2 (py_sum_compensated scores_cancelled / float_of_int 5) = 0.2.
Proof. split; vm_compute; reflexivity. Qed.

(** C8 does not hold as stated: the sum [0.1 + 0.1 + 0.1] is rounded up to
    [0.30000000000000004], and the mean computed from it,
    [0.10000000000000002], is above the largest score. *)
Lemma mean_above_max :
  py_max [0.1; 0.1; 0.1] = Returned 0.1 /\
  mean_of [0.1; 0.1; 0.1] = 0.10000000000000002 /\
  (mean_of [0.1; 0.1; 0.1] <=? 0.1) = false.
Proof. repeat split; vm_compute; reflexivity. Qed.

(** The compensated summation of CPython 3.12 and later gives the same
    mean. *)
Lemma mean_above_max_compensated :
  py_sum_compensated [0.1; 0.1; 0.1] / float_of_int 3 = 0.10000000000000002.
Proof. vm_compute. reflexivity. Qed.

(** The reported mean, rounded to two decimals, can leave the range too:
    the single score [0.125] is reported with the mean [0.12]. *)
Lemma reported_mean_below_min :
  py_min [0.125] = Returned 0.125 /\
  (forall rt : Runtime,
      reported "mean" (@calculate_noise_stats rt [0.125] None) = Some (PyFloat 0.12)) /\
  (0.125 <=? 0.12) = false.
Proof.
  split; [reflexivity|]. split; [|reflexivity].
  intros rt. rewrite reported_mean_of; try discriminate; vm_compute; reflexivity.
Qed.

(** ** Worked examples

    The theorems above, applied to concrete lists. A record can only be
    evaluated with a runtime at hand; the one used here has a correctly
    rounded [pow] and sorts every list by insertion. The squares taken in
    the examples are exact, and no list in them holds a NaN. *)

Lemma square_signed (x : float) :
  isfinite x = true -> (0 <? x) = true -> signed false (Prim2SF (x * x)).
Proof.
  intros _ Hp. rewrite ltb_spec in Hp. rewrite mul_spec.
  change (Prim2SF 0) with (S754_zero false) in Hp.
  destruct (Prim2SF x) as [[]|[]| |[] m e]; try discriminate.
  - reflexivity.
  - simpl. apply binary_round_aux_signed. lia.
Qed.

#[local] Instance correctly_rounded : Runtime := {|
  libm_pow2 := fun x => x * x;
  libm_pow2_signed := square_signed;
  libm_pow2_isfinite := fun x _ _ => eq_refl;
  sort_with_nan := sorted_by PrimFloat.ltb;
  sort_with_nan_Permutation := sorted_by_Permutation PrimFloat.ltb
|}.

Lemma scenario_10_20_30 :
  calculate_noise_stats [10; 20; 30] None = Returned result_10_20_30.
Proof. vm_cast_no_check (@eq_refl _ (Returned result_10_20_30)). Qed.

Lemma scenario_5_5_5_target_7 :
  calculate_noise_stats [5; 5; 5] (Some 7) = Returned result_5_5_5_target_7.
Proof. vm_cast_no_check (@eq_refl _ (Returned result_5_5_5_target_7)). Qed.

Lemma scenario_1_2_3_4 :
  calculate_noise_stats [1; 2; 3; 4] None = Returned result_1_2_3_4.
Proof. vm_cast_no_check (@eq_refl _ (Returned result_1_2_3_4)). Qed.

(** A deviation of [5e199] has no finite square: the call raises. *)
Lemma scenario_overflow :
  calculate_noise_stats [1e200; 0] None = Raised OverflowError.
Proof. vm_compute. reflexivity. Qed.

Lemma result_keys_witness :
  calculate_noise_stats [5; 5; 5] (Some 7) = Returned result_5_5_5_target_7 /\
  "mse" ∈ dom result_5_5_5_target_7 /\
  "bias_component" ∈ dom result_5_5_5_target_7.
Proof.
  split; [exact scenario_5_5_5_target_7|].
  destruct (result_keys [5; 5; 5] (Some 7) result_5_5_5_target_7) as (_ & H1 & H2 & _);
    [discriminate|exact scenario_5_5_5_target_7|].
  split; [apply H1|apply H2]; eexists; reflexivity.
Defined.

Lemma raw_scores_verbatim_witness :
  calculate_noise_stats [10; 20; 30] None = Returned result_10_20_30 /\
  result_10_20_30 !! "raw_scores" = Some (PyList [10; 20; 30]).
Proof.
  split; [exact scenario_10_20_30|].
  apply (raw_scores_verbatim [10; 20; 30] None result_10_20_30);
    [discriminate|exact scenario_10_20_30].
Defined.

(** For [scores = [1, 2, 3, 4]] the median is [3], the item at index 2 of
    the sorted copy, not the average of the two middle items. *)
Lemma median_is_middle_of_sorted_witness :
  calculate_noise_stats [1; 2; 3; 4] None = Returned result_1_2_3_4 /\
  result_1_2_3_4 !! "median" = Some (PyFloat 3) /\
  sorted [1; 2; 3; 4] !! (length [1; 2; 3; 4] / 2)%nat = Some 3.
Proof.
  split; [exact scenario_1_2_3_4|].
  destruct (median_is_middle_of_sorted [1; 2; 3; 4] None result_1_2_3_4)
    as (m & Hm & Hs & _); [discriminate|exact scenario_1_2_3_4|].
  assert (Em : m = 3) by (vm_compute in Hs; congruence).
  rewrite Em in Hm, Hs. split; assumption.
Defined.

Lemma median_lookup_safe_witness :
  (length [1; 2; 3; 4] / 2 < length [1; 2; 3; 4])%nat /\
  py_getitem (sorted [1; 2; 3; 4]) (length [1; 2; 3; 4] / 2) = Returned 3 /\
  In 3 [1; 2; 3; 4].
Proof.
  destruct (median_lookup_safe [1; 2; 3; 4]) as (Hlt & (m & Hget & Hin & _) & _);
    [discriminate|].
  assert (Em : m = 3) by (vm_compute in Hget; congruence).
  rewrite Em in Hget, Hin. repeat split; assumption.
Defined.



Lemma variance_nonneg_sqrt_safe_witness :
  (exists v s : float,
      result_10_20_30 !! "variance" = Some (PyFloat v) /\
      result_10_20_30 !! "std_dev" = Some (PyFloat s) /\
      (0 <=? v) = true /\ (0 <=? s) = true) /\
  calculate_noise_stats [10; 20; 30] None <> Raised ValueError.
Proof.
  destruct (variance_nonneg_sqrt_safe [10; 20; 30]) as (_ & H2 & H3).
  - discriminate.
  - vm_compute. reflexivity.
  - split; [|exact (H2 None)].
    apply (proj2 (H3 ltac:(repeat constructor)) None result_10_20_30 scenario_10_20_30).
Defined.

(** Reordering [[10, 20, 30]] to [[30, 10, 20]] changes neither sum, and
    the reordered call reports the same statistics. *)
Lemma permutation_invariance_witness :
  exists r' : gmap string pyval,
    calculate_noise_stats [30; 10; 20] None = Returned r' /\
    r' !! "mean" = Some (PyFloat 20) /\
    r' !! "std_dev" = Some (PyFloat 8.16) /\
    r' !! "variance" = Some (PyFloat 66.67).
Proof.
  destruct (permutation_invariance [10; 20; 30] [30; 10; 20] None result_10_20_30)
    as (_ & H).
  - discriminate.
  - apply (Permutation_cons_app [_] [_]). apply perm_swap.
  - exact scenario_10_20_30.
  - destruct H as (r' & Hr' & Hm & Hs & Hv & _).
    + vm_compute. reflexivity.
    + vm_compute. reflexivity.
    + exists r'. split; [exact Hr'|]. rewrite Hm, Hs, Hv. repeat split; reflexivity.
Defined.

Lemma returns_unless_overflow_witness :
  (exists r, calculate_noise_stats [10; 20; 30] (Some 25) = Returned r) /\
  calculate_noise_stats [1e200; 0] None = Raised OverflowError /\
  calculate_noise_stats [10; 20; 30] (Some 1e200) = Raised OverflowError.
Proof.
  split; [|split].
  - apply (returns_unless_overflow [10; 20; 30] (Some 25));
      [discriminate|vm_compute; reflexivity|vm_compute; reflexivity].
  - apply (returns_unless_overflow [1e200; 0] None);
      [discriminate|vm_compute; reflexivity|vm_compute; reflexivity].
  - apply (returns_unless_overflow [10; 20; 30] (Some 1e200));
      [discriminate|vm_compute; reflexivity|vm_compute; reflexivity].
Defined.

Lemma error_key_iff_empty_witness :
  ("error" ∈ dom result_10_20_30 <-> [10; 20; 30]%float = []) /\
  result_10_20_30 !! "error" = None.
Proof.
  destruct (error_key_iff_empty [10; 20; 30] None result_10_20_30 scenario_10_20_30)
    as (H1 & _ & H3).
  split; [exact H1|]. apply H3. discriminate.
Defined.

Lemma target_only_adds_entries_witness :
  exists (r : gmap string pyval) (mse bias : float),
    calculate_noise_stats [5; 5; 5] None = Returned r /\
    result_5_5_5_target_7 =
      <[ "bias_component" := PyFloat bias ]> (<[ "mse" := PyFloat mse ]> r) /\
    r !! "mse" = None /\ r !! "bias_component" = None.
Proof.
  destruct (target_only_adds_entries [5; 5; 5] 7 result_5_5_5_target_7)
    as (r & mse & bias & H1 & H2 & H3 & H4 & _);
    [discriminate|exact scenario_5_5_5_target_7|].
  exists r, mse, bias. repeat split; assumption.
Defined.

Lemma mse_nonneg_witness :
  exists mse : float,
    result_5_5_5_target_7 !! "mse" = Some (PyFloat mse) /\ (0 <=? mse) = true.
Proof.
  destruct (mse_nonneg [5; 5; 5] 7 result_5_5_5_target_7)
    as (sq & mse & _ & H1 & _ & _ & H2).
  - discriminate.
  - vm_compute. reflexivity.
  - repeat constructor.
  - reflexivity.
  - exact scenario_5_5_5_target_7.
  - exists mse. split; assumption.
Defined.

Lemma median_within_range_witness :
  exists m : float,
    result_1_2_3_4 !! "median" = Some (PyFloat m) /\
    (1 <=? m) = true /\ (m <=? 4) = true.
Proof.
  destruct (median_within_range [1; 2; 3; 4] None result_1_2_3_4)
    as (m & lo & hi & Hm & Hlo & Hhi & H1 & H2).
  - discriminate.
  - repeat constructor.
  - exact scenario_1_2_3_4.
  - assert (Elo : lo = 1) by (vm_compute in Hlo; congruence).
    assert (Ehi : hi = 4) by (vm_compute in Hhi; congruence).
    rewrite Elo in H1. rewrite Ehi in H2.
    exists m. repeat split; assumption.
Defined.

Lemma mean_nonneg_witness :
  (0 <=? mean_of [10; 20; 30]) = true /\
  exists mean : float,
    result_10_20_30 !! "mean" = Some (PyFloat mean) /\ (0 <=? mean) = true.
Proof.
  apply (mean_nonneg [10; 20; 30] None result_10_20_30).
  - discriminate.
  - vm_compute. reflexivity.
  - repeat constructor.
  - exact scenario_10_20_30.
Defined.

Lemma median_splits_scores_witness :
  exists m : float,
    result_1_2_3_4 !! "median" = Some (PyFloat m) /\
    (4 < 2 * count_if (fun x => (x <=? m)%float) [1; 2; 3; 4]%float)%nat /\
    (4 <= 2 * count_if (fun x => (m <=? x)%float) [1; 2; 3; 4]%float)%nat.
Proof.
  apply (median_splits_scores [1; 2; 3; 4] None result_1_2_3_4).
  - discriminate.
  - repeat constructor.
  - exact scenario_1_2_3_4.
Defined.

Lemma nonfinite_score_gives_nan_witness :
  exists r : gmap string pyval,
    calculate_noise_stats [1; infinity; 3] (Some 2) = Returned r /\
    r !! "variance" = Some (PyFloat nan) /\
    r !! "std_dev" = Some (PyFloat nan) /\
    r !! "mse" = Some (PyFloat nan).
Proof.
  destruct (nonfinite_score_gives_nan [1; infinity; 3] (Some 2) infinity)
    as (r & mean & H & Hv & Hs & _ & _ & Hm & _).
  - right. left. reflexivity.
  - reflexivity.
  - exists r. repeat split; assumption.
Defined.

Lemma single_score_witness :
  exists r : gmap string pyval,
    calculate_noise_stats [7.5] (Some 7) = Returned r /\
    r !! "mean" = Some (PyFloat 7.5) /\ r !! "median" = Some (PyFloat 7.5) /\
    r !! "variance" = Some (PyFloat 0) /\ r !! "std_dev" = Some (PyFloat 0) /\
    r !! "bias_component" = Some (PyFloat 0.5) /\ r !! "mse" = Some (PyFloat 0.25).
Proof.
  destruct (single_score 7.5 (Some 7) eq_refl) as [_ H].
  cbv zeta in H. change (pow2_overflows (0 + 7.5 - 7)) with false in H.
  eexists. split; [exact H|]. repeat split; reflexivity.
Defined.

Lemma bias_sign_witness :
  exists bias : float,
    result_5_5_5_target_7 !! "bias_component" = Some (PyFloat bias) /\
    (bias <=? 0) = true.
Proof.
  destruct (bias_sign [5; 5; 5] 7 result_5_5_5_target_7)
    as (bias & Hb & _ & Hle).
  - discriminate.
  - reflexivity.
  - reflexivity.
  - exact scenario_5_5_5_target_7.
  - exists bias. split; [exact Hb|]. apply Hle. reflexivity.
Defined.

Lemma target_at_mean_witness :
  exists v : float,
    result_10_20_30 !! "variance" = Some (PyFloat v) /\
    calculate_noise_stats [10; 20; 30] (Some 20) =
    Returned (<[ "bias_component" := PyFloat 0 ]>
                (<[ "mse" := PyFloat v ]> result_10_20_30)).
Proof.
  apply (target_at_mean [10; 20; 30] result_10_20_30).
  - discriminate.
  - vm_compute. reflexivity.
  - reflexivity.
  - exact scenario_10_20_30.
Defined.

(** The sum of [[1, 2, 2]] is exact and its third is rounded; the sum of
    [[0.1, 0.2]] is rounded, but stays between twice the one and twice the
    other. Both means are in range. *)
Lemma mean_within_range_of_sum_witness :
  (mean_of [1; 2; 2] = 1.6666666666666667 /\
   (1 <=? mean_of [1; 2; 2]) = true /\ (mean_of [1; 2; 2] <=? 2) = true) /\
  (py_sum [0.1; 0.2] = 0.30000000000000004 /\
   (0.1 <=? mean_of [0.1; 0.2]) = true /\ (mean_of [0.1; 0.2] <=? 0.2) = true).
Proof.
  split.
  - destruct (mean_within_range_of_sum [1; 2; 2])
      as (lo & hi & Hlo & Hhi & _ & _ & H).
    + discriminate.
    + vm_compute. reflexivity.
    + repeat constructor.
    + reflexivity.
    + assert (Elo : lo = 1) by (vm_compute in Hlo; congruence).
      assert (Ehi : hi = 2) by (vm_compute in Hhi; congruence).
      rewrite Elo, Ehi in H. split; [vm_compute; reflexivity|].
      apply H. vm_compute. reflexivity.
  - destruct (mean_within_range_of_sum [0.1; 0.2])
      as (lo & hi & Hlo & Hhi & H1 & H2 & _).
    + discriminate.
    + vm_compute. reflexivity.
    + repeat constructor.
    + reflexivity.
    + assert (Elo : lo = 0.1) by (vm_compute in Hlo; congruence).
      assert (Ehi : hi = 0.2) by (vm_compute in Hhi; congruence).
      rewrite Elo in H1. rewrite Ehi in H2.
      split; [vm_compute; reflexivity|].
      split; [apply H1|apply H2]; vm_compute; reflexivity.
Defined.

End NoiseAuditFacts.
